(** * z-autocomplete: the widget's state machine

    A shallow embedding of [src/z-autocomplete.ts] (the [ZAutocomplete]
    custom element, shadow-DOM version) and the properties of its
    coordination logic: option list and active index, disabled-skip keyboard
    navigation, the cancellable value setter, debounced fetch triggering and
    abort bookkeeping.

    Modelling choices.
    - The element's private fields are fields of [State], under the names
      they have in the class.  The parts of the browser the class talks to
      are further fields of the same record: the abort reasons of the
      signals aborted so far, the pending timeouts with a logical clock, the
      callbacks waiting on [updateComplete], the [fetchData] calls made so
      far and the events dispatched so far.
    - [undefined] is [None]: a value is an [option OptionValue], an entry of
      a list given to the options setter an [option ZAutocompleteOption].
    - The host is an interface, [Host]: [dataToOption], the truthiness of its
      values, whether its listeners call [preventDefault] on an
      'autocomplete' event, and the [debouceDelay] it configures.  What a
      [fetchData] promise settles with, and when, is chosen by the
      environment ([Resolve] and [Reject] events).
    - Scrolling, focus, ARIA attributes other than [aria-expanded],
      [stopPropagation] and [preventDefault] on DOM events, and the
      registration of listeners are not part of the state.
    - Time is a logical clock: a [Tick] is one unit of it, and a timeout set
      with delay [d] fires during the [d]-th tick after it (the first, when
      [d] is 0).
    - The element is modelled from the end of [connectedCallback] on, with
      its input element bound.  A task of the event loop is a handler
      followed by the callbacks then waiting on [updateComplete].

    Besides the element itself the file embeds what [render] shows of a
    state, the [dataToOption] and [fetchData] the class gives a host that
    supplies none, the light-DOM version of the element that precedes it in
    [src/z-autocomplete.ts] ([LightDom]), the cyclic navigation of the
    first version ([FirstVersion]), and the host of [src/demo.ts]
    ([DemoPage]). *)

From Stdlib Require Import ZArith Lia Ascii.
From stdpp Require Import base option list strings pretty gmap.

Local Open Scope Z_scope.

(** ** Options, events, state *)

(** [label: string | HTMLElement]; of an element only [textContent]
    (possibly [null]) is read. *)
Inductive Label :=
  | LabelText (text : string)
  | LabelElement (textContent : option string).

Record ZAutocompleteOption {OptionValue : Type} := mkOption {
  label : Label;
  inputValue : option string;
  value : option OptionValue;
  disabled : bool
}.
Arguments ZAutocompleteOption : clear implicits.
Arguments mkOption {OptionValue}.

(** The 'autocomplete' event of one assignment: its [detail] and whether a
    listener has cancelled it. *)
Record CustomEvent {OptionValue : Type} := mkEvent {
  detail : option OptionValue;
  defaultPrevented : bool
}.
Arguments CustomEvent : clear implicits.
Arguments mkEvent {OptionValue}.

(** The keys [_onKeydown] distinguishes. *)
Inductive Key := ArrowDown | ArrowUp | Enter | Escape | OtherKey.

(** One call of [fetchData]: its two arguments (the signal is named by the
    number of its controller) and whether its promise has settled. *)
Record Fetch := mkFetch {
  query : string;
  signal : option nat;
  settled : bool
}.

(** What the host of an element supplies. *)
Class Host (OptionValue : Type) := {
  truthy : OptionValue -> bool;
  dataToOption : option OptionValue -> option (ZAutocompleteOption OptionValue);
  hostPrevents : option OptionValue -> bool;
  debouceDelay : nat
}.

Record State {OptionValue : Type} := mkState {
  _abortController : option nat;
  _inputEl : string;                    (* _inputEl.value *)
  _clearEl : option bool;               (* _clearEl.hidden, when there is one *)
  _open : bool;
  _value : option OptionValue;
  _options : list (ZAutocompleteOption OptionValue);
  _activeOptionIndex : Z;
  ariaExpanded : bool;
  timer : option nat;                   (* the variable of the debounce closure *)
  aborted : gmap nat string;            (* controller |-> reason of its abort *)
  controllers : nat;                    (* AbortControllers created so far *)
  timeouts : list (nat * nat);          (* pending: (id, time it is due) *)
  timeoutIds : nat;
  now : nat;
  updates : list (CustomEvent OptionValue);  (* callbacks waiting on updateComplete *)
  fetches : list Fetch;
  dispatched : list (CustomEvent OptionValue)
}.
Arguments State : clear implicits.
Arguments mkState {OptionValue}.

Inductive Event {OptionValue : Type} :=
  | Input (text : string)               (* the user edits the field *)
  | ClearClick
  | Keydown (key : Key)
  | DocumentClick (contains : bool)
  | OptionClick (index : nat)           (* the click listener of the rendered item *)
  | AssignValue (val : option OptionValue)
  | AssignOptions (val : list (option (ZAutocompleteOption OptionValue)))
  | Tick                                (* one unit of time passes *)
  | Resolve (i : nat) (data : list OptionValue)
  | Reject (i : nat)
  | Disconnect.
Arguments Event : clear implicits.

(** [!!l.length] *)
Definition nonempty {A} (l : list A) : bool :=
  negb (Nat.eqb (length l) 0).

(** Truthiness of a string: every string but the empty one. *)
Definition truthy_string (str : string) : bool :=
  match str with EmptyString => false | String _ _ => true end.

(** [l[i]] for a JavaScript number [i] that is an integer: [undefined]
    outside the list. *)
Definition at_index {A} (l : list A) (i : Z) : option A :=
  if i <? 0 then None else l !! Z.to_nat i.

Section Model.

Context {OptionValue : Type} {theHost : Host OptionValue}.

(** Field updates. *)

Definition with_abortController (v : option nat) (s : State OptionValue)
  : State OptionValue :=
  mkState v (_inputEl s) (_clearEl s) (_open s) (_value s) (_options s)
    (_activeOptionIndex s) (ariaExpanded s) (timer s) (aborted s)
    (controllers s) (timeouts s) (timeoutIds s) (now s) (updates s)
    (fetches s) (dispatched s).

Definition with_inputEl (v : string) (s : State OptionValue)
  : State OptionValue :=
  mkState (_abortController s) v (_clearEl s) (_open s) (_value s)
    (_options s) (_activeOptionIndex s) (ariaExpanded s) (timer s)
    (aborted s) (controllers s) (timeouts s) (timeoutIds s) (now s)
    (updates s) (fetches s) (dispatched s).

Definition with_clearEl (v : option bool) (s : State OptionValue)
  : State OptionValue :=
  mkState (_abortController s) (_inputEl s) v (_open s) (_value s)
    (_options s) (_activeOptionIndex s) (ariaExpanded s) (timer s)
    (aborted s) (controllers s) (timeouts s) (timeoutIds s) (now s)
    (updates s) (fetches s) (dispatched s).

Definition with_open (v : bool) (s : State OptionValue) : State OptionValue :=
  mkState (_abortController s) (_inputEl s) (_clearEl s) v (_value s)
    (_options s) (_activeOptionIndex s) (ariaExpanded s) (timer s)
    (aborted s) (controllers s) (timeouts s) (timeoutIds s) (now s)
    (updates s) (fetches s) (dispatched s).

Definition with_value (v : option OptionValue) (s : State OptionValue)
  : State OptionValue :=
  mkState (_abortController s) (_inputEl s) (_clearEl s) (_open s) v
    (_options s) (_activeOptionIndex s) (ariaExpanded s) (timer s)
    (aborted s) (controllers s) (timeouts s) (timeoutIds s) (now s)
    (updates s) (fetches s) (dispatched s).

Definition with_options (v : list (ZAutocompleteOption OptionValue))
  (s : State OptionValue)
  : State OptionValue :=
  mkState (_abortController s) (_inputEl s) (_clearEl s) (_open s)
    (_value s) v (_activeOptionIndex s) (ariaExpanded s) (timer s)
    (aborted s) (controllers s) (timeouts s) (timeoutIds s) (now s)
    (updates s) (fetches s) (dispatched s).

Definition with_activeOptionIndex (v : Z) (s : State OptionValue)
  : State OptionValue :=
  mkState (_abortController s) (_inputEl s) (_clearEl s) (_open s)
    (_value s) (_options s) v (ariaExpanded s) (timer s) (aborted s)
    (controllers s) (timeouts s) (timeoutIds s) (now s) (updates s)
    (fetches s) (dispatched s).

Definition with_ariaExpanded (v : bool) (s : State OptionValue)
  : State OptionValue :=
  mkState (_abortController s) (_inputEl s) (_clearEl s) (_open s)
    (_value s) (_options s) (_activeOptionIndex s) v (timer s) (aborted s)
    (controllers s) (timeouts s) (timeoutIds s) (now s) (updates s)
    (fetches s) (dispatched s).

Definition with_timer (v : option nat) (s : State OptionValue)
  : State OptionValue :=
  mkState (_abortController s) (_inputEl s) (_clearEl s) (_open s)
    (_value s) (_options s) (_activeOptionIndex s) (ariaExpanded s) v
    (aborted s) (controllers s) (timeouts s) (timeoutIds s) (now s)
    (updates s) (fetches s) (dispatched s).

Definition with_aborted (v : gmap nat string) (s : State OptionValue)
  : State OptionValue :=
  mkState (_abortController s) (_inputEl s) (_clearEl s) (_open s)
    (_value s) (_options s) (_activeOptionIndex s) (ariaExpanded s)
    (timer s) v (controllers s) (timeouts s) (timeoutIds s) (now s)
    (updates s) (fetches s) (dispatched s).

Definition with_controllers (v : nat) (s : State OptionValue)
  : State OptionValue :=
  mkState (_abortController s) (_inputEl s) (_clearEl s) (_open s)
    (_value s) (_options s) (_activeOptionIndex s) (ariaExpanded s)
    (timer s) (aborted s) v (timeouts s) (timeoutIds s) (now s) (updates s)
    (fetches s) (dispatched s).

Definition with_timeouts (v : list (nat * nat)) (s : State OptionValue)
  : State OptionValue :=
  mkState (_abortController s) (_inputEl s) (_clearEl s) (_open s)
    (_value s) (_options s) (_activeOptionIndex s) (ariaExpanded s)
    (timer s) (aborted s) (controllers s) v (timeoutIds s) (now s)
    (updates s) (fetches s) (dispatched s).

Definition with_timeoutIds (v : nat) (s : State OptionValue)
  : State OptionValue :=
  mkState (_abortController s) (_inputEl s) (_clearEl s) (_open s)
    (_value s) (_options s) (_activeOptionIndex s) (ariaExpanded s)
    (timer s) (aborted s) (controllers s) (timeouts s) v (now s) (updates s)
    (fetches s) (dispatched s).

Definition with_now (v : nat) (s : State OptionValue) : State OptionValue :=
  mkState (_abortController s) (_inputEl s) (_clearEl s) (_open s)
    (_value s) (_options s) (_activeOptionIndex s) (ariaExpanded s)
    (timer s) (aborted s) (controllers s) (timeouts s) (timeoutIds s) v
    (updates s) (fetches s) (dispatched s).

Definition with_updates (v : list (CustomEvent OptionValue))
  (s : State OptionValue)
  : State OptionValue :=
  mkState (_abortController s) (_inputEl s) (_clearEl s) (_open s)
    (_value s) (_options s) (_activeOptionIndex s) (ariaExpanded s)
    (timer s) (aborted s) (controllers s) (timeouts s) (timeoutIds s)
    (now s) v (fetches s) (dispatched s).

Definition with_fetches (v : list Fetch) (s : State OptionValue)
  : State OptionValue :=
  mkState (_abortController s) (_inputEl s) (_clearEl s) (_open s)
    (_value s) (_options s) (_activeOptionIndex s) (ariaExpanded s)
    (timer s) (aborted s) (controllers s) (timeouts s) (timeoutIds s)
    (now s) (updates s) v (dispatched s).

Definition with_dispatched (v : list (CustomEvent OptionValue))
  (s : State OptionValue)
  : State OptionValue :=
  mkState (_abortController s) (_inputEl s) (_clearEl s) (_open s)
    (_value s) (_options s) (_activeOptionIndex s) (ariaExpanded s)
    (timer s) (aborted s) (controllers s) (timeouts s) (timeoutIds s)
    (now s) (updates s) (fetches s) v.

(** ** Property setters *)

(** [set open(val)] *)
Definition set_open (val : bool) (s : State OptionValue) : State OptionValue :=
  let o := val && nonempty (_options s) in
  let s := with_open o s in
  let s := if negb o then with_activeOptionIndex (-1) s else s in
  with_ariaExpanded o s.

(** [set options(val)]: [filter(Boolean)] keeps the entries that are not
    [undefined]. *)
Definition set_options (val : list (option (ZAutocompleteOption OptionValue)))
  (s : State OptionValue)
  : State OptionValue :=
  set_open (nonempty val) (with_options (omap id val) s).

(** [this.value || this._inputEl.value] *)
Definition truthy_value (v : option OptionValue) : bool :=
  match v with Some x => truthy x | None => false end.

Definition _updateClearElVisibility (s : State OptionValue)
  : State OptionValue :=
  match _clearEl s with
  | Some _ =>
      with_clearEl
        (Some (negb (truthy_value (_value s) || truthy_string (_inputEl s)))) s
  | None => s
  end.

(** The text the value setter puts in the field for [dataToOption(val)]. *)
Definition fieldText (option : option (ZAutocompleteOption OptionValue)) : string :=
  let ofLabel o :=
    match label o with
    | LabelText text => text
    | LabelElement textContent => default EmptyString textContent
    end in
  match option with
  | None => EmptyString
  | Some o =>
      match inputValue o with
      | Some text => if truthy_string text then text else ofLabel o
      | None => ofLabel o
      end
  end.

(** [set value(val)], up to [updateComplete.then]: the event is dispatched
    and the callback is left waiting. *)
Definition set_value (val : option OptionValue) (s : State OptionValue)
  : State OptionValue :=
  let autocompleteEvt := mkEvent val (hostPrevents val) in
  let s := with_dispatched (dispatched s ++ [autocompleteEvt]) s in
  with_updates (updates s ++ [autocompleteEvt]) s.

(** The callback [set value] passes to [updateComplete.then]. *)
Definition value_updated (autocompleteEvt : CustomEvent OptionValue)
  (s : State OptionValue)
  : State OptionValue :=
  let s :=
    if negb (defaultPrevented autocompleteEvt) then
      let s := with_value (detail autocompleteEvt) s in
      with_inputEl (fieldText (dataToOption (detail autocompleteEvt))) s
    else
      let s := with_value None s in
      with_inputEl EmptyString s in
  let s := set_options [] s in
  _updateClearElVisibility s.

(** The callbacks waiting on [updateComplete] run, oldest first, when the
    running task ends. *)
Definition flush (s : State OptionValue) : State OptionValue :=
  foldl (fun acc evt => value_updated evt acc) (with_updates [] s) (updates s).

(** ** Abort controllers and the debounce closure *)

(** [controller.abort(reason)]: the first abort of a signal sets its reason,
    later ones change nothing. *)
Definition abort (reason : string) (s : State OptionValue)
  : State OptionValue :=
  match _abortController s with
  | Some c =>
      match aborted s !! c with
      | Some _ => s
      | None => with_aborted (<[c := reason]> (aborted s)) s
      end
  | None => s
  end.

Definition is_aborted (c : nat) (s : State OptionValue) : bool :=
  bool_decide (is_Some (aborted s !! c)).

(** [this._abortController = new AbortController()] *)
Definition newAbortController (s : State OptionValue) : State OptionValue :=
  let s := with_abortController (Some (controllers s)) s in
  with_controllers (S (controllers s)) s.

(** [clearTimeout(timer)] *)
Definition clearTimeout (s : State OptionValue) : State OptionValue :=
  match timer s with
  | Some id => with_timeouts (filter (fun t => t.1 <> id) (timeouts s)) s
  | None => s
  end.

(** [timer = setTimeout(..., delay)] *)
Definition setTimeout (delay : nat) (s : State OptionValue)
  : State OptionValue :=
  let id := timeoutIds s in
  let s := with_timeouts (timeouts s ++ [(id, (now s + delay)%nat)]) s in
  let s := with_timeoutIds (S id) s in
  with_timer (Some id) s.

(** The function [debounce(cb, delay)] returns; [cb] is [_onInputChange]. *)
Definition debounce (delay : nat) (s : State OptionValue) : State OptionValue :=
  setTimeout delay (clearTimeout s).

(** ** Methods *)

(** [_onInputChange], up to its [await]: [fetchData] is called with the
    field's text and the current signal. *)
Definition _onInputChange (s : State OptionValue) : State OptionValue :=
  with_fetches
    (fetches s ++ [mkFetch (_inputEl s) (_abortController s) false]) s.

(** [_onInputChange], after its [await], for the [data] the promise of the
    call [i] resolved with. *)
Definition resolved (i : nat) (data : list OptionValue) (s : State OptionValue)
  : State OptionValue :=
  match fetches s !! i with
  | Some f =>
      if settled f then s
      else
        let s :=
          with_fetches (<[i := mkFetch (query f) (signal f) true]> (fetches s)) s
        in set_options (map (fun d => dataToOption (Some d)) data) s
  | None => s
  end.

(** The promise of the call [i] rejects: the [await] throws and the rest of
    [_onInputChange] does not run. *)
Definition rejected (i : nat) (s : State OptionValue) : State OptionValue :=
  match fetches s !! i with
  | Some f =>
      if settled f then s
      else with_fetches (<[i := mkFetch (query f) (signal f) true]> (fetches s)) s
  | None => s
  end.

Definition _onClear (s : State OptionValue) : State OptionValue :=
  let s := abort "ZAutocomplete [data-z-autocomplete-input] has been cleared." s in
  set_value None s.

Definition _onInput (s : State OptionValue) : State OptionValue :=
  let s := set_options [] s in
  if negb (truthy_string (_inputEl s)) then _onClear s
  else
    let s := abort "ZAutocomplete : A new search has been performed" s in
    let s := newAbortController s in
    let s := debounce debouceDelay s in
    _updateClearElVisibility s.

Definition _selectOption (option : option (ZAutocompleteOption OptionValue))
  (s : State OptionValue)
  : State OptionValue :=
  match option with
  | None => s
  | Some o => if disabled o then s else set_value (value o) s
  end.

(** [_navigateToOption] calls itself; [fuel] bounds the depth of the calls
    and [None] is a call that did not return within it (or that read
    [disabled] of [undefined], which the guards before it exclude). *)
Fixpoint _navigateToOption_rec (fuel : nat) (newIndex : Z) (s : State OptionValue)
  : option (State OptionValue) :=
  match fuel with
  | O => None
  | S fuel =>
      if newIndex <? 0 then Some s
      else if newIndex =? _activeOptionIndex s then Some s
      else if newIndex >? Z.of_nat (length (_options s)) - 1 then Some s
      else
        match _options s !! Z.to_nat newIndex with
        | None => None
        | Some o =>
            if disabled o then
              let offset := newIndex - _activeOptionIndex s in
              let offset := if offset >? 0 then offset + 1 else offset - 1 in
              _navigateToOption_rec fuel (_activeOptionIndex s + offset) s
            else Some (with_activeOptionIndex newIndex s)
        end
  end.

(** One more call than there are options is deep enough
    ([_navigateToOption_returns] below). *)
Definition _navigateToOption (newIndex : Z) (s : State OptionValue)
  : State OptionValue :=
  default s (_navigateToOption_rec (S (length (_options s))) newIndex s).

Definition _handleClickOutside (contains : bool) (s : State OptionValue)
  : State OptionValue :=
  set_open contains s.

Definition _onKeydown (key : Key) (s : State OptionValue) : State OptionValue :=
  if negb (nonempty (_options s)) || negb (_open s) then s
  else
    match key with
    | ArrowDown => _navigateToOption (_activeOptionIndex s + 1) s
    | ArrowUp => _navigateToOption (_activeOptionIndex s - 1) s
    | Enter => _selectOption (at_index (_options s) (_activeOptionIndex s)) s
    | Escape => set_open false s
    | OtherKey => s
    end.

Definition disconnectedCallback (s : State OptionValue) : State OptionValue :=
  abort "ZAutocomplete is beeing destroyed" s.

(** The element once [connectedCallback] has run, over a field holding
    [text], with or without a clear control. *)
Definition connected (text : string) (clearEl : bool) : State OptionValue :=
  let s :=
    mkState None text (if clearEl then Some false else None) false None []
      (-1) false None ∅ 0%nat [] 0%nat 0%nat [] [] [] in
  if clearEl then _updateClearElVisibility s else s.

(** ** The event loop *)

(** A unit of time passes: the timeouts now due fire. *)
Definition tick (s : State OptionValue) : State OptionValue :=
  let s := with_now (S (now s)) s in
  let due := filter (fun t => (t.2 <= now s)%nat) (timeouts s) in
  let s := with_timeouts (filter (fun t => (now s < t.2)%nat) (timeouts s)) s in
  foldl (fun acc _ => _onInputChange acc) s due.

Definition handle (e : Event OptionValue) (s : State OptionValue)
  : State OptionValue :=
  match e with
  | Input text => _onInput (with_inputEl text s)
  | ClearClick => _onClear s
  | Keydown key => _onKeydown key s
  | DocumentClick contains => _handleClickOutside contains s
  | OptionClick index => _selectOption (_options s !! index) s
  | AssignValue val => set_value val s
  | AssignOptions val => set_options val s
  | Tick => tick s
  | Resolve i data => resolved i data s
  | Reject i => rejected i s
  | Disconnect => disconnectedCallback s
  end.

(** One task of the event loop: the handler, then the waiting callbacks. *)
Definition step (s : State OptionValue) (e : Event OptionValue)
  : State OptionValue :=
  flush (handle e s).

Definition run (s : State OptionValue) (es : list (Event OptionValue))
  : State OptionValue :=
  foldl step s es.

(** [n] units of time pass with no other event. *)
Definition advance (n : nat) (s : State OptionValue) : State OptionValue :=
  run s (replicate n Tick).

(** The states the element can be in between two tasks. *)
Definition reachable (s : State OptionValue) : Prop :=
  exists text clearEl es, s = run (connected text clearEl) es.

(** ** Predicates on states *)

(** No option that is not disabled lies in the direction of travel: from
    [newIndex] to the end of the list when [newIndex] is after the active
    index, from [newIndex] back to the start otherwise. *)
Definition no_enabled_ahead (newIndex : Z) (s : State OptionValue) : Prop :=
  forall i o,
    (if decide (_activeOptionIndex s < newIndex) then newIndex <= i
     else i <= newIndex) ->
    at_index (_options s) i = Some o -> disabled o = true.

(** Everything of the browser's side but the callbacks waiting on
    [updateComplete], and the two fields that name a controller and a
    timeout. *)
Definition same_environment (s s' : State OptionValue) : Prop :=
  _abortController s' = _abortController s /\ timer s' = timer s /\
  aborted s' = aborted s /\ controllers s' = controllers s /\
  timeouts s' = timeouts s /\ timeoutIds s' = timeoutIds s /\
  now s' = now s /\ fetches s' = fetches s /\ dispatched s' = dispatched s.

(** The fields the bookkeeping of fetches reads and writes. *)
Definition coordination (s : State OptionValue) :=
  (_abortController s, timer s, aborted s, controllers s, timeouts s, fetches s).

(** The call [i] of [fetchData] is [f] and its promise has not settled. *)
Definition pending (s : State OptionValue) (i : nat) (f : Fetch) : Prop :=
  fetches s !! i = Some f /\ settled f = false.

(** What holds of the bookkeeping in every state the element reaches
    ([reachable_coordinated] below): a pending fetch was given a signal, and
    that signal is aborted or is the current one; a pending trigger finds a
    controller; controllers in use have been created; while a trigger is
    pending no fetch has been given the current signal yet; at most one
    trigger is pending, the one the debounce closure remembers. *)
Record coordinated (s : State OptionValue) : Prop := mkCoordinated {
  signal_tracked : forall i f, pending s i f ->
    exists c, signal f = Some c /\
      (is_Some (aborted s !! c) \/ _abortController s = Some c);
  trigger_has_controller : timeouts s <> [] -> is_Some (_abortController s);
  controller_created : forall c, _abortController s = Some c -> (c < controllers s)%nat;
  signal_created : forall f c,
    f ∈ fetches s -> signal f = Some c -> (c < controllers s)%nat;
  controller_unused : timeouts s <> [] ->
    forall f, f ∈ fetches s -> signal f <> _abortController s;
  one_trigger : timeouts s = [] \/
    exists id due, timeouts s = [(id, due)] /\ timer s = Some id
}.

(** The active index is "none" or the index of an option that is not
    disabled. *)
Definition active_valid (s : State OptionValue) : bool :=
  (_activeOptionIndex s =? -1) ||
  match at_index (_options s) (_activeOptionIndex s) with
  | Some o => negb (disabled o)
  | None => false
  end.

(** Keystrokes: each an input event that leaves [text] in the field, [gap]
    units of time after the event before it. *)
Definition typing (keystrokes : list (nat * string)) : list (Event OptionValue) :=
  flat_map (fun k => replicate k.1 Tick ++ [Input k.2]) keystrokes.

(** The debounce closure is armed: one trigger is pending, due a full delay
    from now, the field holds [text], [calls] are the calls of [fetchData]
    made so far, and no callback is waiting. *)
Definition armed (text : string) (calls : list Fetch) (s : State OptionValue)
  : Prop :=
  updates s = [] /\
  (exists id, timeouts s = [(id, (now s + debouceDelay)%nat)] /\ timer s = Some id) /\
  _inputEl s = text /\ fetches s = calls.

(** ** Views of a state *)

(** What the user sees of the element: the field, the clear control, the
    list and its highlight. *)
Definition element (s : State OptionValue) :=
  (_inputEl s, _clearEl s, _open s, _value s, _options s, _activeOptionIndex s,
   ariaExpanded s).

(** The list is expanded to assistive technology exactly when it is open; an
    open list has options; a closed list has no active option; the active
    index is "none" or a natural number. *)
Definition display_ok (s : State OptionValue) : Prop :=
  ariaExpanded s = _open s /\
  (_open s = true -> _options s <> []) /\
  (_open s = false -> _activeOptionIndex s = -1) /\
  -1 <= _activeOptionIndex s.

(** The clear control, when there is one, is hidden exactly when there is
    neither a truthy committed value nor text in the field. *)
Definition clear_control_ok (s : State OptionValue) : Prop :=
  forall hidden, _clearEl s = Some hidden ->
    hidden = negb (truthy_value (_value s) || truthy_string (_inputEl s)).

(** The debounce trigger and the clock. *)
Definition trigger (s : State OptionValue) :=
  (timer s, timeouts s, timeoutIds s, now s).

(** What the host has been told: the events dispatched, and the callbacks
    still to run. *)
Definition notified (s : State OptionValue) := (dispatched s, updates s).

(** The events whose handler can assign to [value]. *)
Definition assigns (e : Event OptionValue) : bool :=
  match e with
  | Input text => negb (truthy_string text)
  | ClearClick | Keydown Enter | OptionClick _ | AssignValue _ => true
  | _ => false
  end.

(** The events whose handler assigns a list to [options] that the host or a
    fetch supplies. *)
Definition lists (e : Event OptionValue) : bool :=
  match e with
  | Resolve _ _ | AssignOptions _ => true
  | _ => false
  end.

(** The events that arm or fire the trigger: text typed, time passing. *)
Definition schedules (e : Event OptionValue) : bool :=
  match e with
  | Input text => truthy_string text
  | Tick => true
  | _ => false
  end.

(** At most one trigger is pending, the one the debounce closure remembers,
    and it is due no earlier than now and no later than a full delay from
    now. *)
Definition trigger_ok (s : State OptionValue) : Prop :=
  timeouts s = [] \/
  exists id due, timeouts s = [(id, due)] /\ timer s = Some id /\
    (now s <= due <= now s + debouceDelay)%nat.

(** The signal given to a call of [fetchData] is not aborted. *)
Definition live (s : State OptionValue) (f : Fetch) : Prop :=
  forall c, signal f = Some c -> is_aborted c s = false.


(** ** Clicks *)

(** A click on the item [index] as the browser delivers it: the listener of
    the item runs, then, the click bubbling up to the document, the listener
    the element has put there, which finds the target inside the element;
    the callbacks waiting on [updateComplete] run after each listener. *)
Definition click_item (index : nat) (s : State OptionValue) : State OptionValue :=
  step (step s (OptionClick index)) (DocumentClick true).

(** ** Rendering *)

(** The white space of ASCII, which is all the white space a [part] can
    hold. *)
Definition isSpace (a : ascii) : bool :=
  existsb (Ascii.eqb a) [" "; "009"; "010"; "011"; "012"; "013"]%char.

Fixpoint trimStart (str : string) : string :=
  match str with
  | String a rest => if isSpace a then trimStart rest else str
  | EmptyString => EmptyString
  end.

(** [str.trim()] *)
Definition trim (str : string) : string :=
  String.rev (trimStart (String.rev (trimStart str))).

(** One [li] of the rendered list: its attributes, its content, and the
    option its click listener calls [_selectOption] with. *)
Record ListItem := mkListItem {
  part : string;
  dataIndex : nat;
  ariaSelected : bool;
  ariaDisabled : bool;
  onClick : ZAutocompleteOption OptionValue;
  content : Label
}.

Definition _renderOption (option : ZAutocompleteOption OptionValue) (index : nat)
  (s : State OptionValue)
  : ListItem :=
  let partsMap :=
    [("options-item", true);
     ("options-item--active", Z.of_nat index =? _activeOptionIndex s);
     ("options-item--disabled", disabled option)] in
  let parts :=
    trim
      (foldl (fun acc '(part, add) => if add : bool then acc +:+ " " +:+ part else acc)
         EmptyString partsMap) in
  mkListItem parts index (Z.of_nat index =? _activeOptionIndex s)
    (disabled option) option (label option).

(** [render()]: whether the [ul] is hidden, and its items. *)
Definition render (s : State OptionValue) : bool * list ListItem :=
  (negb (_open s), imap (fun index option => _renderOption option index s) (_options s)).

(** ** What the class gives a host that supplies nothing *)

(** [dataToOption] of the class; [toString] is [String(data)]. *)
Definition ZAutocomplete_dataToOption (toString : OptionValue -> string)
  (data : option OptionValue)
  : option (ZAutocompleteOption OptionValue) :=
  match data with
  | None => None
  | Some data => Some (mkOption (LabelText (toString data)) None (Some data) false)
  end.

(** [fetchData] of the class: what its promise resolves with. *)
Definition ZAutocomplete_fetchData (inputValue : string) (abortSignal : option nat)
  : list OptionValue :=
  [].

End Model.

(** ** The light-DOM version

    The element as it was before it had a shadow root.  [value] is committed
    within the assignment and its event cannot be cancelled; the active
    index is reset by [_clearOptions] alone; the [dataToOption] of the class
    makes an option of [undefined] too.  What is the same in both versions
    is taken from the model above: [_updateClearElVisibility], the text
    [value] puts in the field, [_navigateToOption] as far as the state goes,
    the abort controllers, the debounce closure and [_onInputChange].  The
    attributes of the [li] elements are not part of the state. *)
Module LightDom.

Section Model.

Context {OptionValue : Type} {theHost : Host OptionValue}.

(** [set open(val)]; [_open] is [!this._optionsEl.hidden]. *)
Definition set_open (val : bool) (s : State OptionValue) : State OptionValue :=
  let hidden := negb val || negb (nonempty (_options s)) in
  let s := with_open (negb hidden) s in
  with_ariaExpanded (negb hidden) s.

Definition set_options (val : list (option (ZAutocompleteOption OptionValue)))
  (s : State OptionValue)
  : State OptionValue :=
  set_open (nonempty val) (with_options (omap id val) s).

Definition _clearOptions (s : State OptionValue) : State OptionValue :=
  let s := set_options [] s in
  let s := set_open false s in
  with_activeOptionIndex (-1) s.

(** [set value(val)]: the event is not cancelable, so that no listener can
    set [defaultPrevented]. *)
Definition set_value (val : option OptionValue) (s : State OptionValue)
  : State OptionValue :=
  let s := with_value val s in
  let s := with_inputEl (fieldText (dataToOption val)) s in
  let s := _clearOptions s in
  let s := _updateClearElVisibility s in
  with_dispatched (dispatched s ++ [mkEvent val false]) s.

Definition _onClear (s : State OptionValue) : State OptionValue :=
  let s := abort "ZAutocomplete [data-z-autocomplete-input] has been cleared." s in
  set_value None s.

Definition _onInput (s : State OptionValue) : State OptionValue :=
  let s := _clearOptions s in
  if negb (truthy_string (_inputEl s)) then _onClear s
  else
    let s := abort "ZAutocomplete : A new search has been performed" s in
    let s := newAbortController s in
    let s := debounce debouceDelay s in
    _updateClearElVisibility s.

(** [_onInputChange], after its [await]. *)
Definition resolved (i : nat) (data : list OptionValue) (s : State OptionValue)
  : State OptionValue :=
  match fetches s !! i with
  | Some f =>
      if settled f then s
      else
        let s :=
          with_fetches (<[i := mkFetch (query f) (signal f) true]> (fetches s)) s
        in set_options (map (fun d => dataToOption (Some d)) data) s
  | None => s
  end.

Definition _selectOption (option : option (ZAutocompleteOption OptionValue))
  (s : State OptionValue)
  : State OptionValue :=
  match option with
  | None => s
  | Some o => if disabled o then s else set_value (value o) s
  end.

Definition _handleClickOutside (contains : bool) (s : State OptionValue)
  : State OptionValue :=
  set_open contains s.

Definition _onKeydown (key : Key) (s : State OptionValue) : State OptionValue :=
  if negb (nonempty (_options s)) || negb (_open s) then s
  else
    match key with
    | ArrowDown => _navigateToOption (_activeOptionIndex s + 1) s
    | ArrowUp => _navigateToOption (_activeOptionIndex s - 1) s
    | Enter => _selectOption (at_index (_options s) (_activeOptionIndex s)) s
    | Escape | OtherKey => s
    end.

(** [dataToOption] of the class; [toString] is [String(data)] for a [data]
    that is not [undefined]. *)
Definition ZAutocomplete_dataToOption (toString : OptionValue -> string)
  (data : option OptionValue)
  : option (ZAutocompleteOption OptionValue) :=
  Some
    (mkOption
       (LabelText (match data with Some d => toString d | None => "undefined" end))
       None data false).

(** One task of the event loop: nothing waits on [updateComplete]. *)
Definition handle (e : Event OptionValue) (s : State OptionValue)
  : State OptionValue :=
  match e with
  | Input text => _onInput (with_inputEl text s)
  | ClearClick => _onClear s
  | Keydown key => _onKeydown key s
  | DocumentClick contains => _handleClickOutside contains s
  | OptionClick index => _selectOption (_options s !! index) s
  | AssignValue val => set_value val s
  | AssignOptions val => set_options val s
  | Tick => tick s
  | Resolve i data => resolved i data s
  | Reject i => rejected i s
  | Disconnect => disconnectedCallback s
  end.

Definition run (s : State OptionValue) (es : list (Event OptionValue))
  : State OptionValue :=
  foldl (fun s e => handle e s) s es.

(** [aria-expanded] tells whether the list is shown, and a list that is
    shown has options. *)
Definition display_ok (s : State OptionValue) : Prop :=
  ariaExpanded s = _open s /\ (_open s = true -> _options s <> []).

(** The states the element can be in between two tasks; [connectedCallback]
    leaves this version in the state it leaves the other in. *)
Definition reachable (s : State OptionValue) : Prop :=
  exists text clearEl es, s = run (connected text clearEl) es.

End Model.

(** The class with nothing overridden, on numbers: its own [dataToOption],
    no listener, the delay it declares. *)
Definition host : Host nat := {|
  truthy v := negb (Nat.eqb v 0);
  dataToOption := ZAutocomplete_dataToOption pretty;
  hostPrevents detail := false;
  debouceDelay := 300
|}.

End LightDom.

(** ** The first version: cyclic navigation

    [src/unnamed/part_000], where the active index is a number or
    [undefined] and no option is disabled. *)
Module FirstVersion.

(** [clamp(nb, { min, max })] on integers: [Number(nb) || min] is [min] when
    [nb] is 0. *)
Definition clamp (nb min max : Z) : Z :=
  Z.max min (Z.min (if nb =? 0 then min else nb) max).

(** [_navigateToNextOption(offset)]: the new active index, from the old one
    and the number of options. *)
Definition _navigateToNextOption (offset : Z) (_activeOptionIndex : option Z)
  (length : nat)
  : option Z :=
  let newIndex := default (-1) _activeOptionIndex in
  let newIndex := newIndex + offset in
  let newIndex := clamp newIndex 0 (Z.of_nat length - 1) in
  if decide (Some newIndex = _activeOptionIndex) then None else Some newIndex.

End FirstVersion.

(** ** The demo page

    [src/demo.ts]: the items, the [fetchData] and [dataToOption] the page
    gives its element, and its listener.  The delay of the debounce closure
    is set in the page's markup, and is left open here. *)
Module DemoPage.

Record OptionItem := mkOptionItem {
  id : nat;
  name : string
}.

Definition AUTOCOMPLETE_DATA : list OptionItem :=
  [mkOptionItem 1 "Option1"; mkOptionItem 2 "Option2"; mkOptionItem 3 "Option3";
   mkOptionItem 4 "Option4"; mkOptionItem 5 "Option5 (preventDefault)";
   mkOptionItem 6 "Option6"; mkOptionItem 7 "Option7"; mkOptionItem 8 "Option8";
   mkOptionItem 9 "Option9"; mkOptionItem 10 "Option10";
   mkOptionItem 11 "Option11"; mkOptionItem 12 "Option12"].

(** [[1, 4, 7].includes(data.id)] *)
Definition isTitle (data : OptionItem) : bool :=
  bool_decide (id data ∈ [1; 4; 7]%nat).

(** An item is an object, and so truthy; the listener cancels the event
    whose detail has [id] 5. *)
#[export] Instance host (delay : nat) : Host OptionItem := {
  truthy data := true;
  dataToOption data :=
    match data with
    | None => None
    | Some data =>
        Some
          (mkOption
             (if isTitle data then LabelElement (Some (name data))
              else LabelText (name data))
             (Some (name data)) (Some data) (isTitle data))
    end;
  hostPrevents detail :=
    match detail with Some data => Nat.eqb (id data) 5 | None => false end;
  debouceDelay := delay
}.

(** [abortSignal?.aborted], read when the second of waiting is over. *)
Definition signal_aborted (f : Fetch) (s : State OptionItem) : bool :=
  match signal f with
  | Some c => is_aborted c s
  | None => false
  end.

(** What the promise of the call [f] of [fetchData] resolves with, [s] being
    the state when the second of waiting is over. *)
Definition fetchData (f : Fetch) (s : State OptionItem) : list OptionItem :=
  if signal_aborted f s then [] else AUTOCOMPLETE_DATA.

End DemoPage.

(** ** A host

    The host of the demo page, on numbers: [dataToOption] is the default of
    the class ([String(data)] as label, no [inputValue], not disabled, and
    [undefined] for [undefined]), truthiness is that of JavaScript numbers,
    and the listener cancels the value [5]. *)
Module Demo.

#[export] Instance host : Host nat := {
  truthy v := negb (Nat.eqb v 0);
  dataToOption data :=
    match data with
    | None => None
    | Some n => Some (mkOption (LabelText (pretty n)) None (Some n) false)
    end;
  hostPrevents detail := match detail with Some 5%nat => true | _ => false end;
  debouceDelay := 3
}.

(** A title of the demo page: a disabled option. *)
Definition title (n : nat) : ZAutocompleteOption nat :=
  mkOption (LabelElement (Some (pretty n))) None (Some n) true.

Definition item (n : nat) : ZAutocompleteOption nat :=
  mkOption (LabelText (pretty n)) None (Some n) false.

(** The element of the page once connected, its field empty. *)
Definition start : State nat := connected EmptyString true.

End Demo.

Section Properties.

Context {OptionValue : Type} {theHost : Host OptionValue}.

(** ** Navigation: the recursion of [_navigateToOption] *)

Lemma at_index_lookup (l : list (ZAutocompleteOption OptionValue)) (i : Z) :
  0 <= i -> at_index l i = l !! Z.to_nat i.
Proof. intros Hi. unfold at_index. destruct (Z.ltb_spec i 0); [lia | done]. Qed.

Lemma lookup_in_range (l : list (ZAutocompleteOption OptionValue)) (i : Z) :
  0 <= i -> i <= Z.of_nat (length l) - 1 -> is_Some (l !! Z.to_nat i).
Proof. intros H0 H1. apply lookup_lt_is_Some. lia. Qed.

(** The retargeting arithmetic: the next target is one step further from
    the active index. *)
Lemma retarget_forward (active newIndex : Z) :
  active < newIndex ->
  active + (if newIndex - active >? 0 then newIndex - active + 1
            else newIndex - active - 1) = newIndex + 1.
Proof. intros H. rewrite Z.gtb_ltb. destruct (Z.ltb_spec 0 (newIndex - active)); lia. Qed.

Lemma retarget_backward (active newIndex : Z) :
  newIndex < active ->
  active + (if newIndex - active >? 0 then newIndex - active + 1
            else newIndex - active - 1) = newIndex - 1.
Proof. intros H. rewrite Z.gtb_ltb. destruct (Z.ltb_spec 0 (newIndex - active)); lia. Qed.

(** The three guards and the test of the option, for a target after the
    active index. *)
Lemma nav_step_forward fuel newIndex (s : State OptionValue) :
  _activeOptionIndex s < newIndex ->
  _navigateToOption_rec (S fuel) newIndex s =
    if newIndex <? 0 then Some s
    else if newIndex >? Z.of_nat (length (_options s)) - 1 then Some s
    else match _options s !! Z.to_nat newIndex with
         | None => None
         | Some o =>
             if disabled o then _navigateToOption_rec fuel (newIndex + 1) s
             else Some (with_activeOptionIndex newIndex s)
         end.
Proof.
  intros Hlt. simpl.
  destruct (newIndex <? 0); [done |].
  destruct (Z.eqb_spec newIndex (_activeOptionIndex s)); [lia |].
  destruct (newIndex >? _); [done |].
  destruct (_options s !! Z.to_nat newIndex) as [o |]; [| done].
  destruct (disabled o); [| done].
  by rewrite retarget_forward.
Qed.

Lemma nav_step_backward fuel newIndex (s : State OptionValue) :
  newIndex < _activeOptionIndex s ->
  _navigateToOption_rec (S fuel) newIndex s =
    if newIndex <? 0 then Some s
    else if newIndex >? Z.of_nat (length (_options s)) - 1 then Some s
    else match _options s !! Z.to_nat newIndex with
         | None => None
         | Some o =>
             if disabled o then _navigateToOption_rec fuel (newIndex - 1) s
             else Some (with_activeOptionIndex newIndex s)
         end.
Proof.
  intros Hlt. simpl.
  destruct (newIndex <? 0); [done |].
  destruct (Z.eqb_spec newIndex (_activeOptionIndex s)); [lia |].
  destruct (newIndex >? _); [done |].
  destruct (_options s !! Z.to_nat newIndex) as [o |]; [| done].
  destruct (disabled o); [| done].
  by rewrite retarget_backward.
Qed.

(** A call returns within [length - newIndex + 1] calls going forward and
    [newIndex + 2] going backward. *)
Lemma nav_forward_returns fuel : forall newIndex (s : State OptionValue),
  _activeOptionIndex s < newIndex ->
  (0 < fuel)%nat -> Z.of_nat (length (_options s)) - newIndex < Z.of_nat fuel ->
  is_Some (_navigateToOption_rec fuel newIndex s).
Proof.
  induction fuel as [| fuel IH]; intros newIndex s Hlt Hpos Hfuel; [lia |].
  rewrite nav_step_forward by done.
  destruct (Z.ltb_spec newIndex 0); [done |].
  rewrite Z.gtb_ltb.
  destruct (Z.ltb_spec (Z.of_nat (length (_options s)) - 1) newIndex); [done |].
  destruct (lookup_in_range (_options s) newIndex) as [o ->]; [lia .. |].
  destruct (disabled o); [| done].
  apply IH; lia.
Qed.

Lemma nav_backward_returns fuel : forall newIndex (s : State OptionValue),
  newIndex < _activeOptionIndex s ->
  (0 < fuel)%nat -> newIndex + 1 < Z.of_nat fuel ->
  is_Some (_navigateToOption_rec fuel newIndex s).
Proof.
  induction fuel as [| fuel IH]; intros newIndex s Hlt Hpos Hfuel; [lia |].
  rewrite nav_step_backward by done.
  destruct (Z.ltb_spec newIndex 0); [done |].
  rewrite Z.gtb_ltb.
  destruct (Z.ltb_spec (Z.of_nat (length (_options s)) - 1) newIndex); [done |].
  destruct (lookup_in_range (_options s) newIndex) as [o ->]; [lia .. |].
  destruct (disabled o); [| done].
  apply IH; lia.
Qed.

(** More fuel does not change the result of a call that returned. *)
Lemma nav_fuel_mono fuel : forall fuel' newIndex (s s' : State OptionValue),
  (fuel <= fuel')%nat ->
  _navigateToOption_rec fuel newIndex s = Some s' ->
  _navigateToOption_rec fuel' newIndex s = Some s'.
Proof.
  induction fuel as [| fuel IH]; intros fuel' newIndex s s' Hle H; [done |].
  destruct fuel' as [| fuel']; [lia |].
  simpl in *.
  destruct (newIndex <? 0); [done |].
  destruct (newIndex =? _activeOptionIndex s); [done |].
  destruct (newIndex >? _); [done |].
  destruct (_options s !! Z.to_nat newIndex) as [o |]; [| done].
  destruct (disabled o); [| done].
  apply IH; [lia | done].
Qed.

(** [_navigateToOption] returns: one more call than there are options is
    always deep enough. *)
Lemma _navigateToOption_returns newIndex (s : State OptionValue) :
  is_Some (_navigateToOption_rec (S (length (_options s))) newIndex s).
Proof.
  destruct (Z.lt_trichotomy newIndex (_activeOptionIndex s)) as [Hlt | [Heq | Hgt]].
  - destruct (Z.ltb_spec newIndex 0) as [Hneg | Hnn].
    { simpl. by destruct (Z.ltb_spec newIndex 0); [| lia]. }
    destruct (Z.ltb_spec (Z.of_nat (length (_options s)) - 1) newIndex) as [Hout | Hin].
    { rewrite nav_step_backward by done.
      destruct (newIndex <? 0); [done |]. rewrite Z.gtb_ltb.
      by destruct (Z.ltb_spec (Z.of_nat (length (_options s)) - 1) newIndex); [| lia]. }
    apply nav_backward_returns; lia.
  - simpl. destruct (newIndex <? 0); [done |].
    by destruct (Z.eqb_spec newIndex (_activeOptionIndex s)).
  - destruct (Z.ltb_spec newIndex 0) as [Hneg | Hnn].
    { simpl. by destruct (Z.ltb_spec newIndex 0); [| lia]. }
    apply nav_forward_returns; lia.
Qed.

Lemma _navigateToOption_unfold newIndex (s s' : State OptionValue) :
  _navigateToOption_rec (S (length (_options s))) newIndex s = Some s' ->
  _navigateToOption newIndex s = s'.
Proof. intros H. unfold _navigateToOption. by rewrite H. Qed.

(** Going forward over a run of disabled options [newIndex .. k-1] that ends
    at an option [k] that is not disabled: the call lands on [k]. *)
Lemma nav_forward_lands fuel : forall newIndex (s : State OptionValue) k,
  _activeOptionIndex s < newIndex -> 0 <= newIndex <= k ->
  (forall i, newIndex <= i < k ->
     exists o, _options s !! Z.to_nat i = Some o /\ disabled o = true) ->
  (exists o, _options s !! Z.to_nat k = Some o /\ disabled o = false) ->
  k - newIndex < Z.of_nat fuel ->
  _navigateToOption_rec fuel newIndex s = Some (with_activeOptionIndex k s).
Proof.
  induction fuel as [| fuel IH]; intros newIndex s k Hlt Hk Hrun Hend Hfuel; [lia |].
  rewrite nav_step_forward by done.
  destruct Hend as (ok & Hok & Hen).
  assert (Z.to_nat k < length (_options s))%nat as Hlen
    by (apply lookup_lt_is_Some; eauto).
  destruct (Z.ltb_spec newIndex 0); [lia |].
  rewrite Z.gtb_ltb.
  destruct (Z.ltb_spec (Z.of_nat (length (_options s)) - 1) newIndex); [lia |].
  destruct (Z.eq_dec newIndex k) as [-> | Hne].
  - by rewrite Hok, Hen.
  - destruct (Hrun newIndex) as (o & -> & ->); [lia |].
    apply IH; [lia | lia | | eauto | lia].
    intros i Hi. apply Hrun. lia.
Qed.

(** Going forward with nothing but disabled options ahead: the calls run
    off the end of the list and nothing changes. *)
Lemma nav_forward_blocked fuel : forall newIndex (s : State OptionValue),
  _activeOptionIndex s < newIndex ->
  (0 < fuel)%nat -> Z.of_nat (length (_options s)) - newIndex < Z.of_nat fuel ->
  no_enabled_ahead newIndex s ->
  _navigateToOption_rec fuel newIndex s = Some s.
Proof.
  induction fuel as [| fuel IH]; intros newIndex s Hlt Hpos Hfuel Hblk; [lia |].
  rewrite nav_step_forward by done.
  destruct (Z.ltb_spec newIndex 0); [done |].
  rewrite Z.gtb_ltb.
  destruct (Z.ltb_spec (Z.of_nat (length (_options s)) - 1) newIndex); [done |].
  destruct (lookup_in_range (_options s) newIndex) as [o Ho]; [lia .. |].
  rewrite Ho.
  rewrite (Hblk newIndex o).
  - apply IH; [lia .. |].
    intros i o' Hi. apply Hblk.
    destruct (decide (_activeOptionIndex s < newIndex + 1)); [| lia].
    destruct (decide (_activeOptionIndex s < newIndex)); lia.
  - destruct (decide (_activeOptionIndex s < newIndex)); lia.
  - by rewrite at_index_lookup.
Qed.

Lemma nav_backward_blocked fuel : forall newIndex (s : State OptionValue),
  newIndex < _activeOptionIndex s ->
  (0 < fuel)%nat -> newIndex + 1 < Z.of_nat fuel ->
  no_enabled_ahead newIndex s ->
  _navigateToOption_rec fuel newIndex s = Some s.
Proof.
  induction fuel as [| fuel IH]; intros newIndex s Hlt Hpos Hfuel Hblk; [lia |].
  rewrite nav_step_backward by done.
  destruct (Z.ltb_spec newIndex 0); [done |].
  rewrite Z.gtb_ltb.
  destruct (Z.ltb_spec (Z.of_nat (length (_options s)) - 1) newIndex); [done |].
  destruct (lookup_in_range (_options s) newIndex) as [o Ho]; [lia .. |].
  rewrite Ho.
  rewrite (Hblk newIndex o).
  - apply IH; [lia .. |].
    intros i o' Hi. apply Hblk.
    destruct (decide (_activeOptionIndex s < newIndex - 1)); [lia |].
    destruct (decide (_activeOptionIndex s < newIndex)); lia.
  - destruct (decide (_activeOptionIndex s < newIndex)); lia.
  - by rewrite at_index_lookup.
Qed.

(** C3. In a list whose first [K] options are disabled and whose other
    options are not, with [0 < K < length], [_navigateToOption(0)] from the
    active index "none" (-1) sets the active index to [K], and so to none of
    [0 .. K-1]; nothing else of the state changes. *)
Theorem C3_navigate_skips_disabled_prefix (s : State OptionValue) (K : nat) :
  _activeOptionIndex s = -1 ->
  (0 < K < length (_options s))%nat ->
  (forall i o, _options s !! i = Some o -> disabled o = bool_decide (i < K)%nat) ->
  _navigateToOption 0 s = with_activeOptionIndex (Z.of_nat K) s /\
  _activeOptionIndex (_navigateToOption 0 s) = Z.of_nat K.
Proof.
  intros Hact HK Hdis.
  assert (_navigateToOption 0 s = with_activeOptionIndex (Z.of_nat K) s) as ->.
  { apply _navigateToOption_unfold.
    apply nav_forward_lands; [lia | lia | | | lia].
    - intros i Hi.
      destruct (lookup_lt_is_Some_2 (_options s) (Z.to_nat i)) as [o Ho]; [lia |].
      exists o. split; [done |].
      rewrite (Hdis _ _ Ho). apply bool_decide_eq_true. lia.
    - destruct (lookup_lt_is_Some_2 (_options s) K) as [o Ho]; [lia |].
      exists o. rewrite Nat2Z.id. split; [done |].
      rewrite (Hdis _ _ Ho). apply bool_decide_eq_false. lia. }
  done.
Qed.

(** C8. For every option list, active index and target, [_navigateToOption]
    returns: there is one final state that every depth of calls greater than
    the number of options reaches.  When no option that is not disabled lies
    in the direction of travel (as in a list whose options are all disabled)
    that state is the state before the call: the guards on the target stop
    the recursion and the active index is unchanged. *)
Theorem C8_navigate_terminates (newIndex : Z) (s : State OptionValue) :
  exists s',
    (forall fuel, (length (_options s) < fuel)%nat ->
       _navigateToOption_rec fuel newIndex s = Some s') /\
    _navigateToOption newIndex s = s' /\
    (no_enabled_ahead newIndex s ->
       s' = s /\ _activeOptionIndex s' = _activeOptionIndex s).
Proof.
  destruct (_navigateToOption_returns newIndex s) as [s' Hs'].
  exists s'. split; [| split].
  - intros fuel Hfuel. eapply nav_fuel_mono; [| done]. lia.
  - by apply _navigateToOption_unfold.
  - intros Hblk.
    enough (_navigateToOption_rec (S (length (_options s))) newIndex s = Some s)
      as Heq by (rewrite Heq in Hs'; by simplify_eq).
    destruct (Z.lt_trichotomy newIndex (_activeOptionIndex s)) as [Hlt | [Heq | Hgt]].
    + destruct (Z.ltb_spec newIndex 0) as [Hneg | Hnn].
      { simpl. by destruct (Z.ltb_spec newIndex 0); [| lia]. }
      destruct (Z.ltb_spec (Z.of_nat (length (_options s)) - 1) newIndex) as [Hout | Hin].
      { rewrite nav_step_backward by done.
        destruct (newIndex <? 0); [done |]. rewrite Z.gtb_ltb.
        by destruct (Z.ltb_spec (Z.of_nat (length (_options s)) - 1) newIndex); [| lia]. }
      apply nav_backward_blocked; [lia .. | done].
    + simpl. destruct (newIndex <? 0); [done |].
      by destruct (Z.eqb_spec newIndex (_activeOptionIndex s)).
    + destruct (Z.ltb_spec newIndex 0) as [Hneg | Hnn].
      { simpl. by destruct (Z.ltb_spec newIndex 0); [| lia]. }
      apply nav_forward_blocked; [lia .. | done].
Qed.

(** ** What the setters leave alone *)

Lemma same_environment_refl (s : State OptionValue) : same_environment s s.
Proof. by repeat split. Qed.

Lemma same_environment_trans (s1 s2 s3 : State OptionValue) :
  same_environment s1 s2 -> same_environment s2 s3 -> same_environment s1 s3.
Proof. unfold same_environment. intros H1 H2. destruct_and!. repeat split; congruence. Qed.

Lemma set_open_environment val (s : State OptionValue) : same_environment s (set_open val s).
Proof. unfold set_open. by destruct (negb _); repeat split. Qed.

Lemma set_options_environment val (s : State OptionValue) : same_environment s (set_options val s).
Proof.
  unfold set_options.
  eapply same_environment_trans; [| apply set_open_environment].
  by repeat split.
Qed.

Lemma _updateClearElVisibility_environment (s : State OptionValue) :
  same_environment s (_updateClearElVisibility s).
Proof. unfold _updateClearElVisibility. by destruct (_clearEl s); repeat split. Qed.

Lemma value_updated_environment evt (s : State OptionValue) : same_environment s (value_updated evt s).
Proof.
  unfold value_updated.
  eapply same_environment_trans; [| apply _updateClearElVisibility_environment].
  eapply same_environment_trans; [| apply set_options_environment].
  by destruct (negb _); repeat split.
Qed.

Lemma run_updates_environment evts : forall s : State OptionValue,
  same_environment s (foldl (fun acc evt => value_updated evt acc) s evts).
Proof.
  induction evts as [| evt evts IH]; intros s; simpl.
  - apply same_environment_refl.
  - eapply same_environment_trans; [apply value_updated_environment | apply IH].
Qed.

Lemma flush_environment (s : State OptionValue) : same_environment s (flush s).
Proof.
  unfold flush.
  eapply same_environment_trans; [| apply run_updates_environment].
  by repeat split.
Qed.

(** No callback leaves another one waiting: after [flush] none is. *)
Lemma set_open_updates val (s : State OptionValue) : updates (set_open val s) = updates s.
Proof. unfold set_open. by destruct (negb _). Qed.

Lemma value_updated_updates evt (s : State OptionValue) : updates (value_updated evt s) = updates s.
Proof.
  unfold value_updated, _updateClearElVisibility, set_options.
  set (s' := if negb _ then _ else _).
  assert (updates s' = updates s) as <- by (subst s'; by destruct (negb _)).
  destruct (_clearEl _); [change (updates (with_clearEl ?v ?x)) with (updates x) |];
    by rewrite set_open_updates.
Qed.

Lemma flush_updates (s : State OptionValue) : updates (flush s) = [].
Proof.
  unfold flush. generalize (updates s). intros evts.
  assert (updates (with_updates [] s) = []) as H by done.
  revert H. generalize (with_updates [] s).
  induction evts as [| evt evts IH]; intros s' Hs'; simpl; [done |].
  apply IH. by rewrite value_updated_updates.
Qed.

(** The callback of the assignment made last runs last. *)
Lemma flush_set_value val (s : State OptionValue) :
  flush (set_value val s) =
    value_updated (mkEvent val (hostPrevents val))
      (foldl (fun acc evt => value_updated evt acc)
         (with_updates [] (set_value val s)) (updates s)).
Proof. unfold flush. simpl. by rewrite foldl_snoc. Qed.

(** What the callback leaves in the element. *)
Lemma set_options_nil (s : State OptionValue) :
  _options (set_options [] s) = [] /\ _open (set_options [] s) = false /\
  _activeOptionIndex (set_options [] s) = -1 /\
  _value (set_options [] s) = _value s /\ _inputEl (set_options [] s) = _inputEl s.
Proof. done. Qed.

Lemma _updateClearElVisibility_element (s : State OptionValue) :
  let s' := _updateClearElVisibility s in
  _options s' = _options s /\ _open s' = _open s /\
  _activeOptionIndex s' = _activeOptionIndex s /\
  _value s' = _value s /\ _inputEl s' = _inputEl s.
Proof. unfold _updateClearElVisibility. by destruct (_clearEl s). Qed.

Lemma value_updated_element evt (s : State OptionValue) :
  let s' := value_updated evt s in
  _options s' = [] /\ _open s' = false /\ _activeOptionIndex s' = -1 /\
  _value s' = (if defaultPrevented evt then None else detail evt) /\
  _inputEl s' = (if defaultPrevented evt then EmptyString
                 else fieldText (dataToOption (detail evt))).
Proof.
  unfold value_updated. simpl.
  destruct (_updateClearElVisibility_element (set_options []
    (if negb (defaultPrevented evt)
     then with_inputEl (fieldText (dataToOption (detail evt)))
            (with_value (detail evt) s)
     else with_inputEl EmptyString (with_value None s)))) as (-> & -> & -> & -> & ->).
  by destruct (defaultPrevented evt).
Qed.

(** ** The options setter *)

Lemma omap_id_filter {A} (l : list (option A)) :
  Some <$> omap id l = filter is_Some l.
Proof.
  induction l as [| [x |] l IH]; simpl; [done | |].
  - rewrite filter_cons_True by eauto. by rewrite <- IH.
  - rewrite filter_cons_False by (by intros []). done.
Qed.

Lemma nonempty_true {A} (l : list A) : nonempty l = true <-> l <> [].
Proof. by destruct l. Qed.

(** C9. For every list given to the options setter, the stored list is the
    given one without its [undefined] entries, in the same order, and
    afterwards the list is open exactly when the given list was not empty
    and the stored one is not empty either. *)
Theorem C9_set_options_filters_and_opens
  (val : list (option (ZAutocompleteOption OptionValue))) (s : State OptionValue) :
  Some <$> _options (set_options val s) = filter is_Some val /\
  _open (set_options val s) = nonempty val && nonempty (_options (set_options val s)) /\
  (_open (set_options val s) = true <->
     val <> [] /\ _options (set_options val s) <> []).
Proof.
  assert (_options (set_options val s) = omap id val) as Hopts.
  { unfold set_options, set_open. by destruct (negb _). }
  assert (_open (set_options val s) = nonempty val && nonempty (omap id val)) as Hopen.
  { unfold set_options, set_open. by destruct (negb _). }
  rewrite Hopts, Hopen. split; [apply omap_id_filter |]. split; [done |].
  rewrite andb_true_iff. by rewrite !nonempty_true.
Qed.

(** ** The value setter *)

(** C10. Every assignment to [value] dispatches exactly one 'autocomplete'
    event, carrying the assigned value, also when that value is the one
    already committed; the callback that later commits the value, or rolls a
    cancelled assignment back to [undefined], dispatches none. *)
Theorem C10_one_event_per_assignment (val : option OptionValue) (s : State OptionValue) :
  dispatched (set_value val s) = dispatched s ++ [mkEvent val (hostPrevents val)] /\
  dispatched (set_value (_value s) s) =
    dispatched s ++ [mkEvent (_value s) (hostPrevents (_value s))] /\
  (forall evt s0, dispatched (value_updated evt s0) = dispatched s0) /\
  dispatched (flush (set_value val s)) =
    dispatched s ++ [mkEvent val (hostPrevents val)].
Proof.
  split; [done |]. split; [done |]. split.
  - intros evt s0. apply value_updated_environment.
  - destruct (flush_environment (set_value val s)) as (_ & _ & _ & _ & _ & _ & _ & _ & ->).
    done.
Qed.

(** C2, as the code has it.  The setter itself leaves the committed value as
    it was: it dispatches the event and defers the change to
    [updateComplete].  Once the deferred callbacks have run, the committed
    value is the assigned [val] when no listener cancelled the event, and
    [undefined] with the field's text emptied when one did, whatever [val]
    was. *)
Theorem C2_value_after_update (val : option OptionValue) (s : State OptionValue) :
  _value (set_value val s) = _value s /\
  (hostPrevents val = false ->
     _value (flush (set_value val s)) = val /\
     _inputEl (flush (set_value val s)) = fieldText (dataToOption val)) /\
  (hostPrevents val = true ->
     _value (flush (set_value val s)) = None /\
     _inputEl (flush (set_value val s)) = EmptyString).
Proof.
  split; [done |].
  rewrite flush_set_value.
  set (s0 := foldl _ _ _).
  destruct (value_updated_element (mkEvent val (hostPrevents val)) s0)
    as (_ & _ & _ & -> & ->).
  simpl. split; intros ->; done.
Qed.


(** ** The bookkeeping of fetches *)

Lemma coordinated_coordination (s s' : State OptionValue) :
  coordination s' = coordination s -> coordinated s -> coordinated s'.
Proof.
  unfold coordination. intros [= E1 E2 E3 E4 E5 E6] [I1 I2 I3 I4 I5 I6].
  split; unfold pending; rewrite ?E1, ?E2, ?E3, ?E4, ?E5, ?E6; done.
Qed.

Lemma same_environment_coordination (s s' : State OptionValue) :
  same_environment s s' -> coordination s' = coordination s.
Proof.
  unfold same_environment, coordination. intros Henv. destruct_and!. congruence.
Qed.

Lemma set_value_coordination val (s : State OptionValue) :
  coordination (set_value val s) = coordination s.
Proof. done. Qed.

Lemma _selectOption_coordination option (s : State OptionValue) :
  coordination (_selectOption option s) = coordination s.
Proof. unfold _selectOption. destruct option as [o |]; [| done]. by destruct (disabled o). Qed.

(** What a call of [_navigateToOption] that returns has done: nothing, or it
    has made active an option of the list that is not disabled. *)
Lemma nav_result fuel : forall newIndex (s s' : State OptionValue),
  _navigateToOption_rec fuel newIndex s = Some s' ->
  s' = s \/
  exists k o, s' = with_activeOptionIndex k s /\ 0 <= k /\
    _options s !! Z.to_nat k = Some o /\ disabled o = false.
Proof.
  induction fuel as [| fuel IH]; intros newIndex s s' Hrec; [done |].
  simpl in Hrec.
  destruct (Z.ltb_spec newIndex 0); [left; congruence |].
  destruct (newIndex =? _activeOptionIndex s); [left; congruence |].
  destruct (newIndex >? _); [left; congruence |].
  destruct (_options s !! Z.to_nat newIndex) as [o |] eqn:Ho; [| done].
  destruct (disabled o) eqn:Hdis; [by eapply IH |].
  right. exists newIndex, o. by simplify_eq.
Qed.

Lemma _navigateToOption_result newIndex (s : State OptionValue) :
  _navigateToOption newIndex s = s \/
  exists k o, _navigateToOption newIndex s = with_activeOptionIndex k s /\ 0 <= k /\
    _options s !! Z.to_nat k = Some o /\ disabled o = false.
Proof.
  destruct (_navigateToOption_returns newIndex s) as [s' Hs'].
  rewrite (_navigateToOption_unfold _ _ _ Hs').
  by apply nav_result in Hs'.
Qed.

Lemma _navigateToOption_coordination newIndex (s : State OptionValue) :
  coordination (_navigateToOption newIndex s) = coordination s.
Proof.
  destruct (_navigateToOption_result newIndex s) as [-> | (k & o & -> & _)]; done.
Qed.

Lemma _onKeydown_coordination key (s : State OptionValue) :
  coordination (_onKeydown key s) = coordination s.
Proof.
  unfold _onKeydown. destruct (_ || _); [done |].
  destruct key; [| | | | done].
  - apply _navigateToOption_coordination.
  - apply _navigateToOption_coordination.
  - apply _selectOption_coordination.
  - apply same_environment_coordination, set_open_environment.
Qed.

(** Aborting the current controller. *)
Lemma abort_fields reason (s : State OptionValue) :
  _abortController (abort reason s) = _abortController s /\
  timer (abort reason s) = timer s /\
  controllers (abort reason s) = controllers s /\
  timeouts (abort reason s) = timeouts s /\
  fetches (abort reason s) = fetches s /\
  (forall c, is_Some (aborted s !! c) -> is_Some (aborted (abort reason s) !! c)) /\
  (forall c, _abortController s = Some c -> is_Some (aborted (abort reason s) !! c)).
Proof.
  unfold abort.
  destruct (_abortController s) as [c |] eqn:Hc; [| by repeat split].
  destruct (aborted s !! c) eqn:Hab; repeat split; try done.
  - intros c' [= <-]. by rewrite Hab.
  - cbn. intros c' Hc'. destruct (decide (c = c')) as [-> | Hne].
    + rewrite lookup_insert_eq. eauto.
    + by rewrite lookup_insert_ne.
  - cbn. intros c' [= <-]. rewrite lookup_insert_eq. eauto.
Qed.

Lemma abort_others reason (s : State OptionValue) :
  now (abort reason s) = now s /\ updates (abort reason s) = updates s /\
  _inputEl (abort reason s) = _inputEl s /\ _options (abort reason s) = _options s /\
  _activeOptionIndex (abort reason s) = _activeOptionIndex s /\
  dispatched (abort reason s) = dispatched s /\
  _open (abort reason s) = _open s /\ _value (abort reason s) = _value s /\
  timeoutIds (abort reason s) = timeoutIds s.
Proof.
  unfold abort. destruct (_abortController s) as [c |]; [| done].
  by destruct (aborted s !! c).
Qed.

Lemma abort_coordinated reason (s : State OptionValue) :
  coordinated s -> coordinated (abort reason s).
Proof.
  intros [I1 I2 I3 I4 I5 I6].
  destruct (abort_fields reason s) as (E1 & E2 & E3 & E4 & E5 & Hmono & _).
  split; unfold pending; rewrite ?E1, ?E2, ?E3, ?E4, ?E5; try done.
  intros i f Hf. destruct (I1 i f Hf) as (c & Hc & [Hab | Hcur]); eauto 6.
Qed.

Lemma filter_one_True {A} (P : A -> Prop) `{!forall x, Decision (P x)} (x : A) :
  P x -> filter P [x] = [x].
Proof. intros HP. by rewrite filter_cons_True, filter_nil. Qed.

Lemma filter_one_False {A} (P : A -> Prop) `{!forall x, Decision (P x)} (x : A) :
  ~ P x -> filter P [x] = [].
Proof. intros HP. by rewrite filter_cons_False, filter_nil. Qed.

(** Time passes: nothing is due, or the pending trigger fires. *)
Lemma tick_idle (s : State OptionValue) :
  (timeouts s = [] \/
   exists id due, timeouts s = [(id, due)] /\ (S (now s) < due)%nat) ->
  tick s = with_now (S (now s)) s.
Proof.
  unfold tick. destruct s as [ac ie ce op va os ai ae tm ab cs ts ti nw us fs ds].
  cbn. intros [-> | (id & due & -> & Hdue)]; [done |].
  rewrite (filter_one_False (fun t : nat * nat => (t.2 <= S nw)%nat)) by (cbn; lia).
  rewrite (filter_one_True (fun t : nat * nat => (S nw < t.2)%nat)) by done. done.
Qed.

Lemma tick_fire (s : State OptionValue) id due :
  timeouts s = [(id, due)] -> (due <= S (now s))%nat ->
  tick s = _onInputChange (with_timeouts [] (with_now (S (now s)) s)).
Proof.
  unfold tick. destruct s as [ac ie ce op va os ai ae tm ab cs ts ti nw us fs ds].
  cbn. intros -> Hdue.
  rewrite (filter_one_True (fun t : nat * nat => (t.2 <= S nw)%nat)) by done.
  rewrite (filter_one_False (fun t : nat * nat => (S nw < t.2)%nat)) by (cbn; lia).
  done.
Qed.

(** What [_onInput] does once the previous controller is aborted: a new
    controller, the closure armed anew, the clear control updated. *)
Lemma armed_fields (s : State OptionValue) :
  (timeouts s = [] \/ exists id due, timeouts s = [(id, due)] /\ timer s = Some id) ->
  let s' := _updateClearElVisibility
              (debounce debouceDelay (newAbortController s)) in
  _abortController s' = Some (controllers s) /\
  controllers s' = S (controllers s) /\
  timer s' = Some (timeoutIds s) /\
  timeouts s' = [(timeoutIds s, (now s + debouceDelay)%nat)] /\
  timeoutIds s' = S (timeoutIds s) /\
  fetches s' = fetches s /\ now s' = now s /\ updates s' = updates s /\
  dispatched s' = dispatched s /\ _inputEl s' = _inputEl s /\
  _options s' = _options s /\ _open s' = _open s /\
  _activeOptionIndex s' = _activeOptionIndex s /\
  _value s' = _value s /\ aborted s' = aborted s.
Proof.
  intros Hone.
  destruct s as [ac ie ce op va os ai ae tm ab cs ts ti nw us fs ds].
  cbn in Hone.
  assert (match tm with
          | Some id => filter (fun t : nat * nat => t.1 <> id) ts
          | None => ts
          end = []) as Hclear.
  { destruct Hone as [-> | (id & due & -> & ->)]; [by destruct tm |].
    by rewrite filter_one_False by (cbn; tauto). }
  destruct tm, ce; cbn in Hclear |- *; rewrite Hclear; by repeat split.
Qed.

(** The handler of an input event that leaves text in the field. *)
Lemma Input_text_fields text (s : State OptionValue) :
  truthy_string text = true ->
  (timeouts s = [] \/ exists id due, timeouts s = [(id, due)] /\ timer s = Some id) ->
  let s' := handle (Input text) s in
  _abortController s' = Some (controllers s) /\
  controllers s' = S (controllers s) /\
  timer s' = Some (timeoutIds s) /\
  timeouts s' = [(timeoutIds s, (now s + debouceDelay)%nat)] /\
  timeoutIds s' = S (timeoutIds s) /\
  fetches s' = fetches s /\ now s' = now s /\ updates s' = updates s /\
  dispatched s' = dispatched s /\ _inputEl s' = text /\
  _options s' = [] /\ _open s' = false /\ _activeOptionIndex s' = -1 /\
  _value s' = _value s /\
  (forall c, is_Some (aborted s !! c) -> is_Some (aborted s' !! c)) /\
  (forall c, _abortController s = Some c -> is_Some (aborted s' !! c)).
Proof.
  intros Htext Hone. cbv zeta.
  set (s0 := set_options [] (with_inputEl text s)).
  set (reason := "ZAutocomplete : A new search has been performed").
  assert (handle (Input text) s =
          _updateClearElVisibility
            (debounce debouceDelay (newAbortController (abort reason s0)))) as ->.
  { unfold handle, _onInput. fold s0.
    assert (_inputEl s0 = text) as -> by done. by rewrite Htext. }
  destruct (abort_fields reason s0) as (A1 & A2 & A3 & A4 & A5 & Hmono & Hcur).
  destruct (abort_others reason s0) as (B1 & B2 & B3 & B4 & B5 & B6 & B7 & B8 & B9).
  destruct (armed_fields (abort reason s0))
    as (-> & -> & -> & -> & -> & -> & -> & -> & -> & -> & -> & -> & -> & -> & ->).
  { by rewrite A4, A2. }
  rewrite A3, A5, B1, B2, B3, B4, B5, B6, B7, B8, B9.
  repeat split; try done.
Qed.

(** The handler of an input event that leaves the field empty, and of the
    clear control. *)
Lemma _onClear_fields (s : State OptionValue) :
  let s' := _onClear s in
  _abortController s' = _abortController s /\ controllers s' = controllers s /\
  timer s' = timer s /\ timeouts s' = timeouts s /\ timeoutIds s' = timeoutIds s /\
  fetches s' = fetches s /\ now s' = now s /\
  updates s' = updates s ++ [mkEvent None (hostPrevents None)] /\
  dispatched s' = dispatched s ++ [mkEvent None (hostPrevents None)] /\
  _inputEl s' = _inputEl s /\ _options s' = _options s /\ _open s' = _open s /\
  _activeOptionIndex s' = _activeOptionIndex s /\ _value s' = _value s /\
  (forall c, is_Some (aborted s !! c) -> is_Some (aborted s' !! c)) /\
  (forall c, _abortController s = Some c -> is_Some (aborted s' !! c)).
Proof.
  destruct s as [ac ie ce op va os ai ae tm ab cs ts ti nw us fs ds].
  unfold _onClear, set_value, abort. cbn.
  destruct ac as [c |]; [destruct (ab !! c) eqn:Hab |]; cbn;
    repeat split; try done;
    try (intros c' [= <-]; rewrite ?lookup_insert_eq; eauto);
    intros c' Hc'; (destruct (decide (c = c')) as [-> | Hne];
      [rewrite lookup_insert_eq; eauto | by rewrite lookup_insert_ne]).
Qed.

Lemma _onInput_empty (s : State OptionValue) :
  truthy_string (_inputEl s) = false -> _onInput s = _onClear (set_options [] s).
Proof.
  intros Hempty. unfold _onInput.
  destruct (set_options_nil s) as (_ & _ & _ & _ & ->). by rewrite Hempty.
Qed.

Lemma _onClear_coordinated (s : State OptionValue) :
  coordinated s -> coordinated (_onClear s).
Proof.
  intros Hs. unfold _onClear.
  eapply coordinated_coordination; [apply set_value_coordination |].
  by apply abort_coordinated.
Qed.

Lemma Input_coordinated text (s : State OptionValue) :
  coordinated s -> coordinated (handle (Input text) s).
Proof.
  intros Hs. destruct (truthy_string text) eqn:Htext.
  - destruct (Input_text_fields text s Htext (one_trigger s Hs))
      as (E1 & E2 & E3 & E4 & _ & E5 & _ & _ & _ & _ & _ & _ & _ & _ & Hmono & Hcur).
    destruct Hs as [I1 I2 I3 I4 I5 I6].
    split; unfold pending; rewrite ?E1, ?E2, ?E3, ?E4, ?E5.
    + intros i f Hf. destruct (I1 i f Hf) as (c & Hc & [Hab | Hc']); eauto 6.
    + eauto.
    + intros c [= <-]. lia.
    + intros f c Hf Hc. specialize (I4 f c Hf Hc). lia.
    + intros _ f Hf Hc. specialize (I4 f _ Hf Hc). lia.
    + right. eauto.
  - cbn. rewrite _onInput_empty by done.
    apply _onClear_coordinated.
    eapply coordinated_coordination; [| apply Hs].
    by rewrite (same_environment_coordination _ _ (set_options_environment [] _)).
Qed.

Lemma _onInputChange_coordinated (s : State OptionValue) :
  timeouts s = [] -> is_Some (_abortController s) ->
  coordinated s -> coordinated (_onInputChange s).
Proof.
  intros Hts [c Hc] [I1 I2 I3 I4 I5 I6].
  split; unfold pending; cbn; rewrite ?Hts; try done.
  - intros i f [Hi Hf]. apply lookup_app_Some in Hi as [Hi | [_ Hi]].
    + by apply (I1 i).
    + apply list_lookup_singleton_Some in Hi as [_ <-]. cbn. eauto.
  - intros f c' [Hf | Hf%list_elem_of_singleton]%elem_of_app; [by eapply I4 |].
    subst f. cbn. rewrite Hc. intros [= <-]. by apply I3.
  - by left.
Qed.

Lemma tick_coordinated (s : State OptionValue) :
  coordinated s -> coordinated (tick s).
Proof.
  intros Hs. destruct (one_trigger s Hs) as [Hnil | (id & due & Hts & Htm)].
  - rewrite tick_idle by eauto. by eapply coordinated_coordination; [| apply Hs].
  - destruct (decide (due <= S (now s))%nat) as [Hdue | Hdue].
    + rewrite (tick_fire s id due) by done.
      assert (is_Some (_abortController s)) as Hc
        by (apply (trigger_has_controller s Hs); by rewrite Hts).
      apply _onInputChange_coordinated; [done | done |].
      destruct Hs as [I1 I2 I3 I4 I5 I6]. split; unfold pending; cbn; try done.
      by left.
    + rewrite tick_idle by (right; exists id, due; split; [done | lia]).
      by eapply coordinated_coordination; [| apply Hs].
Qed.

(** A promise settles: the call is marked, its signal stays. *)
Lemma settle_coordinated i f (s : State OptionValue) :
  fetches s !! i = Some f ->
  coordinated s ->
  coordinated (with_fetches (<[i := mkFetch (query f) (signal f) true]> (fetches s)) s).
Proof.
  intros Hi [I1 I2 I3 I4 I5 I6].
  assert (forall f', f' ∈ <[i := mkFetch (query f) (signal f) true]> (fetches s) ->
            exists f0, f0 ∈ fetches s /\ signal f' = signal f0) as Hsig.
  { intros f' (j & Hj)%list_elem_of_lookup.
    destruct (decide (i = j)) as [<- | Hne].
    - rewrite list_lookup_insert_eq in Hj by (by eapply lookup_lt_Some).
      exists f. split; [by eapply list_elem_of_lookup_2 | by simplify_eq].
    - rewrite list_lookup_insert_ne in Hj by done.
      exists f'. split; [by eapply list_elem_of_lookup_2 | done]. }
  split; unfold pending; cbn; try done.
  - intros j f' [Hj Hf']. destruct (decide (i = j)) as [<- | Hne].
    + rewrite list_lookup_insert_eq in Hj by (by eapply lookup_lt_Some). by simplify_eq.
    + rewrite list_lookup_insert_ne in Hj by done. by apply (I1 j).
  - intros f' c (f0 & Hf0 & ->)%Hsig. by apply I4.
  - intros Hts f' (f0 & Hf0 & ->)%Hsig. by apply I5.
Qed.

Lemma resolved_coordinated i data (s : State OptionValue) :
  coordinated s -> coordinated (resolved i data s).
Proof.
  intros Hs. unfold resolved.
  destruct (fetches s !! i) as [f |] eqn:Hi; [| done].
  destruct (settled f); [done |].
  eapply coordinated_coordination;
    [apply same_environment_coordination, set_options_environment |].
  by apply settle_coordinated.
Qed.

Lemma rejected_coordinated i (s : State OptionValue) :
  coordinated s -> coordinated (rejected i s).
Proof.
  intros Hs. unfold rejected.
  destruct (fetches s !! i) as [f |] eqn:Hi; [| done].
  destruct (settled f); [done |].
  by apply settle_coordinated.
Qed.

Lemma handle_coordinated e (s : State OptionValue) :
  coordinated s -> coordinated (handle e s).
Proof.
  intros Hs. destruct e.
  - by apply Input_coordinated.
  - by apply _onClear_coordinated.
  - eapply coordinated_coordination; [apply _onKeydown_coordination | done].
  - eapply coordinated_coordination;
      [apply same_environment_coordination, set_open_environment | done].
  - eapply coordinated_coordination; [apply _selectOption_coordination | done].
  - eapply coordinated_coordination; [apply set_value_coordination | done].
  - eapply coordinated_coordination;
      [apply same_environment_coordination, set_options_environment | done].
  - by apply tick_coordinated.
  - by apply resolved_coordinated.
  - by apply rejected_coordinated.
  - by apply abort_coordinated.
Qed.

Lemma step_coordinated e (s : State OptionValue) :
  coordinated s -> coordinated (step s e).
Proof.
  intros Hs. unfold step.
  eapply coordinated_coordination;
    [apply same_environment_coordination, flush_environment |].
  by apply handle_coordinated.
Qed.

Lemma connected_coordinated text clearEl :
  coordinated (connected text clearEl).
Proof.
  eapply coordinated_coordination with
    (s := mkState None text (if clearEl then Some false else None) false None []
            (-1) false None ∅ 0%nat [] 0%nat 0%nat [] [] []).
  - unfold connected. destruct clearEl; [| done].
    apply same_environment_coordination, _updateClearElVisibility_environment.
  - split; unfold pending; cbn; try done.
    + by intros i f [? ?].
    + intros f c Hf. by apply elem_of_nil in Hf.
    + by left.
Qed.

Lemma run_snoc es e (s : State OptionValue) :
  run s (es ++ [e]) = step (run s es) e.
Proof. unfold run. by rewrite foldl_snoc. Qed.

Lemma run_app es es' (s : State OptionValue) :
  run s (es ++ es') = run (run s es) es'.
Proof. unfold run. by rewrite foldl_app. Qed.

(** Between two tasks no callback is waiting and the bookkeeping is in
    order. *)
Lemma reachable_coordinated (s : State OptionValue) :
  reachable s -> coordinated s.
Proof.
  intros (text & clearEl & es & ->).
  induction es as [| e es IH] using rev_ind.
  - apply connected_coordinated.
  - rewrite run_snoc. by apply step_coordinated.
Qed.

Lemma connected_updates text clearEl :
  updates (connected (OptionValue := OptionValue) text clearEl) = [].
Proof. unfold connected. by destruct clearEl. Qed.

Lemma reachable_updates (s : State OptionValue) :
  reachable s -> updates s = [].
Proof.
  intros (text & clearEl & es & ->).
  destruct es as [| e es _] using rev_ind.
  - apply connected_updates.
  - rewrite run_snoc. apply flush_updates.
Qed.

Lemma reachable_step e (s : State OptionValue) :
  reachable s -> reachable (step s e).
Proof.
  intros (text & clearEl & es & ->).
  exists text, clearEl, (es ++ [e]). by rewrite run_snoc.
Qed.

(** With no callback waiting, the end of the task changes nothing. *)
Lemma flush_idle (s : State OptionValue) :
  updates s = [] -> flush s = s.
Proof.
  unfold flush. intros Hs. rewrite Hs. cbn.
  destruct s. cbn in Hs. by subst.
Qed.

(** ** Input events and fetches *)

Lemma omap_id_map {A B} (f : A -> option B) (l : list A) :
  omap id (map f l) = omap f l.
Proof. induction l as [| x l IH]; cbn; [done |]. rewrite IH. by destruct (f x). Qed.

(** C6. An input event that leaves the field empty, in any state of the
    element: it empties and closes the option list at once, arms no trigger,
    calls [fetchData] for nothing and creates no controller; it aborts the
    current controller, with a reason, so that in a state the element has
    reached every fetch still pending has an aborted signal with its reason;
    and it assigns [undefined] to [value] through [_onClear]: the event is
    dispatched and, once the task ends, the committed value is [undefined],
    whatever was committed before, and the list is empty and closed. *)
Theorem C6_empty_input_clears (s : State OptionValue) :
  let s1 := handle (Input EmptyString) s in
  let s2 := step s (Input EmptyString) in
  (_options s1 = [] /\ _open s1 = false) /\
  (timeouts s2 = timeouts s /\ timer s2 = timer s /\ fetches s2 = fetches s) /\
  (controllers s2 = controllers s /\ _abortController s2 = _abortController s) /\
  (forall c, _abortController s = Some c ->
     exists reason, aborted s2 !! c = Some reason) /\
  (reachable s ->
   forall i f, pending s2 i f ->
     exists c reason, signal f = Some c /\ aborted s2 !! c = Some reason) /\
  dispatched s2 = dispatched s ++ [mkEvent None (hostPrevents None)] /\
  _value s2 = None /\ _options s2 = [] /\ _open s2 = false.
Proof.
  intros s1 s2.
  set (s0 := set_options [] (with_inputEl EmptyString s)).
  assert (s1 = _onClear s0) as Hs1.
  { subst s1 s0. unfold handle. by rewrite _onInput_empty. }
  assert (s2 = flush s1) as Hs2 by done.
  destruct (_onClear_fields s0)
    as (C1 & C2 & C3 & C4 & _ & C6 & _ & _ & C9 & _ & C11 & C12 & _ & _ & Hmono & Hcur).
  cbn zeta in *. rewrite <- Hs1 in *.
  destruct (flush_environment s1) as (F1 & F2 & F3 & F4 & F5 & _ & _ & F8 & F9).
  rewrite <- Hs2 in *.
  assert (s2 = value_updated (mkEvent None (hostPrevents None))
                 (foldl (fun acc evt => value_updated evt acc)
                    (with_updates [] s1) (updates (abort
                       "ZAutocomplete [data-z-autocomplete-input] has been cleared." s0))))
    as Hs2'.
  { rewrite Hs2, Hs1. unfold _onClear. apply flush_set_value. }
  split; [by rewrite C11, C12 |].
  split; [by rewrite F5, F2, F8, C4, C3, C6 |].
  split; [by rewrite F4, F1, C2, C1 |].
  split; [| split; [| split; [by rewrite F9, C9 |]]].
  - intros c Hc. rewrite F3. destruct (Hcur c Hc) as [reason Hr]. eauto.
  - intros Hreach i f [Hi Hf]. rewrite F8, C6 in Hi.
    pose proof (reachable_coordinated s Hreach) as Hco.
    destruct (signal_tracked s Hco i f) as (c & Hc & Hor); [done |].
    exists c. rewrite F3.
    destruct Hor as [Hab | Hc'].
    + destruct (Hmono c Hab) as [reason Hr]. eauto.
    + destruct (Hcur c Hc') as [reason Hr]. eauto.
  - rewrite Hs2'.
    match goal with |- context [value_updated ?e ?x] =>
      destruct (value_updated_element e x) as (-> & -> & _ & -> & _) end.
    cbn. by destruct (hostPrevents None).
Qed.

(** C1, as the code has it.  When a fetch B starts, every fetch A still
    pending has had its signal aborted, and that signal is what the host's
    [fetchData] was given.  The element itself does not look at the signal
    when a promise settles: the list a pending promise resolves with is
    mapped through [dataToOption] and assigned to [options], whether its
    signal is aborted or not; a promise that rejects changes nothing. *)
Theorem C1_resolved_result_is_applied (s : State OptionValue) :
  reachable s ->
  (forall B, fetches (step s Tick) = fetches s ++ [B] ->
     forall i A, pending s i A ->
       exists c, signal A = Some c /\ is_aborted c s = true) /\
  (forall i A data, pending s i A ->
     _options (step s (Resolve i data)) =
       omap (fun d => dataToOption (Some d)) data) /\
  (forall i A, pending s i A -> _options (step s (Reject i)) = _options s).
Proof.
  intros Hreach.
  pose proof (reachable_coordinated s Hreach) as Hco.
  pose proof (reachable_updates s Hreach) as Hup.
  split; [| split].
  - intros B HB i A HA.
    assert (timeouts s <> []) as Hts.
    { intros Hnil. change (step s Tick) with (flush (tick s)) in HB.
      destruct (flush_environment (tick s)) as (_ & _ & _ & _ & _ & _ & _ & F8 & _).
      rewrite F8, tick_idle in HB by eauto. cbn in HB.
      apply (f_equal length) in HB. rewrite length_app in HB. cbn in HB. lia. }
    destruct (signal_tracked s Hco i A HA) as (c & Hc & [Hab | Hcur]).
    + exists c. split; [done |]. by apply bool_decide_eq_true.
    + exfalso. apply (controller_unused s Hco Hts A); [| congruence].
      destruct HA as [HA _]. by eapply list_elem_of_lookup_2.
  - intros i A data [Hi HA]. unfold step, handle, resolved. rewrite Hi, HA.
    rewrite flush_idle.
    + unfold set_options, set_open. destruct (negb _); cbn; apply omap_id_map.
    + rewrite <- Hup. unfold set_options, set_open. by destruct (negb _).
  - intros i A [Hi HA]. unfold step, handle, rejected. rewrite Hi, HA.
    by rewrite flush_idle.
Qed.

(** ** Time *)

Lemma fired_updates (due : list (nat * nat)) : forall s : State OptionValue,
  updates (foldl (fun acc _ => _onInputChange acc) s due) = updates s.
Proof. induction due as [| t due IH]; intros s; cbn; [done |]. by rewrite IH. Qed.

Lemma tick_updates (s : State OptionValue) : updates (tick s) = updates s.
Proof. unfold tick. by rewrite fired_updates. Qed.

Lemma step_Tick (s : State OptionValue) : updates s = [] -> step s Tick = tick s.
Proof. intros Hup. unfold step, handle. apply flush_idle. by rewrite tick_updates. Qed.

Lemma advance_S n (s : State OptionValue) :
  advance (S n) s = advance n (step s Tick).
Proof. done. Qed.

(** Two states built from the fields of [s] are equal when their clocks
    are. *)
Ltac state_eq s :=
  destruct s; cbv -[Nat.add app]; f_equal; lia.

(** While nothing falls due, time passing changes the clock only. *)
Lemma advance_idle n : forall s : State OptionValue,
  updates s = [] ->
  (timeouts s = [] \/
   exists id due, timeouts s = [(id, due)] /\ (now s + n < due)%nat) ->
  advance n s = with_now (now s + n)%nat s.
Proof.
  induction n as [| n IH]; intros s Hup Hts.
  - state_eq s.
  - rewrite advance_S, step_Tick by done.
    rewrite tick_idle.
    + rewrite IH; [| done |].
      * state_eq s.
      * cbn. destruct Hts as [-> | (id & due & -> & Hdue)]; [by left |].
        right. exists id, due. split; [done | lia].
    + destruct Hts as [-> | (id & due & -> & Hdue)]; [by left |].
      right. exists id, due. split; [done | lia].
Qed.

(** Once the pending trigger has fallen due it has fired, once:
    [fetchData] has been called with the field's text and the current
    signal, and nothing is pending any more. *)
Lemma advance_fire n : forall (s : State OptionValue) id due,
  updates s = [] -> timeouts s = [(id, due)] -> (due <= now s + S n)%nat ->
  advance (S n) s =
    with_now (now s + S n)%nat (_onInputChange (with_timeouts [] s)).
Proof.
  induction n as [| n IH]; intros s id due Hup Hts Hdue.
  - rewrite advance_S, step_Tick by done.
    rewrite (tick_fire s id due) by (done || lia).
    state_eq s.
  - rewrite advance_S, step_Tick by done.
    destruct (decide (due <= S (now s))%nat) as [Hnow | Hlater].
    + rewrite (tick_fire s id due) by done.
      rewrite advance_idle by (done || by left).
      state_eq s.
    + rewrite tick_idle by (right; exists id, due; split; [done | lia]).
      rewrite (IH _ id due); [| done | done | cbn; lia].
      state_eq s.
Qed.

(** C4, as the code has it.  [disconnectedCallback] aborts the current
    controller and leaves the debounce trigger as it is: a trigger pending
    before teardown is pending after it, and when it falls due it calls
    [fetchData], with the field's text and the signal that teardown has
    aborted. *)
Theorem C4_teardown_leaves_trigger (s : State OptionValue) :
  reachable s ->
  let s' := step s Disconnect in
  timeouts s' = timeouts s /\ timer s' = timer s /\
  (forall id due n, timeouts s = [(id, due)] -> (due <= now s + S n)%nat ->
     exists c, _abortController s = Some c /\ is_aborted c s' = true /\
       fetches (advance (S n) s') = fetches s ++ [mkFetch (_inputEl s) (Some c) false]).
Proof.
  intros Hreach s'.
  pose proof (reachable_coordinated s Hreach) as Hco.
  pose proof (reachable_updates s Hreach) as Hup.
  destruct (abort_fields "ZAutocomplete is beeing destroyed" s)
    as (A1 & A2 & A3 & A4 & A5 & _ & Hcur).
  destruct (abort_others "ZAutocomplete is beeing destroyed" s)
    as (B1 & B2 & B3 & _).
  assert (s' = disconnectedCallback s) as ->.
  { subst s'. unfold step, handle. apply flush_idle.
    unfold disconnectedCallback. congruence. }
  unfold disconnectedCallback in *.
  split; [done |]. split; [done |].
  intros id due n Hts Hdue.
  destruct (trigger_has_controller s Hco) as [c Hc]; [by rewrite Hts |].
  exists c. split; [done |]. split; [apply bool_decide_eq_true; by apply Hcur |].
  rewrite (advance_fire n _ id due); [| congruence | congruence | by rewrite B1].
  cbn. by rewrite A5, A1, B3, Hc.
Qed.

(** ** Debouncing *)

(** An input event that leaves text in the field arms the closure anew,
    whatever trigger was pending. *)
Lemma Input_armed text (s : State OptionValue) :
  updates s = [] ->
  (timeouts s = [] \/ exists id due, timeouts s = [(id, due)] /\ timer s = Some id) ->
  truthy_string text = true ->
  armed text (fetches s) (step s (Input text)).
Proof.
  intros Hup Hone Htext.
  destruct (Input_text_fields text s Htext Hone)
    as (_ & _ & E3 & E4 & _ & E6 & E7 & E8 & _ & E10 & _).
  cbn zeta in *.
  assert (step s (Input text) = handle (Input text) s) as ->.
  { unfold step. apply flush_idle. congruence. }
  split; [congruence |]. split; [| done].
  exists (timeoutIds s). by rewrite E4, E7.
Qed.

Lemma keystroke_armed gap text text0 calls (s : State OptionValue) :
  armed text0 calls s -> (gap < debouceDelay)%nat -> truthy_string text = true ->
  armed text calls (run s (replicate gap Tick ++ [Input text])).
Proof.
  intros (Hup & (id & Hts & Htm) & _ & Hcalls) Hgap Htext.
  rewrite run_app.
  change (run s (replicate gap Tick)) with (advance gap s).
  rewrite advance_idle; [| done |].
  - change (run ?x [Input text]) with (step x (Input text)).
    rewrite <- Hcalls.
    change (fetches s) with (fetches (with_now (now s + gap)%nat s)).
    apply Input_armed; [done | | done].
    right. by exists id, (now s + debouceDelay)%nat.
  - right. exists id, (now s + debouceDelay)%nat. split; [done | lia].
Qed.

Lemma typing_armed keystrokes : forall text0 calls (s : State OptionValue),
  armed text0 calls s ->
  Forall (fun k => (k.1 < debouceDelay)%nat /\ truthy_string k.2 = true) keystrokes ->
  armed (default text0 (last keystrokes.*2)) calls (run s (typing keystrokes)).
Proof.
  induction keystrokes as [| [gap text] ks IH]; intros text0 calls s Harmed Hks.
  - done.
  - apply Forall_cons in Hks as [[Hgap Htext] Hks]. cbn in Hgap, Htext.
    cbn [typing flat_map fst snd]. rewrite run_app.
    rewrite fmap_cons, last_cons. cbn [snd].
    specialize (IH text calls _ (keystroke_armed gap text text0 calls s Harmed Hgap Htext) Hks).
    unfold typing in IH. by destruct (last ks.*2).
Qed.

(** C5, as the code has it.  A sequence of input events that each leave
    text in the field, every one less than the debounce delay after the one
    before, calls [fetchData] for nothing while it lasts and leaves exactly
    one trigger pending, whatever was pending before it; once the delay has
    passed after the last event [fetchData] has been called exactly once,
    with the text the field held at the last event, and no trigger is
    left. *)
Theorem C5_one_fetch_per_window
  (s : State OptionValue) (text : string) (keystrokes : list (nat * string))
  (n : nat) :
  reachable s ->
  truthy_string text = true ->
  Forall (fun k => (k.1 < debouceDelay)%nat /\ truthy_string k.2 = true) keystrokes ->
  (debouceDelay <= S n)%nat ->
  let s1 := run s (Input text :: typing keystrokes) in
  fetches s1 = fetches s /\
  (exists id due, timeouts s1 = [(id, due)]) /\
  fetches (advance (S n) s1) =
    fetches s ++
      [mkFetch (default text (last keystrokes.*2)) (_abortController s1) false] /\
  timeouts (advance (S n) s1) = [].
Proof.
  intros Hreach Htext Hks Hn s1.
  pose proof (reachable_updates s Hreach) as Hup.
  pose proof (one_trigger s (reachable_coordinated s Hreach)) as Hone.
  assert (armed (default text (last keystrokes.*2)) (fetches s) s1) as Harmed.
  { subst s1. change (run s (Input text :: ?es)) with (run (step s (Input text)) es).
    apply typing_armed; [| done]. apply Input_armed; auto. }
  clearbody s1.
  destruct Harmed as (Hup1 & (id & Hts1 & Htm1) & Htext1 & Hcalls1).
  split; [done |]. split; [eauto |].
  rewrite (advance_fire n s1 id _ Hup1 Hts1) by lia.
  cbn. by rewrite Hcalls1, Htext1.
Qed.

(** ** The active index *)

Lemma active_valid_none (s : State OptionValue) :
  _activeOptionIndex s = -1 -> active_valid s = true.
Proof. unfold active_valid. by intros ->. Qed.

Lemma active_valid_same (s s' : State OptionValue) :
  _options s' = _options s -> _activeOptionIndex s' = _activeOptionIndex s ->
  active_valid s' = active_valid s.
Proof. unfold active_valid. by intros -> ->. Qed.

(** Navigation makes active an option that is not disabled, or changes
    nothing: it never sets the active index to "none". *)
Lemma _navigateToOption_active (newIndex : Z) (s : State OptionValue) :
  (active_valid s = true -> active_valid (_navigateToOption newIndex s) = true) /\
  (_activeOptionIndex (_navigateToOption newIndex s) = _activeOptionIndex s \/
   0 <= _activeOptionIndex (_navigateToOption newIndex s)).
Proof.
  destruct (_navigateToOption_result newIndex s) as [-> | (k & o & -> & Hk & Ho & Hen)].
  - split; [done | by left].
  - split; [| by right]. intros _. unfold active_valid. cbn.
    rewrite at_index_lookup by done. rewrite Ho, Hen. apply orb_true_r.
Qed.

Lemma set_open_active_valid val (s : State OptionValue) :
  active_valid s = true -> active_valid (set_open val s) = true.
Proof. unfold set_open. by destruct (negb _). Qed.

Lemma set_options_active_valid val (s : State OptionValue) :
  _activeOptionIndex s = -1 \/ val = [] -> active_valid (set_options val s) = true.
Proof.
  intros [Hnone | ->]; [| done].
  apply active_valid_none. unfold set_options, set_open. by destruct (negb _).
Qed.

Lemma value_updated_active_valid evt (s : State OptionValue) :
  active_valid (value_updated evt s) = true.
Proof.
  apply active_valid_none.
  by destruct (value_updated_element evt s) as (_ & _ & -> & _).
Qed.

Lemma flush_active_valid (s : State OptionValue) :
  active_valid s = true -> active_valid (flush s) = true.
Proof.
  intros Hs. unfold flush.
  assert (active_valid (with_updates [] s) = true) as Hs' by done.
  revert Hs'. generalize (with_updates [] s). generalize (updates s).
  intros evts. induction evts as [| evt evts IH]; intros s' Hs'; cbn; [done |].
  apply IH, value_updated_active_valid.
Qed.

Lemma fired_element (due : list (nat * nat)) : forall s : State OptionValue,
  _options (foldl (fun acc _ => _onInputChange acc) s due) = _options s /\
  _activeOptionIndex (foldl (fun acc _ => _onInputChange acc) s due) =
    _activeOptionIndex s.
Proof.
  induction due as [| t due IH]; intros s; cbn; [done |].
  by destruct (IH (_onInputChange s)) as [-> ->].
Qed.

Lemma _selectOption_element option (s : State OptionValue) :
  _options (_selectOption option s) = _options s /\
  _activeOptionIndex (_selectOption option s) = _activeOptionIndex s.
Proof. unfold _selectOption. destruct option as [o |]; [| done]. by destruct (disabled o). Qed.

(** Whatever the field holds, its input event leaves the list empty and
    closed, with no active option. *)
Lemma _onInput_element (s : State OptionValue) :
  _options (_onInput s) = [] /\ _open (_onInput s) = false /\
  _activeOptionIndex (_onInput s) = -1.
Proof.
  unfold _onInput. set (s0 := set_options [] s).
  destruct (negb _).
  - by destruct (_onClear_fields s0)
      as (_ & _ & _ & _ & _ & _ & _ & _ & _ & _ & -> & -> & -> & _).
  - set (reason := "ZAutocomplete : A new search has been performed").
    destruct (abort_others reason s0) as (_ & _ & _ & B4 & B5 & _ & B7 & _).
    set (s1 := abort reason s0) in *. clearbody s1.
    destruct s1 as [ac ie ce op va os ai ae tm ab cs ts ti nw us fs ds].
    cbn in B4, B5, B7. subst. by destruct tm, ce.
Qed.

(** Every task but one that assigns a list that is not empty to [options]
    while an option is active leaves the active index "none" or on an option
    that is not disabled. *)
Lemma step_active_valid e (s : State OptionValue) :
  active_valid s = true ->
  (forall val, e = AssignOptions val -> _activeOptionIndex s = -1 \/ val = []) ->
  (forall i data, e = Resolve i data -> _activeOptionIndex s = -1 \/ data = []) ->
  active_valid (step s e) = true.
Proof.
  intros Hs Hassign Hresolve. unfold step. apply flush_active_valid.
  destruct e; unfold handle.
  - apply active_valid_none. apply _onInput_element.
  - destruct (_onClear_fields s)
      as (_ & _ & _ & _ & _ & _ & _ & _ & _ & _ & Hopts & _ & Hact & _).
    rewrite <- Hs. by apply active_valid_same.
  - unfold _onKeydown. destruct (_ || _); [done |]. destruct key; [| | | | done].
    + by apply _navigateToOption_active.
    + by apply _navigateToOption_active.
    + rewrite <- Hs. by apply active_valid_same; apply _selectOption_element.
    + by apply set_open_active_valid.
  - by apply set_open_active_valid.
  - rewrite <- Hs. by apply active_valid_same; apply _selectOption_element.
  - done.
  - apply set_options_active_valid. eauto.
  - rewrite <- Hs. unfold tick.
    match goal with |- active_valid (foldl _ ?s0 ?due) = _ =>
      destruct (fired_element due s0) as [Hopts Hact] end.
    by apply active_valid_same.
  - unfold resolved. destruct (fetches s !! i) as [f |]; [| done].
    destruct (settled f); [done |].
    destruct (Hresolve i data eq_refl) as [Hnone | ->].
    + apply set_options_active_valid. by left.
    + by apply set_options_active_valid; right.
  - unfold rejected. destruct (fetches s !! i) as [f |]; [| done].
    by destruct (settled f).
  - destruct (abort_others "ZAutocomplete is beeing destroyed" s)
      as (_ & _ & _ & Hopts & Hact & _).
    rewrite <- Hs. by apply active_valid_same.
Qed.

(** ** More on the element: what every reachable state satisfies *)

Lemma reachable_connected text clearEl :
  reachable (connected (OptionValue := OptionValue) text clearEl).
Proof. by exists text, clearEl, []. Qed.

(** Induction on the tasks that led to a state. *)
Lemma reachable_invariant (P : State OptionValue -> Prop) :
  (forall text clearEl, P (connected text clearEl)) ->
  (forall s e, reachable s -> P s -> P (step s e)) ->
  forall s, reachable s -> P s.
Proof.
  intros Hinit Hstep s (text & clearEl & es & ->).
  induction es as [| e es IH] using rev_ind; [apply Hinit |].
  rewrite run_snoc. apply Hstep; [by exists text, clearEl, es | done].
Qed.

(** What each operation leaves of the element. *)
Lemma abort_element reason (s : State OptionValue) :
  element (abort reason s) = element s.
Proof.
  unfold abort. destruct (_abortController s) as [c |]; [| done].
  by destruct (aborted s !! c).
Qed.

Lemma set_value_element val (s : State OptionValue) :
  element (set_value val s) = element s.
Proof. done. Qed.

Lemma _onClear_element (s : State OptionValue) :
  element (_onClear s) = element s.
Proof. unfold _onClear. by rewrite set_value_element, abort_element. Qed.

Lemma _selectOption_element_all option (s : State OptionValue) :
  element (_selectOption option s) = element s.
Proof. unfold _selectOption. destruct option as [o |]; [| done]. by destruct (disabled o). Qed.

Lemma fired_element_all (due : list (nat * nat)) : forall s : State OptionValue,
  element (foldl (fun acc _ => _onInputChange acc) s due) = element s.
Proof. induction due as [| t due IH]; intros s; cbn; [done |]. by rewrite IH. Qed.

Lemma tick_element (s : State OptionValue) : element (tick s) = element s.
Proof. unfold tick. by rewrite fired_element_all. Qed.

Lemma rejected_element i (s : State OptionValue) :
  element (rejected i s) = element s.
Proof.
  unfold rejected. destruct (fetches s !! i) as [f |]; [| done].
  by destruct (settled f).
Qed.

Lemma element_fields (s s' : State OptionValue) :
  element s' = element s ->
  _inputEl s' = _inputEl s /\ _clearEl s' = _clearEl s /\ _open s' = _open s /\
  _value s' = _value s /\ _options s' = _options s /\
  _activeOptionIndex s' = _activeOptionIndex s /\ ariaExpanded s' = ariaExpanded s.
Proof. unfold element. intros [= -> -> -> -> -> -> ->]. done. Qed.

(** The open setter, field by field. *)
Lemma set_open_fields val (s : State OptionValue) :
  let o := val && nonempty (_options s) in
  _open (set_open val s) = o /\ ariaExpanded (set_open val s) = o /\
  _activeOptionIndex (set_open val s) = (if o then _activeOptionIndex s else -1) /\
  _options (set_open val s) = _options s /\ _value (set_open val s) = _value s /\
  _inputEl (set_open val s) = _inputEl s /\ _clearEl (set_open val s) = _clearEl s /\
  updates (set_open val s) = updates s.
Proof. unfold set_open. by destruct (val && _). Qed.

Lemma set_options_fields val (s : State OptionValue) :
  let o := nonempty val && nonempty (omap id val) in
  _open (set_options val s) = o /\ ariaExpanded (set_options val s) = o /\
  _activeOptionIndex (set_options val s) = (if o then _activeOptionIndex s else -1) /\
  _options (set_options val s) = omap id val /\
  _value (set_options val s) = _value s /\
  _inputEl (set_options val s) = _inputEl s /\
  _clearEl (set_options val s) = _clearEl s /\
  updates (set_options val s) = updates s.
Proof. unfold set_options, set_open. by destruct (_ && _). Qed.

Lemma value_updated_after evt (s : State OptionValue) :
  ariaExpanded (value_updated evt s) = false /\
  clear_control_ok (value_updated evt s).
Proof.
  unfold value_updated, _updateClearElVisibility.
  set (s0 := set_options [] _).
  assert (ariaExpanded s0 = false) as Haria by done.
  clearbody s0. destruct (_clearEl s0) eqn:Hce; (split; [done |]).
  - unfold clear_control_ok. cbn. by intros hidden [= <-].
  - unfold clear_control_ok. by rewrite Hce.
Qed.

Lemma display_ok_element (s s' : State OptionValue) :
  element s' = element s -> display_ok s -> display_ok s'.
Proof.
  intros (_ & _ & E3 & _ & E5 & E6 & E7)%element_fields.
  unfold display_ok. by rewrite E3, E5, E6, E7.
Qed.

Lemma clear_control_ok_element (s s' : State OptionValue) :
  element s' = element s -> clear_control_ok s -> clear_control_ok s'.
Proof.
  intros (E1 & E2 & _ & E4 & _)%element_fields.
  unfold clear_control_ok. by rewrite E1, E2, E4.
Qed.

Lemma set_open_display_ok val (s : State OptionValue) :
  -1 <= _activeOptionIndex s -> display_ok (set_open val s).
Proof.
  intros Hact. destruct (set_open_fields val s) as (E1 & E2 & E3 & E4 & _).
  cbn zeta in *. unfold display_ok. rewrite E1, E2, E3, E4.
  destruct (val && nonempty (_options s)) eqn:Ho; repeat split; try done; try lia.
  intros _. apply andb_true_iff in Ho as [_ Hne]. by apply nonempty_true.
Qed.

Lemma value_updated_display_ok evt (s : State OptionValue) :
  display_ok (value_updated evt s).
Proof.
  destruct (value_updated_element evt s) as (E1 & E2 & E3 & _).
  destruct (value_updated_after evt s) as (E4 & _).
  cbn zeta in *. unfold display_ok. rewrite E1, E2, E3, E4. by repeat split.
Qed.

(** The end of a task: nothing changes when no callback is waiting, and the
    last callback decides otherwise. *)
Lemma flush_cases (s : State OptionValue) :
  (updates s = [] /\ flush s = s) \/
  exists evt s0, flush s = value_updated evt s0.
Proof.
  destruct (updates s) as [| evt evts _] eqn:Hup using rev_ind.
  - left. split; [done |]. by apply flush_idle.
  - right. unfold flush. rewrite Hup, foldl_snoc. eauto.
Qed.

Lemma _navigateToOption_display_ok newIndex (s : State OptionValue) :
  _open s = true -> display_ok s -> display_ok (_navigateToOption newIndex s).
Proof.
  intros Hopen Hs.
  destruct (_navigateToOption_result newIndex s) as [-> | (k & o & -> & Hk & _)];
    [done |].
  destruct Hs as (H1 & H2 & H3 & H4). unfold display_ok. cbn.
  repeat split; [done | done | congruence | lia].
Qed.

Lemma handle_display_ok e (s : State OptionValue) :
  display_ok s -> display_ok (handle e s).
Proof.
  intros Hs. pose proof Hs as (_ & _ & _ & Hact). destruct e; unfold handle.
  - destruct (_onInput_element (with_inputEl text s)) as (E1 & E2 & E3).
    assert (ariaExpanded (_onInput (with_inputEl text s)) = false) as E4.
    { unfold _onInput. set (s0 := set_options [] _).
      assert (ariaExpanded s0 = false) as Haria by done.
      destruct (negb _).
      - by destruct (element_fields _ _ (_onClear_element s0)) as (_ & _ & _ & _ & _ & _ & ->).
      - set (reason := "ZAutocomplete : A new search has been performed").
        destruct (element_fields _ _ (abort_element reason s0))
          as (_ & _ & _ & _ & _ & _ & Ha).
        rewrite Haria in Ha. set (s1 := abort reason s0) in *. clearbody s1.
        destruct s1 as [ac ie ce op va os ai ae tm ab cs ts ti nw us fs ds].
        cbn in Ha. subst. by destruct tm, ce. }
    unfold display_ok. rewrite E1, E2, E3, E4. by repeat split.
  - by eapply display_ok_element; [apply _onClear_element |].
  - unfold _onKeydown. destruct (negb (nonempty _) || negb (_open s)) eqn:Hguard;
      [done |].
    apply orb_false_iff in Hguard as [_ Hopen%negb_false_iff].
    destruct key; [| | | | done].
    + by apply _navigateToOption_display_ok.
    + by apply _navigateToOption_display_ok.
    + by eapply display_ok_element; [apply _selectOption_element_all |].
    + by apply set_open_display_ok.
  - by apply set_open_display_ok.
  - by eapply display_ok_element; [apply _selectOption_element_all |].
  - done.
  - unfold set_options. by apply set_open_display_ok.
  - by eapply display_ok_element; [apply tick_element |].
  - unfold resolved. destruct (fetches s !! i) as [f |]; [| done].
    destruct (settled f); [done |].
    unfold set_options. by apply set_open_display_ok.
  - by eapply display_ok_element; [apply rejected_element |].
  - by eapply display_ok_element; [apply abort_element |].
Qed.

Lemma connected_element text clearEl :
  _inputEl (connected (OptionValue := OptionValue) text clearEl) = text /\
  _open (connected (OptionValue := OptionValue) text clearEl) = false /\
  _value (connected (OptionValue := OptionValue) text clearEl) = None /\
  _options (connected (OptionValue := OptionValue) text clearEl) = [] /\
  _activeOptionIndex (connected (OptionValue := OptionValue) text clearEl) = -1 /\
  ariaExpanded (connected (OptionValue := OptionValue) text clearEl) = false /\
  _clearEl (connected (OptionValue := OptionValue) text clearEl) =
    (if clearEl then Some (negb (truthy_string text)) else None).
Proof. unfold connected. by destruct clearEl. Qed.

Lemma connected_display_ok text clearEl :
  display_ok (connected (OptionValue := OptionValue) text clearEl).
Proof.
  destruct (connected_element text clearEl) as (_ & E2 & _ & E4 & E5 & E6 & _).
  unfold display_ok. rewrite E2, E4, E5, E6. by repeat split.
Qed.

Lemma step_display_ok (s : State OptionValue) e :
  reachable s -> display_ok s -> display_ok (step s e).
Proof.
  intros _ Hs. unfold step.
  destruct (flush_cases (handle e s)) as [[_ ->] | (evt & s1 & ->)].
  - by apply handle_display_ok.
  - apply value_updated_display_ok.
Qed.

(** X1. In every state the element reaches, [aria-expanded] tells whether
    the list is open, an open list has at least one option, a closed list
    has no active option, and the active index is never below -1. *)
Theorem reachable_display_ok (s : State OptionValue) :
  reachable s -> display_ok s.
Proof.
  apply reachable_invariant.
  - apply connected_display_ok.
  - apply step_display_ok.
Qed.

Lemma clear_control_ok_content (s s' : State OptionValue) :
  _inputEl s' = _inputEl s -> _clearEl s' = _clearEl s -> _value s' = _value s ->
  clear_control_ok s -> clear_control_ok s'.
Proof. unfold clear_control_ok. by intros -> -> ->. Qed.

Lemma _updateClearElVisibility_ok (s : State OptionValue) :
  clear_control_ok (_updateClearElVisibility s).
Proof.
  unfold _updateClearElVisibility, clear_control_ok.
  destruct (_clearEl s) eqn:Hce; cbn; [by intros hidden [= <-] | by rewrite Hce].
Qed.

Lemma Input_text_handle text (s : State OptionValue) :
  truthy_string text = true ->
  handle (Input text) s =
    _updateClearElVisibility
      (debounce debouceDelay
         (newAbortController
            (abort "ZAutocomplete : A new search has been performed"
               (set_options [] (with_inputEl text s))))).
Proof.
  intros Htext. unfold handle, _onInput.
  set (s0 := set_options [] (with_inputEl text s)).
  assert (_inputEl s0 = text) as -> by done. by rewrite Htext.
Qed.

Lemma Input_empty_handle text (s : State OptionValue) :
  truthy_string text = false ->
  handle (Input text) s = _onClear (set_options [] (with_inputEl text s)).
Proof. intros Htext. unfold handle. by rewrite _onInput_empty. Qed.

Lemma _onClear_updates (s : State OptionValue) : updates (_onClear s) <> [].
Proof.
  destruct (_onClear_fields s) as (_ & _ & _ & _ & _ & _ & _ & -> & _).
  by destruct (updates s).
Qed.

Lemma _navigateToOption_content newIndex (s : State OptionValue) :
  _inputEl (_navigateToOption newIndex s) = _inputEl s /\
  _clearEl (_navigateToOption newIndex s) = _clearEl s /\
  _value (_navigateToOption newIndex s) = _value s /\
  _options (_navigateToOption newIndex s) = _options s /\
  _open (_navigateToOption newIndex s) = _open s /\
  updates (_navigateToOption newIndex s) = updates s /\
  dispatched (_navigateToOption newIndex s) = dispatched s.
Proof.
  by destruct (_navigateToOption_result newIndex s) as [-> | (k & o & -> & _)].
Qed.

Lemma handle_clear_control_ok e (s : State OptionValue) :
  updates (handle e s) = [] -> clear_control_ok s -> clear_control_ok (handle e s).
Proof.
  intros Hup Hs. destruct e.
  - destruct (truthy_string text) eqn:Htext.
    + rewrite Input_text_handle by done. apply _updateClearElVisibility_ok.
    + rewrite Input_empty_handle in Hup |- * by done. by apply _onClear_updates in Hup.
  - by eapply clear_control_ok_element; [apply _onClear_element |].
  - unfold handle, _onKeydown. destruct (_ || _); [done |].
    destruct key; [| | | | done].
    + destruct (_navigateToOption_content (_activeOptionIndex s + 1) s)
        as (E1 & E2 & E3 & _). by eapply clear_control_ok_content.
    + destruct (_navigateToOption_content (_activeOptionIndex s - 1) s)
        as (E1 & E2 & E3 & _). by eapply clear_control_ok_content.
    + by eapply clear_control_ok_element; [apply _selectOption_element_all |].
    + destruct (set_open_fields false s) as (_ & _ & _ & _ & E5 & E6 & E7 & _).
      by eapply clear_control_ok_content.
  - destruct (set_open_fields contains s) as (_ & _ & _ & _ & E5 & E6 & E7 & _).
    by eapply clear_control_ok_content.
  - by eapply clear_control_ok_element; [apply _selectOption_element_all |].
  - done.
  - destruct (set_options_fields val s) as (_ & _ & _ & _ & E5 & E6 & E7 & _).
    by eapply clear_control_ok_content.
  - by eapply clear_control_ok_element; [apply tick_element |].
  - unfold handle, resolved. destruct (fetches s !! i) as [f |]; [| done].
    destruct (settled f); [done |].
    match goal with |- clear_control_ok (set_options ?v ?x) =>
      destruct (set_options_fields v x) as (_ & _ & _ & _ & E5 & E6 & E7 & _) end.
    by eapply clear_control_ok_content.
  - by eapply clear_control_ok_element; [apply rejected_element |].
  - by eapply clear_control_ok_element; [apply abort_element |].
Qed.

(** X2. In every state the element reaches, the clear control, when there
    is one, is hidden exactly when the committed value is not truthy and the
    field holds no text. *)
Theorem reachable_clear_control_ok (s : State OptionValue) :
  reachable s -> clear_control_ok s.
Proof.
  apply reachable_invariant.
  - intros text clearEl.
    destruct (connected_element text clearEl) as (E1 & _ & E3 & _ & _ & _ & E7).
    unfold clear_control_ok. rewrite E1, E3, E7.
    destruct clearEl; [| done]. by intros hidden [= <-].
  - intros s0 e _ Hs0. unfold step.
    destruct (flush_cases (handle e s0)) as [[Hup ->] | (evt & s1 & ->)].
    + by apply handle_clear_control_ok.
    + apply value_updated_after.
Qed.

(** ** Keyboard navigation *)

(** Going backward over a run of disabled options [k+1 .. newIndex] that
    begins after an option [k] that is not disabled: the call lands on [k]. *)
Lemma nav_backward_lands fuel : forall newIndex (s : State OptionValue) k,
  newIndex < _activeOptionIndex s -> 0 <= k <= newIndex ->
  newIndex <= Z.of_nat (length (_options s)) - 1 ->
  (forall i, k < i <= newIndex ->
     exists o, _options s !! Z.to_nat i = Some o /\ disabled o = true) ->
  (exists o, _options s !! Z.to_nat k = Some o /\ disabled o = false) ->
  newIndex - k < Z.of_nat fuel ->
  _navigateToOption_rec fuel newIndex s = Some (with_activeOptionIndex k s).
Proof.
  induction fuel as [| fuel IH]; intros newIndex s k Hlt Hk Hlen Hrun Hend Hfuel;
    [lia |].
  rewrite nav_step_backward by done.
  destruct Hend as (ok & Hok & Hen).
  destruct (Z.ltb_spec newIndex 0); [lia |].
  rewrite Z.gtb_ltb.
  destruct (Z.ltb_spec (Z.of_nat (length (_options s)) - 1) newIndex); [lia |].
  destruct (Z.eq_dec newIndex k) as [-> | Hne].
  - by rewrite Hok, Hen.
  - destruct (Hrun newIndex) as (o & -> & ->); [lia |].
    apply IH; [lia | lia | lia | | eauto | lia].
    intros i Hi. apply Hrun. lia.
Qed.

(** With nothing but disabled options in the direction of travel, a call
    changes nothing. *)
Lemma _navigateToOption_blocked newIndex (s : State OptionValue) :
  no_enabled_ahead newIndex s -> _navigateToOption newIndex s = s.
Proof.
  intros Hblk. apply _navigateToOption_unfold.
  destruct (Z.lt_trichotomy newIndex (_activeOptionIndex s)) as [Hlt | [Heq | Hgt]].
  - destruct (Z.ltb_spec newIndex 0) as [Hneg | Hnn].
    { simpl. by destruct (Z.ltb_spec newIndex 0); [| lia]. }
    destruct (Z.ltb_spec (Z.of_nat (length (_options s)) - 1) newIndex) as [Hout | Hin].
    { rewrite nav_step_backward by done.
      destruct (newIndex <? 0); [done |]. rewrite Z.gtb_ltb.
      by destruct (Z.ltb_spec (Z.of_nat (length (_options s)) - 1) newIndex); [| lia]. }
    apply nav_backward_blocked; [lia .. | done].
  - simpl. destruct (newIndex <? 0); [done |].
    by destruct (Z.eqb_spec newIndex (_activeOptionIndex s)).
  - destruct (Z.ltb_spec newIndex 0) as [Hneg | Hnn].
    { simpl. by destruct (Z.ltb_spec newIndex 0); [| lia]. }
    apply nav_forward_blocked; [lia .. | done].
Qed.

(** A key pressed on an open list, between two tasks: the task is the
    handler, for the keys that assign no value. *)
Lemma step_Keydown_open key (s : State OptionValue) :
  reachable s -> _open s = true ->
  _options s <> [] /\
  (key <> Enter -> step s (Keydown key) =
     match key with
     | ArrowDown => _navigateToOption (_activeOptionIndex s + 1) s
     | ArrowUp => _navigateToOption (_activeOptionIndex s - 1) s
     | Escape => set_open false s
     | _ => s
     end).
Proof.
  intros Hreach Hopen.
  destruct (reachable_invariant _ connected_display_ok step_display_ok s Hreach) as (_ & Hne & _).
  specialize (Hne Hopen). split; [done |]. intros Hkey.
  pose proof (reachable_updates s Hreach) as Hup.
  unfold step, handle, _onKeydown. rewrite Hopen.
  apply nonempty_true in Hne. rewrite Hne. cbn [negb orb].
  destruct key; try done; apply flush_idle; try done.
  - by destruct (_navigateToOption_content (_activeOptionIndex s + 1) s)
      as (_ & _ & _ & _ & _ & -> & _).
  - by destruct (_navigateToOption_content (_activeOptionIndex s - 1) s)
      as (_ & _ & _ & _ & _ & -> & _).
Qed.

(** X3. ArrowDown on an open list makes active the first option after the
    active one that is not disabled, and changes nothing else; when every
    option after the active one is disabled (or there is none, as at the
    last option) it changes nothing at all: it neither wraps nor clears the
    highlight. *)
Theorem ArrowDown_next_enabled (s : State OptionValue) :
  reachable s -> _open s = true ->
  (forall j o,
     _activeOptionIndex s < Z.of_nat j ->
     _options s !! j = Some o -> disabled o = false ->
     (forall i o', _activeOptionIndex s < Z.of_nat i -> (i < j)%nat ->
        _options s !! i = Some o' -> disabled o' = true) ->
     step s (Keydown ArrowDown) = with_activeOptionIndex (Z.of_nat j) s) /\
  ((forall i o, _activeOptionIndex s < Z.of_nat i ->
      _options s !! i = Some o -> disabled o = true) ->
   step s (Keydown ArrowDown) = s).
Proof.
  intros Hreach Hopen.
  destruct (step_Keydown_open ArrowDown s Hreach Hopen) as [_ ->]; [| done].
  destruct (reachable_invariant _ connected_display_ok step_display_ok s Hreach) as (_ & _ & _ & Hact).
  split.
  - intros j o Hj Ho Hen Hrun.
    apply _navigateToOption_unfold.
    assert (j < length (_options s))%nat as Hlen by (by eapply lookup_lt_Some).
    apply nav_forward_lands; [lia | lia | | | lia].
    + intros i Hi.
      destruct (lookup_lt_is_Some_2 (_options s) (Z.to_nat i)) as [o' Ho']; [lia |].
      exists o'. split; [done |]. apply (Hrun (Z.to_nat i)); [lia | lia | done].
    + exists o. by rewrite Nat2Z.id.
  - intros Hrun. apply _navigateToOption_blocked.
    intros i o. destruct (decide _) as [_ | Hno]; [| lia].
    intros Hi. unfold at_index. destruct (Z.ltb_spec i 0); [done |].
    intros Ho. apply (Hrun (Z.to_nat i)); [lia | done].
Qed.

(** X4. ArrowUp on an open list whose active index is within the list makes
    active the last option before the active one that is not disabled, and
    changes nothing else; when every option before the active one is
    disabled (or there is none, as at the first option or with no active
    option) it changes nothing at all. *)
Theorem ArrowUp_previous_enabled (s : State OptionValue) :
  reachable s -> _open s = true ->
  (forall j o,
     _activeOptionIndex s <= Z.of_nat (length (_options s)) ->
     Z.of_nat j < _activeOptionIndex s ->
     _options s !! j = Some o -> disabled o = false ->
     (forall i o', (j < i)%nat -> Z.of_nat i < _activeOptionIndex s ->
        _options s !! i = Some o' -> disabled o' = true) ->
     step s (Keydown ArrowUp) = with_activeOptionIndex (Z.of_nat j) s) /\
  ((forall i o, Z.of_nat i < _activeOptionIndex s ->
      _options s !! i = Some o -> disabled o = true) ->
   step s (Keydown ArrowUp) = s).
Proof.
  intros Hreach Hopen.
  destruct (step_Keydown_open ArrowUp s Hreach Hopen) as [_ ->]; [| done].
  split.
  - intros j o Hin Hj Ho Hen Hrun.
    apply _navigateToOption_unfold.
    apply nav_backward_lands; [lia | lia | lia | | | lia].
    + intros i Hi.
      destruct (lookup_lt_is_Some_2 (_options s) (Z.to_nat i)) as [o' Ho']; [lia |].
      exists o'. split; [done |]. apply (Hrun (Z.to_nat i)); [lia | lia | done].
    + exists o. by rewrite Nat2Z.id.
  - intros Hrun. apply _navigateToOption_blocked.
    intros i o. destruct (decide _) as [Hno | _]; [lia |].
    intros Hi. unfold at_index. destruct (Z.ltb_spec i 0); [done |].
    intros Ho. apply (Hrun (Z.to_nat i)); [lia | done].
Qed.

(** ** Selecting, closing, reopening *)

Lemma flush_set_value_idle val (s : State OptionValue) :
  updates s = [] ->
  flush (set_value val s) =
    value_updated (mkEvent val (hostPrevents val)) (with_updates [] (set_value val s)).
Proof. intros Hup. rewrite flush_set_value. by rewrite Hup. Qed.

(** The task of an assignment to [value], in a state with no callback
    waiting. *)
Lemma assigned_fields val (s : State OptionValue) :
  updates s = [] ->
  let s' := flush (set_value val s) in
  dispatched s' = dispatched s ++ [mkEvent val (hostPrevents val)] /\
  _value s' = (if hostPrevents val then None else val) /\
  _inputEl s' = (if hostPrevents val then EmptyString
                 else fieldText (dataToOption val)) /\
  _options s' = [] /\ _open s' = false /\ _activeOptionIndex s' = -1 /\
  ariaExpanded s' = false /\ updates s' = [] /\
  coordination s' = coordination s /\ now s' = now s /\
  clear_control_ok s'.
Proof.
  intros Hup. cbv zeta.
  destruct (flush_environment (set_value val s)) as (_ & _ & _ & _ & _ & _ & F7 & _ & F9).
  pose proof (same_environment_coordination _ _ (flush_environment (set_value val s))) as Hco.
  pose proof (flush_updates (set_value val s)) as Hup'.
  rewrite flush_set_value_idle in * by done.
  set (evt := mkEvent val (hostPrevents val)) in *.
  set (s0 := with_updates [] (set_value val s)) in *.
  destruct (value_updated_element evt s0) as (E1 & E2 & E3 & E4 & E5).
  destruct (value_updated_after evt s0) as (E6 & E7).
  cbn zeta in *. rewrite E1, E2, E3, E4, E5, E6, F7, F9, Hco.
  by repeat split.
Qed.

(** A click inside the element changes nothing of a list that is empty and
    closed, and nothing of a list that is open. *)
Lemma set_open_settled val (s : State OptionValue) :
  _options s = [] -> _open s = false -> ariaExpanded s = false ->
  _activeOptionIndex s = -1 -> set_open val s = s.
Proof.
  destruct s as [ac ie ce op va os ai ae tm ab cs ts ti nw us fs ds].
  cbn. intros -> -> -> ->. unfold set_open. cbn. by rewrite andb_false_r.
Qed.

Lemma step_DocumentClick_settled contains (s : State OptionValue) :
  updates s = [] -> _options s = [] -> _open s = false ->
  ariaExpanded s = false -> _activeOptionIndex s = -1 ->
  step s (DocumentClick contains) = s.
Proof.
  intros Hup Hopts Hopen Haria Hact. unfold step, handle, _handleClickOutside.
  rewrite set_open_settled by done. by apply flush_idle.
Qed.

Lemma step_DocumentClick_open (s : State OptionValue) :
  reachable s -> _open s = true -> step s (DocumentClick true) = s.
Proof.
  intros Hreach Hopen.
  destruct (reachable_invariant _ connected_display_ok step_display_ok s Hreach)
    as (Haria & Hne & _).
  pose proof (reachable_updates s Hreach) as Hup.
  pose proof (proj2 (nonempty_true _) (Hne Hopen)) as Hnon.
  unfold step, handle, _handleClickOutside.
  assert (set_open true s = s) as ->; [| by apply flush_idle].
  destruct s as [ac ie ce op va os ai ae tm ab cs ts ti nw us fs ds].
  cbn in *. unfold set_open. cbn. rewrite Hnon. cbn. by subst.
Qed.


(** X6. What changes nothing at all, neither an event nor the value nor the
    list.  A click on an item of the open list whose option is disabled:
    the listener of the item does nothing and the listener on the document
    leaves an open list as it is.  (Were the list closed, the click would do
    what any click inside the element does.)  Enter while the active index
    designates no option or a disabled one.  Any key while the list is
    closed. *)
Theorem select_noop (s : State OptionValue) :
  reachable s ->
  (forall i, match _options s !! i with
             | Some o => disabled o = true
             | None => True
             end ->
     click_item i s = step s (DocumentClick true) /\
     (_open s = true -> click_item i s = s)) /\
  (match at_index (_options s) (_activeOptionIndex s) with
   | Some o => disabled o = true
   | None => True
   end -> step s (Keydown Enter) = s) /\
  (_open s = false -> forall key, step s (Keydown key) = s).
Proof.
  intros Hreach. pose proof (reachable_updates s Hreach) as Hup.
  split; [| split].
  - intros i Hi.
    assert (step s (OptionClick i) = s) as Hitem.
    { unfold step, handle, _selectOption.
      destruct (_options s !! i) as [o |]; [rewrite Hi |]; by apply flush_idle. }
    unfold click_item. rewrite Hitem. split; [done |].
    by apply step_DocumentClick_open.
  - intros Hact. unfold step, handle, _onKeydown, _selectOption.
    destruct (_ || _); [by apply flush_idle |].
    destruct (at_index _ _) as [o |]; [rewrite Hact |]; by apply flush_idle.
  - intros Hopen key. unfold step, handle, _onKeydown. rewrite Hopen.
    rewrite orb_true_r. by apply flush_idle.
Qed.

(** X7. Escape on an open list and a click outside the element do the
    same: the list is closed and its highlight removed, while the options,
    the committed value, the field's text, the events dispatched and the
    bookkeeping of fetches stay as they were.  The options being kept, a
    later click inside the element opens the same list again, with no
    active option. *)
Theorem Escape_closes_click_reopens (s : State OptionValue) :
  reachable s -> _open s = true ->
  step s (Keydown Escape) = step s (DocumentClick false) /\
  let s1 := step s (Keydown Escape) in
  (_open s1 = false /\ _activeOptionIndex s1 = -1 /\ _options s1 = _options s /\
   _value s1 = _value s /\ _inputEl s1 = _inputEl s /\
   dispatched s1 = dispatched s /\ coordination s1 = coordination s) /\
  let s2 := step s1 (DocumentClick true) in
  _open s2 = true /\ _activeOptionIndex s2 = -1 /\ _options s2 = _options s.
Proof.
  intros Hreach Hopen.
  pose proof (reachable_updates s Hreach) as Hup.
  destruct (step_Keydown_open Escape s Hreach Hopen) as [Hne ->]; [| done].
  assert (step s (DocumentClick false) = set_open false s) as ->.
  { unfold step, handle, _handleClickOutside. apply flush_idle.
    by destruct (set_open_fields false s) as (_ & _ & _ & _ & _ & _ & _ & ->). }
  split; [done |]. cbv zeta.
  destruct (set_open_fields false s) as (E1 & _ & E3 & E4 & E5 & E6 & _ & E8).
  cbv zeta in E1, E3. cbn [andb] in E1, E3.
  destruct (set_open_environment false s) as (_ & _ & _ & _ & _ & _ & _ & _ & F9).
  pose proof (same_environment_coordination _ _ (set_open_environment false s)) as Hco.
  split; [by repeat split |].
  assert (step (set_open false s) (DocumentClick true) = set_open true (set_open false s))
    as ->.
  { unfold step, handle, _handleClickOutside. apply flush_idle.
    destruct (set_open_fields true (set_open false s)) as (_ & _ & _ & _ & _ & _ & _ & ->).
    congruence. }
  destruct (set_open_fields true (set_open false s)) as (G1 & _ & G3 & G4 & _).
  cbv zeta in G1, G3. rewrite E4 in G1, G3.
  apply nonempty_true in Hne. rewrite Hne in G1, G3. cbn [andb] in G1, G3.
  rewrite G1, G3, G4, E3, E4. done.
Qed.

(** ** What each event leaves alone *)

Lemma trigger_fields (s s' : State OptionValue) :
  trigger s' = trigger s ->
  timer s' = timer s /\ timeouts s' = timeouts s /\
  timeoutIds s' = timeoutIds s /\ now s' = now s.
Proof. unfold trigger. by intros [= -> -> -> ->]. Qed.

Lemma same_environment_trigger (s s' : State OptionValue) :
  same_environment s s' -> trigger s' = trigger s.
Proof. unfold same_environment, trigger. intros Henv. destruct_and!. congruence. Qed.

Lemma abort_trigger reason (s : State OptionValue) :
  trigger (abort reason s) = trigger s /\ notified (abort reason s) = notified s.
Proof.
  unfold abort. destruct (_abortController s) as [c |]; [| done].
  by destruct (aborted s !! c).
Qed.

Lemma _selectOption_trigger option (s : State OptionValue) :
  trigger (_selectOption option s) = trigger s.
Proof. unfold _selectOption. destruct option as [o |]; [| done]. by destruct (disabled o). Qed.

Lemma _navigateToOption_trigger newIndex (s : State OptionValue) :
  trigger (_navigateToOption newIndex s) = trigger s /\
  notified (_navigateToOption newIndex s) = notified s.
Proof.
  by destruct (_navigateToOption_result newIndex s) as [-> | (k & o & -> & _)].
Qed.

Lemma set_open_notified val (s : State OptionValue) :
  notified (set_open val s) = notified s.
Proof. unfold set_open. by destruct (negb _). Qed.

Lemma set_options_notified val (s : State OptionValue) :
  notified (set_options val s) = notified s.
Proof. unfold set_options. by rewrite set_open_notified. Qed.

Lemma settled_fields i (s : State OptionValue) :
  trigger (rejected i s) = trigger s /\ notified (rejected i s) = notified s /\
  trigger (resolved i [] s) = trigger s /\
  (forall data, trigger (resolved i data s) = trigger s /\
                notified (resolved i data s) = notified s /\
                _value (resolved i data s) = _value s /\
                _inputEl (resolved i data s) = _inputEl s).
Proof.
  unfold rejected, resolved. destruct (fetches s !! i) as [f |]; [| done].
  destruct (settled f); [done |].
  repeat split;
    try (rewrite (same_environment_trigger _ _ (set_options_environment _ _)); done);
    try (rewrite set_options_notified; done).
  - by destruct (set_options_fields (map (fun d => dataToOption (Some d)) data)
      (with_fetches (<[i:=mkFetch (query f) (signal f) true]> (fetches s)) s))
      as (_ & _ & _ & _ & -> & _).
  - by destruct (set_options_fields (map (fun d => dataToOption (Some d)) data)
      (with_fetches (<[i:=mkFetch (query f) (signal f) true]> (fetches s)) s))
      as (_ & _ & _ & _ & _ & -> & _).
Qed.

Lemma fired_notified (due : list (nat * nat)) : forall s : State OptionValue,
  notified (foldl (fun acc _ => _onInputChange acc) s due) = notified s.
Proof. induction due as [| t due IH]; intros s; cbn; [done |]. by rewrite IH. Qed.

Lemma tick_notified (s : State OptionValue) : notified (tick s) = notified s.
Proof. unfold tick. by rewrite fired_notified. Qed.

Lemma notified_fields (s s' : State OptionValue) :
  notified s' = notified s -> dispatched s' = dispatched s /\ updates s' = updates s.
Proof. unfold notified. by intros [= -> ->]. Qed.

(** A handler that assigns no value dispatches nothing, leaves no callback
    waiting and keeps the committed value. *)
Lemma handle_no_assignment e (s : State OptionValue) :
  coordinated s -> assigns e = false ->
  notified (handle e s) = notified s /\ _value (handle e s) = _value s.
Proof.
  intros Hco He. destruct e; try discriminate He.
  - cbn in He. apply negb_false_iff in He.
    destruct (Input_text_fields text s He (one_trigger s Hco))
      as (_ & _ & _ & _ & _ & _ & _ & E8 & E9 & _ & _ & _ & _ & E14 & _).
    cbn zeta in *. unfold notified. by rewrite E8, E9, E14.
  - unfold handle, _onKeydown. destruct (_ || _); [done |].
    destruct key; try discriminate He; [| | | done].
    + destruct (_navigateToOption_trigger (_activeOptionIndex s + 1) s) as [_ ->].
      by destruct (_navigateToOption_content (_activeOptionIndex s + 1) s)
        as (_ & _ & -> & _).
    + destruct (_navigateToOption_trigger (_activeOptionIndex s - 1) s) as [_ ->].
      by destruct (_navigateToOption_content (_activeOptionIndex s - 1) s)
        as (_ & _ & -> & _).
    + rewrite set_open_notified.
      by destruct (set_open_fields false s) as (_ & _ & _ & _ & -> & _).
  - unfold handle, _handleClickOutside. rewrite set_open_notified.
    by destruct (set_open_fields contains s) as (_ & _ & _ & _ & -> & _).
  - unfold handle. rewrite set_options_notified.
    by destruct (set_options_fields val s) as (_ & _ & _ & _ & -> & _).
  - unfold handle. rewrite tick_notified.
    by destruct (element_fields _ _ (tick_element s)) as (_ & _ & _ & -> & _).
  - unfold handle. by destruct (settled_fields i s) as (_ & _ & _ & Hres);
      destruct (Hres data) as (_ & -> & -> & _).
  - unfold handle. destruct (settled_fields i s) as (_ & -> & _).
    by destruct (element_fields _ _ (rejected_element i s)) as (_ & _ & _ & -> & _).
  - unfold handle, disconnectedCallback.
    destruct (abort_trigger "ZAutocomplete is beeing destroyed" s) as [_ ->].
    by destruct (element_fields _ _ (abort_element "ZAutocomplete is beeing destroyed" s))
      as (_ & _ & _ & -> & _).
Qed.

(** X8. Only an assignment to [value] tells the host anything: typing text,
    moving the highlight, closing or opening the list, a list assigned or
    fetched, time passing, a fetch failing and teardown dispatch no event
    and leave the committed value as it was; the value committed before
    text is typed stays committed while the text changes. *)
Theorem only_assignments_notify (s : State OptionValue) (e : Event OptionValue) :
  reachable s -> assigns e = false ->
  dispatched (step s e) = dispatched s /\ _value (step s e) = _value s.
Proof.
  intros Hreach He.
  destruct (handle_no_assignment e s (reachable_coordinated s Hreach) He)
    as [Hnot Hval].
  destruct (notified_fields _ _ Hnot) as [Hd Hu].
  unfold step. rewrite flush_idle by (rewrite Hu; by apply reachable_updates).
  done.
Qed.

(** The pipeline of [_onInput] after the abort, on the fields it does not
    arm. *)
Lemma armed_others (s : State OptionValue) :
  let s' := _updateClearElVisibility
              (debounce debouceDelay (newAbortController s)) in
  aborted s' = aborted s /\ fetches s' = fetches s /\
  notified s' = notified s /\ now s' = now s /\
  _abortController s' = Some (controllers s) /\ controllers s' = S (controllers s).
Proof.
  destruct s as [ac ie ce op va os ai ae tm ab cs ts ti nw us fs ds].
  by destruct tm, ce.
Qed.

Lemma abort_keeps reason (s : State OptionValue) c r :
  aborted s !! c = Some r -> aborted (abort reason s) !! c = Some r.
Proof.
  intros Hc. unfold abort. destruct (_abortController s) as [c' |]; [| done].
  destruct (aborted s !! c') eqn:Hc'; [done |]. cbn.
  rewrite lookup_insert_ne; [done | congruence].
Qed.

Lemma fired_aborted (due : list (nat * nat)) : forall s : State OptionValue,
  aborted (foldl (fun acc _ => _onInputChange acc) s due) = aborted s /\
  controllers (foldl (fun acc _ => _onInputChange acc) s due) = controllers s /\
  _abortController (foldl (fun acc _ => _onInputChange acc) s due) =
    _abortController s.
Proof.
  induction due as [| t due IH]; intros s; cbn; [done |].
  by destruct (IH (_onInputChange s)) as (-> & -> & ->).
Qed.

Lemma coordination_fields (s s' : State OptionValue) :
  coordination s' = coordination s ->
  _abortController s' = _abortController s /\ timer s' = timer s /\
  aborted s' = aborted s /\ controllers s' = controllers s /\
  timeouts s' = timeouts s /\ fetches s' = fetches s.
Proof. unfold coordination. by intros [= -> -> -> -> -> ->]. Qed.

Lemma abort_source reason (s : State OptionValue) c :
  is_Some (aborted (abort reason s) !! c) ->
  is_Some (aborted s !! c) \/ _abortController s = Some c.
Proof.
  unfold abort. destruct (_abortController s) as [c' |]; [| by left].
  destruct (aborted s !! c') eqn:Hc'; [by left |]. cbn.
  destruct (decide (c' = c)) as [-> | Hne]; [by right |].
  rewrite lookup_insert_ne by done. by left.
Qed.

(** The controllers, event by event: only text typed creates one, only
    text typed, a clear and teardown abort one (the current one), and an
    abort never changes a reason already set. *)
Lemma handle_controllers e (s : State OptionValue) :
  (forall c r, aborted s !! c = Some r -> aborted (handle e s) !! c = Some r) /\
  (schedules e = false ->
   _abortController (handle e s) = _abortController s /\
   controllers (handle e s) = controllers s) /\
  (forall c, is_Some (aborted (handle e s) !! c) ->
     is_Some (aborted s !! c) \/ _abortController s = Some c) /\
  (controllers s <= controllers (handle e s))%nat.
Proof.
  destruct e; unfold handle.
  - destruct (truthy_string text) eqn:Htext.
    + change (_onInput (with_inputEl text s)) with (handle (Input text) s).
      rewrite Input_text_handle by done.
      set (s0 := set_options [] (with_inputEl text s)).
      set (reason := "ZAutocomplete : A new search has been performed").
      destruct (armed_others (abort reason s0)) as (-> & _ & _ & _ & _ & ->).
      destruct (abort_fields reason s0) as (_ & _ & -> & _).
      split; [intros c r Hc; by apply abort_keeps |].
      split; [by cbn; rewrite Htext |].
      split; [intros c Hc; apply (abort_source reason s0) in Hc; exact Hc | cbn; lia].
    + rewrite _onInput_empty by done.
      set (s0 := set_options [] (with_inputEl text s)).
      destruct (_onClear_fields s0) as (E1 & E2 & _).
      rewrite E1, E2. unfold _onClear.
      split; [intros c r Hc; by apply abort_keeps |].
      split; [done |].
      split; [| done]. intros c Hc.
      change (aborted (set_value ?v ?x)) with (aborted x) in Hc.
      apply abort_source in Hc. exact Hc.
  - destruct (_onClear_fields s) as (E1 & E2 & _).
    rewrite E1, E2. unfold _onClear.
    split; [intros c r Hc; by apply abort_keeps |].
    split; [done |].
    split; [| done]. intros c Hc.
    change (aborted (set_value ?v ?x)) with (aborted x) in Hc.
    by apply abort_source in Hc.
  - pose proof (_onKeydown_coordination key s) as Hco.
    destruct (coordination_fields _ _ Hco) as (-> & _ & -> & -> & _). repeat split; eauto.
  - unfold _handleClickOutside.
    pose proof (same_environment_coordination _ _ (set_open_environment contains s)) as Hco.
    destruct (coordination_fields _ _ Hco) as (-> & _ & -> & -> & _). repeat split; eauto.
  - pose proof (_selectOption_coordination (_options s !! index) s) as Hco.
    destruct (coordination_fields _ _ Hco) as (-> & _ & -> & -> & _). repeat split; eauto.
  - cbn. repeat split; eauto.
  - pose proof (same_environment_coordination _ _ (set_options_environment val s)) as Hco.
    destruct (coordination_fields _ _ Hco) as (-> & _ & -> & -> & _). repeat split; eauto.
  - unfold tick.
    match goal with |- context [foldl _ ?s0 ?due] =>
      destruct (fired_aborted due s0) as (-> & -> & ->) end.
    cbn. repeat split; eauto.
  - unfold resolved. destruct (fetches s !! i) as [f |]; [| repeat split; eauto].
    destruct (settled f); [repeat split; eauto |].
    match goal with |- context [set_options ?v ?x] =>
      pose proof (same_environment_coordination _ _ (set_options_environment v x)) as Hco
    end.
    destruct (coordination_fields _ _ Hco) as (-> & _ & -> & -> & _). cbn. repeat split; eauto.
  - unfold rejected. destruct (fetches s !! i) as [f |]; [| repeat split; eauto].
    destruct (settled f); cbn; repeat split; eauto.
  - unfold disconnectedCallback.
    destruct (abort_fields "ZAutocomplete is beeing destroyed" s) as (-> & _ & -> & _).
    split; [intros c r Hc; by apply abort_keeps |].
    split; [done |].
    split; [intros c Hc; by apply abort_source in Hc | done].
Qed.

(** X9. Once aborted, a signal stays aborted with the reason of its first
    abort, whatever happens afterwards. *)
Theorem abort_reason_stable (s : State OptionValue) (es : list (Event OptionValue))
  (c : nat) (reason : string) :
  aborted s !! c = Some reason -> aborted (run s es) !! c = Some reason.
Proof.
  intros Hc. induction es as [| e es IH] using rev_ind; [done |].
  rewrite run_snoc. unfold step.
  destruct (flush_environment (handle e (run s es))) as (_ & _ & -> & _).
  by apply (handle_controllers e).
Qed.

(** The trigger, event by event: only text typed and time passing touch
    it. *)
Lemma handle_trigger e (s : State OptionValue) :
  schedules e = false -> trigger (handle e s) = trigger s.
Proof.
  intros He. destruct e; try discriminate He; unfold handle.
  - cbn in He. rewrite _onInput_empty by done. unfold _onClear.
    change (trigger (set_value ?v ?x)) with (trigger x).
    destruct (abort_trigger "ZAutocomplete [data-z-autocomplete-input] has been cleared."
      (set_options [] (with_inputEl text s))) as [-> _].
    by rewrite (same_environment_trigger _ _ (set_options_environment [] _)).
  - unfold _onClear. change (trigger (set_value ?v ?x)) with (trigger x).
    by destruct (abort_trigger
      "ZAutocomplete [data-z-autocomplete-input] has been cleared." s) as [-> _].
  - unfold _onKeydown. destruct (_ || _); [done |].
    destruct key; [| | | | done].
    + by destruct (_navigateToOption_trigger (_activeOptionIndex s + 1) s) as [-> _].
    + by destruct (_navigateToOption_trigger (_activeOptionIndex s - 1) s) as [-> _].
    + apply _selectOption_trigger.
    + apply same_environment_trigger, set_open_environment.
  - unfold _handleClickOutside. apply same_environment_trigger, set_open_environment.
  - apply _selectOption_trigger.
  - done.
  - apply same_environment_trigger, set_options_environment.
  - by destruct (settled_fields i s) as (_ & _ & _ & Hres); destruct (Hres data) as [-> _].
  - by destruct (settled_fields i s) as (-> & _).
  - unfold disconnectedCallback.
    by destruct (abort_trigger "ZAutocomplete is beeing destroyed" s) as [-> _].
Qed.

Lemma step_trigger e (s : State OptionValue) :
  schedules e = false ->
  trigger (step s e) = trigger s /\
  _abortController (step s e) = _abortController s /\
  controllers (step s e) = controllers s.
Proof.
  intros He. unfold step.
  rewrite (same_environment_trigger _ _ (flush_environment _)).
  destruct (flush_environment (handle e s)) as (-> & _ & _ & -> & _).
  split; [by apply handle_trigger |]. by apply (handle_controllers e s).
Qed.

(** X10. A pending trigger is cancelled by nothing but more text typed: a
    clear, a selection, a value or a list assigned, Escape, a click, a fetch
    settling and teardown all leave it pending, and when it falls due
    [fetchData] is called with the text the field holds by then and the
    current signal. *)
Theorem trigger_survives (s : State OptionValue) (e : Event OptionValue)
  (id due n : nat) :
  reachable s -> schedules e = false ->
  timeouts s = [(id, due)] -> (due <= now s + S n)%nat ->
  timeouts (step s e) = [(id, due)] /\
  fetches (advance (S n) (step s e)) =
    fetches (step s e) ++
      [mkFetch (_inputEl (step s e)) (_abortController s) false].
Proof.
  intros Hreach He Hts Hdue.
  destruct (step_trigger e s He) as (Htr & Hac & _).
  destruct (trigger_fields _ _ Htr) as (_ & Hts' & _ & Hnow).
  rewrite Hts' , Hts. split; [done |].
  rewrite (advance_fire n _ id due).
  - cbn. by rewrite Hac.
  - apply reachable_updates. by apply reachable_step.
  - congruence.
  - by rewrite Hnow.
Qed.

(** X11. The clear control and [clear()]: one event with detail [undefined]
    is dispatched, the current signal is aborted, and when the task ends
    nothing is committed, whether the event was cancelled or not; the list
    is empty and closed; the field is empty when the event was cancelled,
    and otherwise holds the text [dataToOption] gives for [undefined]; when
    [dataToOption] gives no option for [undefined] the field is empty in
    both cases and the clear control, if there is one, is hidden.  The
    trigger and the calls of [fetchData] are as they were. *)
Theorem clear_resets (s : State OptionValue) :
  reachable s ->
  let s' := step s ClearClick in
  dispatched s' = dispatched s ++ [mkEvent None (hostPrevents None)] /\
  _value s' = None /\
  (_options s' = [] /\ _open s' = false /\ _activeOptionIndex s' = -1) /\
  _inputEl s' = (if hostPrevents None then EmptyString
                 else fieldText (dataToOption None)) /\
  (forall c, _abortController s = Some c -> is_aborted c s' = true) /\
  (trigger s' = trigger s /\ fetches s' = fetches s) /\
  (dataToOption None = None ->
   _inputEl s' = EmptyString /\
   forall hidden, _clearEl s' = Some hidden -> hidden = true).
Proof.
  intros Hreach s'.
  pose proof (reachable_updates s Hreach) as Hup.
  set (reason := "ZAutocomplete [data-z-autocomplete-input] has been cleared.").
  assert (s' = flush (set_value None (abort reason s))) as Hs' by done.
  destruct (abort_trigger reason s) as [Htr Hnot].
  destruct (notified_fields _ _ Hnot) as [Hd Hu].
  destruct (abort_fields reason s) as (_ & _ & _ & _ & A5 & _ & Hcur).
  destruct (assigned_fields None (abort reason s)) as (B1 & B2 & B3 & B4 & B5 & B6 & _ & _ & B9 & _ & B11);
    [congruence |].
  cbn zeta in *. rewrite <- Hs' in *.
  destruct (coordination_fields _ _ B9) as (_ & _ & C3 & _ & _ & C6).
  destruct (step_trigger ClearClick s eq_refl) as (Htr' & _).
  split; [by rewrite B1, Hd |].
  split; [rewrite B2; by destruct (hostPrevents None) |].
  split; [done |]. split; [done |].
  split; [intros c Hc; apply bool_decide_eq_true; rewrite C3; by apply Hcur |].
  split; [split; [done | by rewrite C6] |].
  intros Hnone. rewrite Hnone in B3.
  assert (_inputEl s' = EmptyString) as Htext by (rewrite B3; by destruct (hostPrevents None)).
  split; [done |]. intros hidden Hh.
  rewrite (B11 hidden Hh), Htext, B2. by destruct (hostPrevents None).
Qed.

(** X12. The list is only ever changed wholesale.  An input event, whatever
    the text, leaves it empty and closed with no active option; and every
    event other than a fetch resolving or the host assigning a list leaves
    the options as they were or leaves none. *)
Theorem list_replaced_or_emptied (s : State OptionValue) :
  reachable s ->
  (forall text,
     _options (step s (Input text)) = [] /\ _open (step s (Input text)) = false /\
     _activeOptionIndex (step s (Input text)) = -1) /\
  (forall e, lists e = false ->
     _options (step s e) = _options s \/ _options (step s e) = []).
Proof.
  intros Hreach. split.
  - intros text. unfold step.
    destruct (flush_cases (handle (Input text) s)) as [[_ ->] | (evt & s1 & ->)].
    + apply _onInput_element.
    + by destruct (value_updated_element evt s1) as (-> & -> & -> & _).
  - intros e He. unfold step.
    destruct (flush_cases (handle e s)) as [[_ ->] | (evt & s1 & ->)];
      [| right; by destruct (value_updated_element evt s1) as (-> & _)].
    destruct e; try discriminate He; unfold handle.
    + right. apply _onInput_element.
    + left. by destruct (element_fields _ _ (_onClear_element s)) as (_ & _ & _ & _ & -> & _).
    + left. unfold _onKeydown. destruct (_ || _); [done |].
      destruct key; [| | | | done].
      * by destruct (_navigateToOption_content (_activeOptionIndex s + 1) s)
          as (_ & _ & _ & -> & _).
      * by destruct (_navigateToOption_content (_activeOptionIndex s - 1) s)
          as (_ & _ & _ & -> & _).
      * by destruct (element_fields _ _ (_selectOption_element_all
          (at_index (_options s) (_activeOptionIndex s)) s)) as (_ & _ & _ & _ & -> & _).
      * by destruct (set_open_fields false s) as (_ & _ & _ & -> & _).
    + left. unfold _handleClickOutside.
      by destruct (set_open_fields contains s) as (_ & _ & _ & -> & _).
    + left. by destruct (element_fields _ _ (_selectOption_element_all
        (_options s !! index) s)) as (_ & _ & _ & _ & -> & _).
    + by left.
    + left. by destruct (element_fields _ _ (tick_element s)) as (_ & _ & _ & _ & -> & _).
    + left. by destruct (element_fields _ _ (rejected_element i s)) as (_ & _ & _ & _ & -> & _).
    + left. unfold disconnectedCallback.
      by destruct (element_fields _ _ (abort_element
        "ZAutocomplete is beeing destroyed" s)) as (_ & _ & _ & _ & -> & _).
Qed.

(** X13. In every state the element reaches at most one trigger is
    pending; it is the one the debounce closure remembers, and it is due no
    earlier than now and no later than a full delay from now. *)
Theorem reachable_trigger_ok (s : State OptionValue) :
  reachable s -> trigger_ok s.
Proof.
  apply reachable_invariant.
  - intros text clearEl. left. unfold connected. by destruct clearEl.
  - intros s0 e Hreach Hs0.
    pose proof (reachable_updates s0 Hreach) as Hup.
    destruct (schedules e) eqn:He.
    + destruct e; try discriminate He.
      * cbn in He.
        destruct (Input_text_fields text s0 He
                    (one_trigger s0 (reachable_coordinated s0 Hreach)))
          as (_ & _ & E3 & E4 & _ & _ & E7 & _).
        cbn zeta in *.
        destruct (flush_environment (handle (Input text) s0))
          as (_ & F2 & _ & _ & F5 & _ & F7 & _).
        right. exists (timeoutIds s0), (now s0 + debouceDelay)%nat.
        unfold step. rewrite F2, F5, F7, E3, E4, E7. split; [done |]. split; [done | lia].
      * rewrite step_Tick by done.
        destruct Hs0 as [Hnil | (id & due & Hts & Htm & Hdue)].
        { rewrite tick_idle by eauto. by left. }
        destruct (decide (due <= S (now s0))%nat) as [Hfire | Hlater].
        { rewrite (tick_fire s0 id due) by done. by left. }
        rewrite tick_idle by (right; exists id, due; split; [done | lia]).
        right. exists id, due. cbn. split; [done |]. split; [done | lia].
    + destruct (step_trigger e s0 He) as (Htr & _).
      destruct (trigger_fields _ _ Htr) as (E1 & E2 & _ & E4).
      unfold trigger_ok. by rewrite E1, E2, E4.
Qed.

(** ** Signals *)

(** The signals given to [fetchData] so far, call by call: a task adds none,
    or, when the trigger fires, the current one. *)
Lemma step_signals e (s : State OptionValue) :
  reachable s ->
  signal <$> fetches (step s e) = signal <$> fetches s \/
  (timeouts s <> [] /\
   signal <$> fetches (step s e) = (signal <$> fetches s) ++ [_abortController s]).
Proof.
  intros Hreach.
  pose proof (reachable_coordinated s Hreach) as Hco.
  unfold step.
  destruct (flush_environment (handle e s)) as (_ & _ & _ & _ & _ & _ & _ & -> & _).
  destruct e; unfold handle.
  - left. destruct (truthy_string text) eqn:Htext.
    + change (_onInput (with_inputEl text s)) with (handle (Input text) s).
      by destruct (Input_text_fields text s Htext (one_trigger s Hco))
        as (_ & _ & _ & _ & _ & -> & _).
    + rewrite _onInput_empty by done.
      by destruct (_onClear_fields (set_options [] (with_inputEl text s)))
        as (_ & _ & _ & _ & _ & -> & _).
  - left. by destruct (_onClear_fields s) as (_ & _ & _ & _ & _ & -> & _).
  - left. by destruct (coordination_fields _ _ (_onKeydown_coordination key s))
      as (_ & _ & _ & _ & _ & ->).
  - left. unfold _handleClickOutside.
    by destruct (set_open_environment contains s) as (_ & _ & _ & _ & _ & _ & _ & -> & _).
  - left. by destruct (coordination_fields _ _
      (_selectOption_coordination (_options s !! index) s)) as (_ & _ & _ & _ & _ & ->).
  - by left.
  - left. by destruct (set_options_environment val s) as (_ & _ & _ & _ & _ & _ & _ & -> & _).
  - destruct (one_trigger s Hco) as [Hnil | (id & due & Hts & Htm)].
    + left. by rewrite tick_idle by eauto.
    + destruct (decide (due <= S (now s))%nat) as [Hfire | Hlater].
      * right. split; [by rewrite Hts |].
        rewrite (tick_fire s id due) by done. cbn. by rewrite fmap_app.
      * left. by rewrite tick_idle by (right; exists id, due; split; [done | lia]).
  - left. unfold resolved. destruct (fetches s !! i) as [f |] eqn:Hi; [| done].
    destruct (settled f); [done |].
    match goal with |- context [set_options ?v ?x] =>
      destruct (set_options_environment v x) as (_ & _ & _ & _ & _ & _ & _ & -> & _) end.
    cbn. rewrite list_fmap_insert. cbn. apply list_insert_id.
    by rewrite list_lookup_fmap, Hi.
  - left. unfold rejected. destruct (fetches s !! i) as [f |] eqn:Hi; [| done].
    destruct (settled f); [done |].
    cbn. rewrite list_fmap_insert. cbn. apply list_insert_id.
    by rewrite list_lookup_fmap, Hi.
  - left. unfold disconnectedCallback.
    by destruct (abort_fields "ZAutocomplete is beeing destroyed" s)
      as (_ & _ & _ & _ & -> & _).
Qed.

(** X14. No two calls of [fetchData] are given the same signal, and at any
    time at most one fetch is pending with a signal that is not aborted:
    every other pending fetch has been told, through its signal, that it is
    superseded. *)
Theorem one_live_fetch (s : State OptionValue) :
  reachable s ->
  NoDup (signal <$> fetches s) /\
  (forall i j f g, pending s i f -> pending s j g -> live s f -> live s g -> i = j).
Proof.
  intros Hreach.
  assert (NoDup (signal <$> fetches s)) as Hnd.
  { revert s Hreach. apply reachable_invariant.
    - intros text clearEl. unfold connected. destruct clearEl; cbn; constructor.
    - intros s e Hreach Hs.
      destruct (step_signals e s Hreach) as [-> | [Hts ->]]; [done |].
      apply NoDup_app. split; [done |]. split; [| apply NoDup_singleton].
      intros x (f & -> & Hf)%list_elem_of_fmap Heq%list_elem_of_singleton.
      by apply (controller_unused s (reachable_coordinated s Hreach) Hts f). }
  split; [done |].
  intros i j f g [Hi Hf] [Hj Hg] Hlf Hlg.
  pose proof (reachable_coordinated s Hreach) as Hco.
  assert (forall k h, pending s k h -> live s h -> signal h = _abortController s) as Hcur.
  { intros k h Hh Hlive.
    destruct (signal_tracked s Hco k h Hh) as (c & Hc & [Hab | Hc']); [| congruence].
    specialize (Hlive c Hc). apply bool_decide_eq_false in Hlive. done. }
  apply (NoDup_lookup _ i j (_abortController s) Hnd).
  - rewrite list_lookup_fmap, Hi. cbn. f_equal. by apply (Hcur i).
  - rewrite list_lookup_fmap, Hj. cbn. f_equal. by apply (Hcur j).
Qed.

(** Controllers are aborted only after they are created. *)
Lemma reachable_aborted_created (s : State OptionValue) :
  reachable s -> forall c, is_Some (aborted s !! c) -> (c < controllers s)%nat.
Proof.
  apply (reachable_invariant
           (fun s => forall c, is_Some (aborted s !! c) -> (c < controllers s)%nat)).
  - intros text clearEl c. unfold connected. destruct clearEl; cbn;
      rewrite lookup_empty; by intros [? ?].
  - intros s0 e Hreach Hs0 c. unfold step.
    destruct (flush_environment (handle e s0)) as (_ & _ & -> & -> & _).
    destruct (handle_controllers e s0) as (_ & _ & Hsrc & Hgrow).
    intros [Hc | Hc]%Hsrc.
    + specialize (Hs0 c Hc). lia.
    + pose proof (controller_created s0 (reachable_coordinated s0 Hreach) c Hc). lia.
Qed.

(** X15. Text typed replaces the controller: the signal of the previous one
    is aborted, the new one is distinct from it and not aborted, and unless
    something else happens first the fetch started once the delay has passed
    is called with the text typed and that new signal, still not aborted. *)
Theorem typing_renews_signal (s : State OptionValue) (text : string) (n : nat) :
  reachable s -> truthy_string text = true -> (debouceDelay <= S n)%nat ->
  let s1 := step s (Input text) in
  exists c,
    _abortController s1 = Some c /\ is_aborted c s1 = false /\
    (forall c', _abortController s = Some c' ->
       c' <> c /\ is_aborted c' s1 = true) /\
    fetches (advance (S n) s1) = fetches s ++ [mkFetch text (Some c) false] /\
    is_aborted c (advance (S n) s1) = false.
Proof.
  intros Hreach Htext Hn s1.
  pose proof (reachable_coordinated s Hreach) as Hco.
  pose proof (reachable_updates s Hreach) as Hup.
  destruct (Input_text_fields text s Htext (one_trigger s Hco))
    as (E1 & E2 & E3 & E4 & _ & E6 & E7 & E8 & _ & E10 & _ & _ & _ & _ & _ & Hcur).
  destruct (handle_controllers (Input text) s) as (_ & _ & Hsrc & _).
  cbn zeta in *.
  assert (s1 = handle (Input text) s) as Hs1.
  { subst s1. unfold step. apply flush_idle. congruence. }
  rewrite <- Hs1 in *. clearbody s1. clear Hs1.
  assert (is_aborted (controllers s) s1 = false) as Hfresh.
  { apply bool_decide_eq_false. intros Hab.
    destruct (Hsrc _ Hab) as [Hold | Hold].
    - pose proof (reachable_aborted_created s Hreach _ Hold). lia.
    - pose proof (controller_created s Hco _ Hold). lia. }
  exists (controllers s).
  split; [done |]. split; [done |]. split.
  - intros c' Hc'. split.
    + pose proof (controller_created s Hco _ Hc'). lia.
    + apply bool_decide_eq_true. by apply Hcur.
  - rewrite (advance_fire n s1 (timeoutIds s) (now s + debouceDelay)%nat);
      [| congruence | done | rewrite E7; lia].
    split.
    + cbn. by rewrite E6, E10, E1.
    + exact Hfresh.
Qed.

(** ** The rendered list *)

Lemma render_lookup (s : State OptionValue) i item :
  (render s).2 !! i = Some item ->
  exists o, _options s !! i = Some o /\ item = _renderOption o i s.
Proof.
  unfold render. cbn [snd]. rewrite list_lookup_imap.
  destruct (_options s !! i) as [o |]; [| done].
  intros [= <-]. by exists o.
Qed.

(** X16. What [render] shows mirrors the state the element has reached:
    the list is hidden exactly when [aria-expanded] is false; there is one
    item per option, in order, numbered by its position, with the option's
    label and its disabled flag; a click on the item number [i] is the
    [_selectOption] of the option at [i]; at most one item is
    [aria-selected], the one at the active index; and a hidden list has no
    selected item. *)
Theorem render_mirrors_state (s : State OptionValue) :
  reachable s ->
  (render s).1 = negb (ariaExpanded s) /\
  length (render s).2 = length (_options s) /\
  (forall i item, (render s).2 !! i = Some item ->
     dataIndex item = i /\
     _options s !! i = Some (onClick item) /\
     content item = label (onClick item) /\
     ariaDisabled item = disabled (onClick item) /\
     (ariaSelected item = true <-> _activeOptionIndex s = Z.of_nat i) /\
     flush (_selectOption (Some (onClick item)) s) = step s (OptionClick i)) /\
  (forall i j a b,
     (render s).2 !! i = Some a -> (render s).2 !! j = Some b ->
     ariaSelected a = true -> ariaSelected b = true -> i = j) /\
  ((render s).1 = true ->
   forall item, item ∈ (render s).2 -> ariaSelected item = false).
Proof.
  intros Hreach.
  destruct (reachable_invariant _ connected_display_ok step_display_ok s Hreach) as (Haria & _ & Hclosed & _).
  assert (forall i item, (render s).2 !! i = Some item ->
            (ariaSelected item = true <-> _activeOptionIndex s = Z.of_nat i)) as Hsel.
  { intros i item (o & _ & ->)%render_lookup. cbn. rewrite Z.eqb_eq. split; by intros ->. }
  split; [by rewrite Haria |]. split; [apply length_imap |].
  split; [| split].
  - intros i item Hitem. split_and!; [.. | by apply Hsel |].
    all: destruct (render_lookup s i item Hitem) as (o & Ho & ->); cbn; try done.
    unfold step, handle. by rewrite Ho.
  - intros i j a b Ha Hb Hsa Hsb.
    apply (Hsel i a Ha) in Hsa. apply (Hsel j b Hb) in Hsb. lia.
  - intros Hhidden item (i & Hitem)%list_elem_of_lookup_1.
    destruct (ariaSelected item) eqn:Hs; [| done].
    apply (Hsel i item Hitem) in Hs. cbn in Hhidden. apply negb_true_iff in Hhidden.
    rewrite Hclosed in Hs by done. lia.
Qed.

(** X17. The [part] of a rendered item is "options-item", followed by
    "options-item--active" when the item is the selected one and by
    "options-item--disabled" when its option is disabled, separated by
    single spaces, with no space before or after. *)
Theorem render_part (s : State OptionValue) (i : nat) (item : ListItem) :
  (render s).2 !! i = Some item ->
  part item =
    "options-item" +:+
    (if ariaSelected item then " options-item--active" else EmptyString) +:+
    (if ariaDisabled item then " options-item--disabled" else EmptyString).
Proof.
  intros (o & _ & ->)%render_lookup. unfold _renderOption. cbn.
  by destruct (_ =? _), (disabled o).
Qed.

(** ** A host that keeps the class's [dataToOption] *)

(** The task in which the promise of a pending call resolves. *)
Lemma resolved_fields i f data (s : State OptionValue) :
  updates s = [] -> pending s i f ->
  let val := map (fun d => dataToOption (Some d)) data in
  _options (step s (Resolve i data)) = omap id val /\
  _open (step s (Resolve i data)) = nonempty val && nonempty (omap id val) /\
  _activeOptionIndex (step s (Resolve i data)) =
    (if nonempty val && nonempty (omap id val) then _activeOptionIndex s else -1) /\
  updates (step s (Resolve i data)) = [] /\
  dispatched (step s (Resolve i data)) = dispatched s.
Proof.
  intros Hup [Hi Hf]. cbv zeta. unfold step, handle, resolved. rewrite Hi, Hf.
  match goal with |- context [set_options ?v ?x] =>
    destruct (set_options_fields v x) as (E1 & _ & E3 & E4 & _ & _ & _ & E8);
    pose proof (set_options_notified v x) as Hn end.
  apply notified_fields in Hn. destruct Hn as [Hn _].
  rewrite flush_idle by (by rewrite E8).
  by rewrite E1, E3, E4, E8, Hn.
Qed.

(** X18. With the [dataToOption] of the class, what a fetch resolves with
    comes back unchanged from a selection: every datum becomes an option
    that is not disabled, in the order of the data and with [String(data)]
    as label, none is dropped, and the list opens when there is a datum;
    clicking the option number [k] then dispatches one event carrying the
    datum number [k] and, unless a listener cancels it, commits that datum
    and shows [String(data)] in the field.  With the [fetchData] of the
    class as well, the list stays empty and closed. *)
Theorem default_options_round_trip (toString : OptionValue -> string)
  (s : State OptionValue) (i : nat) (f : Fetch) (data : list OptionValue) :
  (forall d, dataToOption d = ZAutocomplete_dataToOption toString d) ->
  reachable s -> pending s i f ->
  let s1 := step s (Resolve i data) in
  _options s1 =
    map (fun d => mkOption (LabelText (toString d)) None (Some d) false) data /\
  _open s1 = nonempty data /\
  (forall k d, data !! k = Some d ->
     let s2 := step s1 (OptionClick k) in
     dispatched s2 = dispatched s ++ [mkEvent (Some d) (hostPrevents (Some d))] /\
     (hostPrevents (Some d) = false ->
      _value s2 = Some d /\ _inputEl s2 = toString d)) /\
  (data = ZAutocomplete_fetchData (query f) (signal f) ->
   _options s1 = [] /\ _open s1 = false).
Proof.
  intros Hdefault Hreach Hpending s1.
  pose proof (reachable_updates s Hreach) as Hup.
  destruct (resolved_fields i f data s Hup Hpending) as (E1 & E2 & _ & E3 & E4).
  cbv zeta in E1, E2, E3, E4. fold s1 in E1, E2, E3, E4.
  assert (omap id (map (fun d => dataToOption (Some d)) data) =
          map (fun d => mkOption (LabelText (toString d)) None (Some d) false) data)
    as Hmap.
  { clear -Hdefault. induction data as [| d data IH]; [done |].
    cbn. rewrite Hdefault. cbn. by rewrite IH. }
  rewrite Hmap in E1, E2.
  assert (_open s1 = nonempty data) as Hopen.
  { rewrite E2. unfold nonempty. rewrite !length_map. by destruct (length data). }
  split; [done |]. split; [done |]. split.
  - intros k d Hk s2.
    assert (_options s1 !! k =
            Some (mkOption (LabelText (toString d)) None (Some d) false)) as Ho.
    { rewrite E1, list_lookup_fmap. by rewrite Hk. }
    assert (s2 = flush (set_value (Some d) s1)) as ->.
    { subst s2. unfold step at 1. unfold handle. by rewrite Ho. }
    destruct (assigned_fields (Some d) s1 E3) as (A1 & A2 & A3 & _).
    cbv zeta in A1, A2, A3. rewrite A1, A2, A3, E4. split; [done |].
    intros ->. split; [done |]. by rewrite Hdefault.
  - unfold ZAutocomplete_fetchData. intros ->. by rewrite E1, Hopen.
Qed.

(** ** The light-DOM version *)

Lemma LightDom_set_open_fields val (s : State OptionValue) :
  let o := val && nonempty (_options s) in
  _open (LightDom.set_open val s) = o /\
  ariaExpanded (LightDom.set_open val s) = o /\
  _activeOptionIndex (LightDom.set_open val s) = _activeOptionIndex s /\
  _options (LightDom.set_open val s) = _options s /\
  _value (LightDom.set_open val s) = _value s /\
  _inputEl (LightDom.set_open val s) = _inputEl s /\
  _clearEl (LightDom.set_open val s) = _clearEl s /\
  dispatched (LightDom.set_open val s) = dispatched s /\
  coordination (LightDom.set_open val s) = coordination s.
Proof.
  cbv zeta. unfold LightDom.set_open. cbn.
  by rewrite negb_orb, !negb_involutive.
Qed.

Lemma LightDom__clearOptions_fields (s : State OptionValue) :
  _open (LightDom._clearOptions s) = false /\
  ariaExpanded (LightDom._clearOptions s) = false /\
  _activeOptionIndex (LightDom._clearOptions s) = -1 /\
  _options (LightDom._clearOptions s) = [] /\
  _value (LightDom._clearOptions s) = _value s /\
  _inputEl (LightDom._clearOptions s) = _inputEl s /\
  _clearEl (LightDom._clearOptions s) = _clearEl s /\
  dispatched (LightDom._clearOptions s) = dispatched s /\
  coordination (LightDom._clearOptions s) = coordination s.
Proof. done. Qed.

Lemma LightDom_set_value_fields val (s : State OptionValue) :
  let s' := LightDom.set_value val s in
  _value s' = val /\ _inputEl s' = fieldText (dataToOption val) /\
  (_options s' = [] /\ _open s' = false /\ ariaExpanded s' = false /\
   _activeOptionIndex s' = -1) /\
  dispatched s' = dispatched s ++ [mkEvent val false] /\
  clear_control_ok s' /\
  coordination s' = coordination s.
Proof.
  cbv zeta. unfold LightDom.set_value.
  set (s0 := LightDom._clearOptions _).
  assert (_value s0 = val /\ _inputEl s0 = fieldText (dataToOption val) /\
          _options s0 = [] /\ _open s0 = false /\ ariaExpanded s0 = false /\
          _activeOptionIndex s0 = -1 /\ dispatched s0 = dispatched s /\
          coordination s0 = coordination s) as (E1 & E2 & E3 & E4 & E5 & E6 & E7 & E8)
    by done.
  clearbody s0.
  pose proof (_updateClearElVisibility_ok s0) as Hok.
  destruct (_updateClearElVisibility_element s0) as (F1 & F2 & F3 & F4 & F5).
  pose proof (_updateClearElVisibility_environment s0) as Henv.
  set (s1 := _updateClearElVisibility s0) in *.
  assert (ariaExpanded s1 = ariaExpanded s0) as F6.
  { subst s1. unfold _updateClearElVisibility. by destruct (_clearEl s0). }
  pose proof (same_environment_coordination _ _ Henv) as Hco.
  destruct Henv as (_ & _ & _ & _ & _ & _ & _ & _ & G9).
  clearbody s1. cbn.
  rewrite F1, F2, F3, F4, F5, F6, G9, E1, E2, E3, E4, E5, E6, E7.
  split_and!; try done.
  by rewrite <- E8, <- Hco.
Qed.

(** X19. In the light-DOM version an assignment to [value] is complete when
    it returns: the value is committed and can be read back at once, the
    field holds the text of its option, the list is empty and hidden with no
    active option, the clear control is hidden exactly when there is neither
    a truthy value nor text, and one event carrying the value has been
    dispatched, which no listener can cancel. *)
Theorem LightDom_value_committed_at_once (val : option OptionValue)
  (s : State OptionValue) :
  let s' := LightDom.handle (AssignValue val) s in
  _value s' = val /\ _inputEl s' = fieldText (dataToOption val) /\
  (_options s' = [] /\ _open s' = false /\ ariaExpanded s' = false /\
   _activeOptionIndex s' = -1) /\
  dispatched s' = dispatched s ++ [mkEvent val false] /\
  clear_control_ok s'.
Proof.
  destruct (LightDom_set_value_fields val s) as (E1 & E2 & E3 & E4 & E5 & _).
  done.
Qed.

Lemma LightDom__onClear_fields (s : State OptionValue) :
  _value (LightDom._onClear s) = None /\
  _inputEl (LightDom._onClear s) = fieldText (dataToOption None) /\
  (_options (LightDom._onClear s) = [] /\ _open (LightDom._onClear s) = false /\
   ariaExpanded (LightDom._onClear s) = false /\
   _activeOptionIndex (LightDom._onClear s) = -1) /\
  dispatched (LightDom._onClear s) = dispatched s ++ [mkEvent None false] /\
  clear_control_ok (LightDom._onClear s).
Proof.
  unfold LightDom._onClear.
  set (s0 := abort _ s).
  assert (dispatched s0 = dispatched s) as Hd
    by apply (abort_others _ s).
  clearbody s0.
  destruct (LightDom_set_value_fields None s0) as (E1 & E2 & E3 & E4 & E5 & _).
  cbv zeta in E1, E2, E3, E4, E5. by rewrite <- Hd.
Qed.

Lemma LightDom__onInput_empty (s : State OptionValue) :
  truthy_string (_inputEl s) = false ->
  LightDom._onInput s = LightDom._onClear (LightDom._clearOptions s).
Proof.
  intros Htext. unfold LightDom._onInput.
  set (s0 := LightDom._clearOptions s).
  assert (_inputEl s0 = _inputEl s) as -> by apply (LightDom__clearOptions_fields s).
  by rewrite Htext.
Qed.

(** X20. In the light-DOM version, with the [dataToOption] of the class,
    clearing writes the text "undefined" into the field: after a click on
    the clear control, and after an input event that leaves the field empty,
    no value is committed, the field reads "undefined", the clear control,
    when there is one, is shown, and one event with detail [undefined] has
    been dispatched. *)
Theorem LightDom_clear_writes_undefined (toString : OptionValue -> string)
  (s : State OptionValue) (e : Event OptionValue) :
  (forall d, dataToOption d = LightDom.ZAutocomplete_dataToOption toString d) ->
  e = ClearClick \/ e = Input EmptyString ->
  let s' := LightDom.handle e s in
  _value s' = None /\ _inputEl s' = "undefined" /\
  (forall hidden, _clearEl s' = Some hidden -> hidden = false) /\
  dispatched s' = dispatched s ++ [mkEvent None false].
Proof.
  intros Hdefault He s'.
  assert (exists s0, s' = LightDom._onClear s0 /\ dispatched s0 = dispatched s)
    as (s0 & Hs' & Hd).
  { destruct He as [-> | ->]; subst s'.
    - by exists s.
    - exists (LightDom._clearOptions (with_inputEl EmptyString s)). split.
      + unfold LightDom.handle. by apply LightDom__onInput_empty.
      + apply (LightDom__clearOptions_fields (with_inputEl EmptyString s)). }
  clearbody s'. subst s'.
  destruct (LightDom__onClear_fields s0) as (E1 & E2 & _ & E4 & E5).
  rewrite Hdefault in E2. change (fieldText _) with "undefined" in E2.
  rewrite <- Hd. split_and!; try done.
  intros hidden Hh. apply E5 in Hh. by rewrite E1, E2 in Hh.
Qed.

Lemma LightDom_display_ok_fields (s s' : State OptionValue) :
  _open s' = _open s -> ariaExpanded s' = ariaExpanded s -> _options s' = _options s ->
  LightDom.display_ok s -> LightDom.display_ok s'.
Proof. unfold LightDom.display_ok. by intros -> -> ->. Qed.

Lemma LightDom_display_ok_closed (s : State OptionValue) :
  _open s = false -> ariaExpanded s = false -> LightDom.display_ok s.
Proof. unfold LightDom.display_ok. by intros -> ->. Qed.

Lemma LightDom_set_open_display_ok val (s : State OptionValue) :
  LightDom.display_ok (LightDom.set_open val s).
Proof.
  destruct (LightDom_set_open_fields val s) as (E1 & E2 & _ & E4 & _).
  unfold LightDom.display_ok. rewrite E1, E2, E4. split; [done |].
  intros [_ Hne]%andb_true_iff. by apply nonempty_true.
Qed.

Lemma LightDom_set_options_display_ok val (s : State OptionValue) :
  LightDom.display_ok (LightDom.set_options val s).
Proof. apply LightDom_set_open_display_ok. Qed.

Lemma LightDom_set_value_display_ok val (s : State OptionValue) :
  LightDom.display_ok (LightDom.set_value val s).
Proof.
  destruct (LightDom_set_value_fields val s) as (_ & _ & (_ & E1 & E2 & _) & _).
  by apply LightDom_display_ok_closed.
Qed.

Lemma LightDom__selectOption_display_ok option (s : State OptionValue) :
  LightDom.display_ok s -> LightDom.display_ok (LightDom._selectOption option s).
Proof.
  intros Hs. unfold LightDom._selectOption. destruct option as [o |]; [| done].
  destruct (disabled o); [done |]. apply LightDom_set_value_display_ok.
Qed.

Lemma armed_display (s : State OptionValue) :
  let s' := _updateClearElVisibility
              (debounce debouceDelay (newAbortController s)) in
  _open s' = _open s /\ ariaExpanded s' = ariaExpanded s /\ _options s' = _options s.
Proof.
  destruct s as [ac ie ce op va os ai ae tm ab cs ts ti nw us fs ds].
  by destruct tm, ce.
Qed.

Lemma LightDom__onInput_display_ok (s : State OptionValue) :
  LightDom.display_ok (LightDom._onInput s).
Proof.
  unfold LightDom._onInput.
  set (s0 := LightDom._clearOptions s).
  assert (_open s0 = false /\ ariaExpanded s0 = false) as [E1 E2] by done.
  clearbody s0. destruct (negb _).
  - apply LightDom_set_value_display_ok.
  - match goal with |- context [abort ?r s0] =>
      pose proof (abort_element r s0) as He; set (s1 := abort r s0) in * end.
    apply element_fields in He. destruct He as (_ & _ & F1 & _ & _ & _ & F2).
    clearbody s1. destruct (armed_display s1) as (G1 & G2 & _). cbv zeta in G1, G2.
    apply LightDom_display_ok_closed; congruence.
Qed.

Lemma LightDom_handle_display_ok e (s : State OptionValue) :
  LightDom.display_ok s -> LightDom.display_ok (LightDom.handle e s).
Proof.
  intros Hs. destruct e.
  - apply LightDom__onInput_display_ok.
  - apply LightDom_set_value_display_ok.
  - unfold LightDom.handle, LightDom._onKeydown. destruct (_ || _); [done |].
    destruct key; [| | | done | done].
    + by destruct (_navigateToOption_result (_activeOptionIndex s + 1) s)
        as [-> | (k & o & -> & _)].
    + by destruct (_navigateToOption_result (_activeOptionIndex s - 1) s)
        as [-> | (k & o & -> & _)].
    + by apply LightDom__selectOption_display_ok.
  - apply LightDom_set_open_display_ok.
  - by apply LightDom__selectOption_display_ok.
  - apply LightDom_set_value_display_ok.
  - apply LightDom_set_options_display_ok.
  - pose proof (tick_element s) as He. apply element_fields in He.
    destruct He as (_ & _ & F1 & _ & F3 & _ & F2).
    by eapply LightDom_display_ok_fields.
  - unfold LightDom.handle, LightDom.resolved.
    destruct (fetches s !! i) as [f |]; [| done]. destruct (settled f); [done |].
    apply LightDom_set_options_display_ok.
  - pose proof (rejected_element i s) as He. apply element_fields in He.
    destruct He as (_ & _ & F1 & _ & F3 & _ & F2).
    by eapply LightDom_display_ok_fields.
  - pose proof (abort_element "ZAutocomplete is beeing destroyed" s) as He.
    apply element_fields in He.
    destruct He as (_ & _ & F1 & _ & F3 & _ & F2).
    by eapply LightDom_display_ok_fields.
Qed.

Lemma LightDom_connected_display_ok text clearEl :
  LightDom.display_ok (connected (OptionValue := OptionValue) text clearEl).
Proof.
  destruct (connected_element text clearEl) as (_ & E2 & _ & E4 & _ & E6 & _).
  apply LightDom_display_ok_closed; [exact E2 | exact E6].
Qed.

(** Induction on the tasks that led to a state. *)
Lemma LightDom_reachable_invariant (P : State OptionValue -> Prop) :
  (forall text clearEl, P (connected text clearEl)) ->
  (forall e s, P s -> P (LightDom.handle e s)) ->
  forall s, LightDom.reachable s -> P s.
Proof.
  intros Hinit Hstep s (text & clearEl & es & ->).
  induction es as [| e es IH] using rev_ind; [apply Hinit |].
  unfold LightDom.run in *. rewrite foldl_snoc. by apply Hstep.
Qed.

(** X21. In every state the light-DOM version reaches, [aria-expanded]
    tells whether the list is shown, and a list that is shown has at least
    one option. *)
Theorem LightDom_reachable_display_ok (s : State OptionValue) :
  LightDom.reachable s -> LightDom.display_ok s.
Proof.
  apply LightDom_reachable_invariant.
  - apply LightDom_connected_display_ok.
  - apply LightDom_handle_display_ok.
Qed.

(** X22. In the light-DOM version closing the list does not remove the
    highlight: Escape does nothing to a list that is shown; a click outside
    the element hides the list and leaves the options and the active index
    as they were, and a click inside the element then brings back the very
    state there was before, highlight included. *)
Theorem LightDom_highlight_survives_closing (s : State OptionValue) :
  LightDom.reachable s -> _open s = true ->
  LightDom.handle (Keydown Escape) s = s /\
  let s1 := LightDom.handle (DocumentClick false) s in
  (_open s1 = false /\ ariaExpanded s1 = false /\
   _activeOptionIndex s1 = _activeOptionIndex s /\ _options s1 = _options s) /\
  LightDom.handle (DocumentClick true) s1 = s.
Proof.
  intros Hreach Hopen.
  destruct (LightDom_reachable_invariant _ LightDom_connected_display_ok
              LightDom_handle_display_ok s Hreach) as [Haria Hne].
  pose proof (proj2 (nonempty_true _) (Hne Hopen)) as Hnon. rewrite Hopen in Haria.
  split; [| split].
  - unfold LightDom.handle, LightDom._onKeydown. by destruct (_ || _).
  - done.
  - destruct s as [ac ie ce op va os ai ae tm ab cs ts ti nw us fs ds].
    cbn in *. unfold LightDom._handleClickOutside, LightDom.set_open. cbn.
    rewrite Hnon. cbn. by subst.
Qed.

(** ** The first version *)

(** X23. [clamp] keeps its result between [min] and [max] and returns a
    number in that range unchanged, except 0, for which it returns [min]
    whatever the range. *)
Theorem clamp_zero_is_min (nb min max : Z) :
  min <= max ->
  min <= FirstVersion.clamp nb min max <= max /\
  (nb <> 0 -> min <= nb <= max -> FirstVersion.clamp nb min max = nb) /\
  FirstVersion.clamp 0 min max = min.
Proof.
  intros Hle. unfold FirstVersion.clamp. split_and!.
  - destruct (nb =? 0); lia.
  - destruct (nb =? 0); lia.
  - intros Hnb Hin. apply Z.eqb_neq in Hnb. rewrite Hnb. lia.
  - cbn. lia.
Qed.

(** X24. In the first version the arrow keys move the highlight by one and
    remove it at the ends of the list: ArrowDown on the last option and
    ArrowUp on the first leave no option active, and from no active option
    either key makes the first option active. *)
Theorem navigateToNextOption_cycles (length : nat) (active : option Z) :
  (0 < length)%nat ->
  (forall a, active = Some a -> 0 <= a < Z.of_nat length) ->
  FirstVersion._navigateToNextOption 1 active length =
    match active with
    | None => Some 0
    | Some a => if decide (a = Z.of_nat length - 1) then None else Some (a + 1)
    end /\
  FirstVersion._navigateToNextOption (-1) active length =
    match active with
    | None => Some 0
    | Some a => if decide (a = 0) then None else Some (a - 1)
    end.
Proof.
  intros Hlen Hactive. unfold FirstVersion._navigateToNextOption, FirstVersion.clamp.
  destruct active as [a |]; cbn [default from_option id].
  - specialize (Hactive a eq_refl). split.
    + destruct (Z.eqb_spec (a + 1) 0); [lia |].
      destruct (decide (a = Z.of_nat length - 1)) as [Hlast | Hlast].
      * rewrite decide_True; [done | f_equal; lia].
      * rewrite decide_False by (intros [= Heq]; lia). f_equal. lia.
    + destruct (Z.eqb_spec (a + -1) 0);
        (destruct (decide (a = 0)) as [Hfirst | Hfirst];
         [rewrite decide_True; [done | f_equal; lia]
         | rewrite decide_False by (intros [= Heq]; lia); f_equal; lia]).
  - split; rewrite decide_False by done; f_equal;
      match goal with |- context [?x =? 0] => destruct (Z.eqb_spec x 0) end; lia.
Qed.

End Properties.

(** ** Concrete runs on the demo host *)

Import Demo.

Lemma start_reachable (es : list (Event nat)) : reachable (run start es).
Proof. by exists EmptyString, true, es. Qed.

(** C2, as stated, at a concrete assignment: the listener does not cancel
    the value [7], and the committed value read back after the assignment is
    not [7] but still [undefined]. *)
Lemma C2_read_after_assignment :
  hostPrevents (Some 7%nat) = false /\
  _value (set_value (Some 7%nat) start) = None /\
  _value (set_value (Some 7%nat) start) <> Some 7%nat.
Proof. vm_compute. repeat split; congruence. Qed.

Lemma C2_value_after_update_witness :
  _value (flush (set_value (Some 7%nat) start)) = Some 7%nat /\
  _value (flush (set_value (Some 5%nat) start)) = None.
Proof.
  split.
  - apply (C2_value_after_update (Some 7%nat) start). vm_compute. reflexivity.
  - apply (C2_value_after_update (Some 5%nat) start). vm_compute. reflexivity.
Defined.

(** Two titles, then an item: from "none", the first ArrowDown lands on the
    item. *)
Lemma C3_navigate_skips_disabled_prefix_witness :
  let s := run start [AssignOptions [Some (title 1); Some (title 4); Some (item 2)]] in
  _activeOptionIndex s = -1 /\
  _activeOptionIndex (_navigateToOption 0 s) = 2.
Proof.
  set (s := run start [AssignOptions [Some (title 1); Some (title 4); Some (item 2)]]).
  assert (_activeOptionIndex s = -1) as Hact by (vm_compute; reflexivity).
  assert (_options s = [title 1; title 4; item 2]) as Hopts by (vm_compute; reflexivity).
  split; [exact Hact |].
  apply (C3_navigate_skips_disabled_prefix s 2%nat Hact).
  - rewrite Hopts. cbn. lia.
  - rewrite Hopts. intros [| [| [| i]]] o; cbn; intros [= <-]; reflexivity.
Defined.

(** A list of titles only: the target is disabled and so is everything
    after it; the call returns and the active index is still "none". *)
Lemma C8_navigate_terminates_witness :
  let s := run start [AssignOptions [Some (title 1); Some (title 4)]] in
  no_enabled_ahead 0 s /\
  _navigateToOption 0 s = s /\ _activeOptionIndex (_navigateToOption 0 s) = -1.
Proof.
  set (s := run start [AssignOptions [Some (title 1); Some (title 4)]]).
  assert (_activeOptionIndex s = -1) as Hact by (vm_compute; reflexivity).
  assert (_options s = [title 1; title 4]) as Hopts by (vm_compute; reflexivity).
  assert (no_enabled_ahead 0 s) as Hblk.
  { intros i o _. rewrite Hopts. unfold at_index. destruct (i <? 0); [done |].
    destruct (Z.to_nat i) as [| [| [| n]]]; cbn; intros [= <-]; reflexivity. }
  split; [exact Hblk |].
  destruct (C8_navigate_terminates 0 s) as (s' & _ & -> & Hsame).
  destruct (Hsame Hblk) as [-> _]. split; [reflexivity | exact Hact].
Defined.

(** The value 7 is committed, "a" is typed, the trigger fires and the fetch
    is pending, and the host assigns a list; then the field is emptied. *)
Lemma C6_empty_input_clears_witness :
  let s := run start [AssignValue (Some 7%nat); Input "a"; Tick; Tick; Tick;
                      AssignOptions [Some (item 1); Some (item 2)]] in
  (_value s = Some 7%nat /\ _options s = [item 1; item 2] /\ _open s = true /\
   fetches s = [mkFetch "a" (Some 0%nat) false] /\ is_aborted 0 s = false) /\
  is_aborted 0 (step s (Input EmptyString)) = true /\
  fetches (step s (Input EmptyString)) = fetches s /\
  timeouts (step s (Input EmptyString)) = [] /\
  _value (step s (Input EmptyString)) = None /\
  _options (step s (Input EmptyString)) = [] /\
  _open (step s (Input EmptyString)) = false.
Proof.
  set (s := run start _).
  destruct (C6_empty_input_clears s)
    as (_ & (Hts & _ & Hfs) & _ & _ & Hab & _ & Hval & Hopts & Hopen).
  assert (fetches s = [mkFetch "a" (Some 0%nat) false]) as Hs
    by (vm_compute; reflexivity).
  split; [vm_compute; repeat split; reflexivity |].
  split; [| split; [exact Hfs | split; [| split; [exact Hval | split;
    [exact Hopts | exact Hopen]]]]].
  - destruct (Hab (start_reachable _) 0%nat (mkFetch "a" (Some 0%nat) false))
      as (c & reason & Hc & Hr).
    { split; [rewrite Hfs, Hs |]; reflexivity. }
    injection Hc as <-. apply bool_decide_eq_true. eauto.
  - rewrite Hts. vm_compute. reflexivity.
Defined.

(** C1, as stated, at a concrete pair of fetches.  "a" is typed and fetch A
    starts; "ab" is typed, which aborts A's signal, and fetch B starts; B
    resolves with [2], then A with [1]: the option list is A's result. *)
Lemma C1_superseded_result_applied :
  let s := run start [Input "a"; Tick; Tick; Tick; Input "ab"; Tick; Tick; Tick] in
  fetches s = [mkFetch "a" (Some 0%nat) false; mkFetch "ab" (Some 1%nat) false] /\
  is_aborted 0 s = true /\ is_aborted 1 s = false /\
  _options (run s [Resolve 1 [2%nat]]) = [item 2] /\
  _options (run s [Resolve 1 [2%nat]; Resolve 0 [1%nat]]) = [item 1].
Proof. vm_compute. repeat split; congruence. Qed.

Lemma C1_resolved_result_is_applied_witness :
  let s := run start [Input "a"; Tick; Tick; Tick; Input "ab"; Tick; Tick] in
  fetches (step s Tick) = fetches s ++ [mkFetch "ab" (Some 1%nat) false] /\
  is_aborted 0 s = true /\
  _options (step s (Resolve 0 [1%nat])) = [item 1].
Proof.
  set (s := run start [Input "a"; Tick; Tick; Tick; Input "ab"; Tick; Tick]).
  destruct (C1_resolved_result_is_applied s (start_reachable _)) as (HB & Hres & _).
  assert (pending s 0 (mkFetch "a" (Some 0%nat) false)) as HA
    by (split; vm_compute; reflexivity).
  assert (fetches (step s Tick) = fetches s ++ [mkFetch "ab" (Some 1%nat) false])
    as Hstart by (vm_compute; reflexivity).
  split; [exact Hstart |]. split.
  - destruct (HB _ Hstart _ _ HA) as (c & Hc & Hab).
    injection Hc as <-. exact Hab.
  - rewrite (Hres _ _ [1%nat] HA). vm_compute. reflexivity.
Defined.

(** C4, as stated, at a concrete teardown.  "a" is typed and the element is
    disconnected before the trigger fires: the trigger is still pending, and
    when the delay has passed [fetchData] has been called. *)
Lemma C4_trigger_fires_after_teardown :
  let s := run start [Input "a"; Disconnect] in
  timeouts s = [(0%nat, 3%nat)] /\
  fetches s = [] /\
  fetches (advance 3 s) = [mkFetch "a" (Some 0%nat) false] /\
  timeouts s <> [] /\ fetches (advance 3 s) <> fetches s.
Proof. vm_compute. repeat split; congruence. Qed.

Lemma C4_teardown_leaves_trigger_witness :
  let s := run start [Input "a"] in
  timeouts (step s Disconnect) = [(0%nat, 3%nat)] /\
  is_aborted 0 (step s Disconnect) = true /\
  fetches (advance 3 (step s Disconnect)) = [mkFetch "a" (Some 0%nat) false].
Proof.
  set (s := run start [Input "a"]).
  destruct (C4_teardown_leaves_trigger s (start_reachable _)) as (Hts & _ & Hfire).
  assert (timeouts s = [(0%nat, 3%nat)]) as Hs by (vm_compute; reflexivity).
  split; [rewrite Hts; exact Hs |].
  destruct (Hfire 0%nat 3%nat 2%nat Hs) as (c & Hc & Hab & Hfs); [vm_compute; lia |].
  assert (c = 0%nat) as -> by (vm_compute in Hc; congruence).
  split; [exact Hab |]. rewrite Hfs. vm_compute. reflexivity.
Defined.

(** C5, as stated, at two concrete windows (the delay is 3).  One input
    event that leaves the field empty: no call of [fetchData] results,
    however long one waits.  And "a", the field emptied two units of time
    later, "b" two units after that: the emptying event does not re-arm the
    trigger of "a", which fires between the last two events with the field
    empty, and the trigger of "b" fires after them: two calls result, the
    first for the empty text. *)
Lemma C5_empty_input_no_fetch :
  let s := run start [Input EmptyString] in
  (fetches (advance 10 s) = [] /\ length (fetches (advance 10 s)) <> 1%nat) /\
  let t := run start (Input "a" :: typing [(2%nat, EmptyString); (2%nat, "b")]) in
  fetches (advance 10 t) =
    [mkFetch EmptyString (Some 0%nat) false; mkFetch "b" (Some 1%nat) false] /\
  length (fetches (advance 10 t)) <> 1%nat.
Proof. vm_compute. repeat split; congruence. Qed.

(** "ab", then "abc" one unit of time later: one call, for "abc". *)
Lemma C5_one_fetch_per_window_witness :
  let s1 := run start (Input "ab" :: typing [(1%nat, "abc")]) in
  fetches s1 = [] /\
  fetches (advance 3 s1) = [mkFetch "abc" (Some 1%nat) false].
Proof.
  set (s1 := run start (Input "ab" :: typing [(1%nat, "abc")])).
  assert (truthy_string "ab" = true) as Htext by reflexivity.
  assert (Forall (fun k : nat * string =>
                    (k.1 < debouceDelay)%nat /\ truthy_string k.2 = true)
            [(1%nat, "abc")]) as Hks.
  { constructor; [split; [vm_compute; lia | reflexivity] | constructor]. }
  assert (debouceDelay <= 3)%nat as Hn by (vm_compute; lia).
  destruct (C5_one_fetch_per_window start "ab" [(1%nat, "abc")] 2
              (start_reachable []) Htext Hks Hn)
    as (Hno & _ & Hone & _).
  split; [exact Hno |].
  fold s1 in Hone. rewrite Hone. vm_compute. reflexivity.
Defined.

(** C7 at a concrete state.  Two items are listed and ArrowDown is pressed
    twice: the second item is active.  A list of one item is then assigned
    to [options]: the list stays open, the active index stays 1, and there
    is no option at index 1.  The same happens without the host assigning
    anything, when the result of a second fetch replaces that of a first. *)
Theorem C7_active_index_outlives_its_list :
  let s := run start [AssignOptions [Some (item 1); Some (item 2)];
                      Keydown ArrowDown; Keydown ArrowDown] in
  let s' := step s (AssignOptions [Some (item 3)]) in
  (_activeOptionIndex s = 1 /\ active_valid s = true) /\
  (_options s' = [item 3] /\ _open s' = true /\ _activeOptionIndex s' = 1 /\
   at_index (_options s') (_activeOptionIndex s') = None /\
   active_valid s' = false) /\
  let t := run start [Input "a"; Tick; Tick; Tick; Input "ab"; Tick; Tick; Tick;
                      Resolve 0 [1%nat; 2%nat];
                      Keydown ArrowDown; Keydown ArrowDown] in
  let t' := step t (Resolve 1 [3%nat]) in
  active_valid t = true /\ _options t' = [item 3] /\
  _activeOptionIndex t' = 1 /\ active_valid t' = false.
Proof. vm_compute. repeat split; congruence. Qed.

(** ** The demo page *)

Section DemoPageProperties.

Variable delay : nat.

(** X25. A click on an item of the demo page, the listener of the item
    followed by the listener on the document.  On the item of a title the
    first does nothing, so that the click does what any click inside the
    element does, which is nothing when the list is open.  On any other item
    one event carrying the item of the data is dispatched and the list is
    left empty and closed, the listener on the document changing nothing
    more; for the item with [id] 5 the listener of the page cancels the
    event, so that nothing is committed and the field is emptied, and for
    every other item the item is committed and the field shows its
    [name]. *)
Theorem DemoPage_select (s : State DemoPage.OptionItem) (k : nat)
  (data : DemoPage.OptionItem) :
  reachable (theHost := DemoPage.host delay) s ->
  _options s !! k = dataToOption (Host := DemoPage.host delay) (Some data) ->
  let s' := click_item (theHost := DemoPage.host delay) k s in
  if DemoPage.isTitle data
  then
    s' = step (theHost := DemoPage.host delay) s (DocumentClick true) /\
    (_open s = true -> s' = s)
  else
    s' = step (theHost := DemoPage.host delay) s (OptionClick k) /\
    dispatched s' =
      dispatched s ++ [mkEvent (Some data) (Nat.eqb (DemoPage.id data) 5)] /\
    _options s' = [] /\ _open s' = false /\
    if Nat.eqb (DemoPage.id data) 5
    then _value s' = None /\ _inputEl s' = EmptyString
    else _value s' = Some data /\ _inputEl s' = DemoPage.name data.
Proof.
  intros Hreach Ho s'.
  pose proof (reachable_updates s Hreach) as Hup.
  assert (step (theHost := DemoPage.host delay) s (OptionClick k) =
          if DemoPage.isTitle data then s
          else flush (theHost := DemoPage.host delay)
                 (set_value (theHost := DemoPage.host delay) (Some data) s)) as Hitem.
  { unfold step, handle. rewrite Ho.
    cbn [dataToOption DemoPage.host _selectOption disabled value].
    destruct (DemoPage.isTitle data); [by apply flush_idle | done]. }
  subst s'. unfold click_item. rewrite Hitem.
  destruct (DemoPage.isTitle data) eqn:Htitle.
  - split; [done |]. by apply step_DocumentClick_open.
  - destruct (assigned_fields (theHost := DemoPage.host delay) (Some data) s Hup)
      as (A1 & A2 & A3 & A4 & A5 & A6 & A7 & A8 & _).
    cbv zeta in A1, A2, A3, A4, A5, A6, A7, A8.
    rewrite step_DocumentClick_settled by done.
    rewrite A1, A2, A3, A4, A5.
    cbn [hostPrevents DemoPage.host dataToOption].
    split_and!; try done.
    destruct (Nat.eqb _ 5); [done |]. split; [done |].
    unfold fieldText. cbn [inputValue label]. rewrite Htitle.
    by destruct (DemoPage.name data).
Qed.

(** X26. On the demo page, when the second a call of [fetchData] waits is
    over: if the signal of the call has been aborted the promise resolves
    with no data, and the element empties and closes its list, whatever it
    shows, and removes the highlight; otherwise the list opens on the twelve
    items, in order, of which those at the positions 0, 3 and 6 (the titles)
    are disabled, each carrying its item as value and the item's [name] as
    the text for the field; the active index is as it was. *)
Theorem DemoPage_fetch_settles (s : State DemoPage.OptionItem) (i : nat) (f : Fetch) :
  reachable (theHost := DemoPage.host delay) s -> pending s i f ->
  let s' :=
    step (theHost := DemoPage.host delay) s (Resolve i (DemoPage.fetchData f s)) in
  if DemoPage.signal_aborted f s
  then _options s' = [] /\ _open s' = false /\ _activeOptionIndex s' = -1
  else
    _open s' = true /\ _activeOptionIndex s' = _activeOptionIndex s /\
    length (_options s') = 12%nat /\
    forall k o, _options s' !! k = Some o ->
      disabled o = bool_decide (k ∈ [0; 3; 6]%nat) /\
      exists data, DemoPage.AUTOCOMPLETE_DATA !! k = Some data /\
        value o = Some data /\ inputValue o = Some (DemoPage.name data).
Proof.
  intros Hreach Hpending s'.
  pose proof (reachable_updates s Hreach) as Hup.
  destruct (resolved_fields (theHost := DemoPage.host delay) i f
              (DemoPage.fetchData f s) s Hup Hpending) as (E1 & E2 & E3 & _).
  cbv zeta in E1, E2, E3. fold s' in E1, E2, E3.
  unfold DemoPage.fetchData in E1, E2, E3.
  destruct (DemoPage.signal_aborted f s).
  - by rewrite E1, E2, E3.
  - rewrite E1, E2, E3. split_and!; try done.
    intros k o Hk.
    do 12 (destruct k as [| k];
           [injection Hk as <-; split; [done | eexists; split_and!; done] |]).
    done.
Qed.

End DemoPageProperties.

(** ** Concrete runs for the properties above *)

Lemma reachable_display_ok_witness :
  display_ok
    (run start [AssignOptions [Some (title 1); Some (item 2)]; Keydown ArrowDown]).
Proof. apply reachable_display_ok. apply start_reachable. Defined.

Lemma reachable_clear_control_ok_witness :
  clear_control_ok (run start [Input "a"]).
Proof. apply reachable_clear_control_ok. apply start_reachable. Defined.

(** A title, an item, a title, an item: ArrowDown from "none" lands on the
    first item. *)
Lemma ArrowDown_next_enabled_witness :
  let s := run start [AssignOptions [Some (title 1); Some (item 2);
                                     Some (title 4); Some (item 3)]] in
  _open s = true /\ step s (Keydown ArrowDown) = with_activeOptionIndex 1 s.
Proof.
  set (s := run start _).
  assert (_open s = true) as Hopen by (vm_compute; reflexivity).
  assert (_activeOptionIndex s = -1) as Hact by (vm_compute; reflexivity).
  assert (_options s = [title 1; item 2; title 4; item 3]) as Hopts
    by (vm_compute; reflexivity).
  split; [exact Hopen |].
  destruct (ArrowDown_next_enabled s (start_reachable _) Hopen) as [Hmove _].
  apply (Hmove 1%nat (item 2)).
  - rewrite Hact. lia.
  - rewrite Hopts. reflexivity.
  - reflexivity.
  - intros i o' _ Hi. rewrite Hopts. destruct i as [| i]; [| lia].
    cbn. intros [= <-]. reflexivity.
Defined.

(** The same list with its last item active: ArrowUp skips the title
    before it. *)
Lemma ArrowUp_previous_enabled_witness :
  let s := run start [AssignOptions [Some (title 1); Some (item 2);
                                     Some (title 4); Some (item 3)];
                      Keydown ArrowDown; Keydown ArrowDown] in
  _open s = true /\ _activeOptionIndex s = 3 /\
  step s (Keydown ArrowUp) = with_activeOptionIndex 1 s.
Proof.
  set (s := run start _).
  assert (_open s = true) as Hopen by (vm_compute; reflexivity).
  assert (_activeOptionIndex s = 3) as Hact by (vm_compute; reflexivity).
  assert (_options s = [title 1; item 2; title 4; item 3]) as Hopts
    by (vm_compute; reflexivity).
  split; [exact Hopen |]. split; [exact Hact |].
  destruct (ArrowUp_previous_enabled s (start_reachable _) Hopen) as [Hmove _].
  apply (Hmove 1%nat (item 2)).
  - rewrite Hact, Hopts. cbn. lia.
  - rewrite Hact. lia.
  - rewrite Hopts. reflexivity.
  - reflexivity.
  - intros i o' Hi Hi'. rewrite Hact in Hi'. rewrite Hopts.
    destruct i as [| [| [| i]]]; [lia | lia | | lia].
    cbn. intros [= <-]. reflexivity.
Defined.


Lemma select_noop_witness :
  let s := run start [AssignOptions [Some (title 1); Some (item 2)]] in
  _open s = true /\ click_item 0 s = s.
Proof.
  set (s := run start _).
  assert (_options s !! 0%nat = Some (title 1)) as Ho by (vm_compute; reflexivity).
  assert (_open s = true) as Hopen by (vm_compute; reflexivity).
  split; [exact Hopen |].
  destruct (select_noop s (start_reachable _)) as (Hclick & _).
  destruct (Hclick 0%nat) as [_ Hsame]; [rewrite Ho; reflexivity |].
  exact (Hsame Hopen).
Defined.

Lemma Escape_closes_click_reopens_witness :
  let s := run start [AssignOptions [Some (title 1); Some (item 2)];
                      Keydown ArrowDown] in
  _open s = true /\ step s (Keydown Escape) = step s (DocumentClick false).
Proof.
  set (s := run start _).
  assert (_open s = true) as Hopen by (vm_compute; reflexivity).
  split; [exact Hopen |].
  destruct (Escape_closes_click_reopens s (start_reachable _) Hopen) as [Hsame _].
  exact Hsame.
Defined.

Lemma only_assignments_notify_witness :
  let s := run start [AssignValue (Some 7%nat); Input "a"] in
  dispatched (step s Tick) = dispatched s /\ _value (step s Tick) = _value s.
Proof.
  apply (only_assignments_notify _ Tick (start_reachable _)). reflexivity.
Defined.

Lemma abort_reason_stable_witness :
  let s := run start [Input "a"; Input "ab"] in
  aborted (run s [ClearClick; Disconnect]) !! 0%nat =
    Some "ZAutocomplete : A new search has been performed".
Proof.
  set (s := run start _).
  apply abort_reason_stable. vm_compute. reflexivity.
Defined.

(** "a" is typed and the element is disconnected: the trigger is still
    pending and fires. *)
Lemma trigger_survives_witness :
  let s := run start [Input "a"] in
  timeouts (step s Disconnect) = [(0%nat, 3%nat)] /\
  fetches (advance 3 (step s Disconnect)) =
    fetches (step s Disconnect) ++
      [mkFetch (_inputEl (step s Disconnect)) (_abortController s) false].
Proof.
  set (s := run start _).
  assert (timeouts s = [(0%nat, 3%nat)]) as Hts by (vm_compute; reflexivity).
  assert (now s = 0%nat) as Hnow by (vm_compute; reflexivity).
  apply (trigger_survives s Disconnect 0 3 2 (start_reachable _) eq_refl Hts).
  rewrite Hnow. lia.
Defined.

Lemma clear_resets_witness :
  let s := run start [AssignValue (Some 7%nat);
                      AssignOptions [Some (title 1); Some (item 2)]] in
  _value (step s ClearClick) = None /\ _options (step s ClearClick) = [] /\
  _inputEl (step s ClearClick) = EmptyString.
Proof.
  set (s := run start _).
  destruct (clear_resets s (start_reachable _))
    as (_ & Hval & (Hopts & _) & _ & _ & _ & Hfield).
  split; [exact Hval |]. split; [exact Hopts |].
  destruct (Hfield eq_refl) as [Htext _]. exact Htext.
Defined.

Lemma list_replaced_or_emptied_witness :
  let s := run start [AssignOptions [Some (title 1); Some (item 2)]] in
  _options (step s (Input "x")) = [] /\
  (_options (step s (Keydown ArrowDown)) = _options s \/
   _options (step s (Keydown ArrowDown)) = []).
Proof.
  set (s := run start _).
  destruct (list_replaced_or_emptied s (start_reachable _)) as [Hinput Hother].
  destruct (Hinput "x") as [Hopts _].
  split; [exact Hopts |]. apply (Hother (Keydown ArrowDown)). reflexivity.
Defined.

Lemma reachable_trigger_ok_witness :
  trigger_ok (run start [Input "a"; Tick; Input "ab"]).
Proof. apply reachable_trigger_ok. apply start_reachable. Defined.

Lemma one_live_fetch_witness :
  let s := run start [Input "a"; Tick; Tick; Tick; Input "ab"; Tick; Tick; Tick] in
  NoDup (signal <$> fetches s).
Proof.
  set (s := run start _).
  destruct (one_live_fetch s (start_reachable _)) as [Hnd _]. exact Hnd.
Defined.

Lemma typing_renews_signal_witness :
  let s := run start [Input "a"] in
  exists c,
    _abortController (step s (Input "ab")) = Some c /\
    is_aborted c (step s (Input "ab")) = false /\
    fetches (advance 3 (step s (Input "ab"))) =
      fetches s ++ [mkFetch "ab" (Some c) false].
Proof.
  set (s := run start _).
  assert (debouceDelay <= 3)%nat as Hdelay by (vm_compute; lia).
  destruct (typing_renews_signal s "ab" 2 (start_reachable _) eq_refl Hdelay)
    as (c & Hc & Hlive & _ & Hfetch & _).
  exists c. split; [exact Hc |]. split; [exact Hlive | exact Hfetch].
Defined.

Lemma render_mirrors_state_witness :
  let s := run start [AssignOptions [Some (title 1); Some (item 2)];
                      Keydown ArrowDown] in
  (render s).1 = negb (ariaExpanded s) /\
  length (render s).2 = length (_options s).
Proof.
  set (s := run start _).
  destruct (render_mirrors_state s (start_reachable _)) as (Hhidden & Hlen & _).
  split; [exact Hhidden | exact Hlen].
Defined.

Lemma render_part_witness :
  let s := run start [AssignOptions [Some (title 1); Some (item 2)];
                      Keydown ArrowDown] in
  exists a b,
    (render s).2 = [a; b] /\
    part a = "options-item options-item--disabled" /\
    part b = "options-item options-item--active".
Proof.
  set (s := run start _).
  assert ((render s).2 = [_renderOption (title 1) 0 s; _renderOption (item 2) 1 s])
    as Hitems by (vm_compute; reflexivity).
  exists (_renderOption (title 1) 0 s), (_renderOption (item 2) 1 s).
  split; [exact Hitems |]. split.
  - rewrite (render_part s 0 _) by (rewrite Hitems; reflexivity).
    vm_compute. reflexivity.
  - rewrite (render_part s 1 _) by (rewrite Hitems; reflexivity).
    vm_compute. reflexivity.
Defined.

Lemma default_options_round_trip_witness :
  let s := run start [Input "a"; Tick; Tick; Tick] in
  _options (step s (Resolve 0 [1; 2]%nat)) = [item 1; item 2] /\
  _open (step s (Resolve 0 [1; 2]%nat)) = true.
Proof.
  set (s := run start _).
  assert (pending s 0 (mkFetch "a" (Some 0%nat) false)) as Hpending
    by (split; vm_compute; reflexivity).
  assert (forall d, dataToOption d = ZAutocomplete_dataToOption pretty d) as Hdefault
    by (intros [n |]; reflexivity).
  destruct (default_options_round_trip pretty s 0 _ [1; 2]%nat Hdefault
              (start_reachable _) Hpending) as (Hopts & Hopen & _).
  split; [exact Hopts | exact Hopen].
Defined.

Lemma LightDom_clear_writes_undefined_witness :
  let s := connected (theHost := LightDom.host) "abc" true in
  _inputEl (LightDom.handle (theHost := LightDom.host) ClearClick s) = "undefined" /\
  _inputEl (LightDom.handle (theHost := LightDom.host) (Input EmptyString) s) =
    "undefined".
Proof.
  set (s := connected _ _).
  assert (forall d, dataToOption (Host := LightDom.host) d =
                    LightDom.ZAutocomplete_dataToOption pretty d) as Hdefault
    by (intros d; reflexivity).
  split.
  - apply (LightDom_clear_writes_undefined (theHost := LightDom.host) pretty s
             ClearClick Hdefault). left. reflexivity.
  - apply (LightDom_clear_writes_undefined (theHost := LightDom.host) pretty s
             (Input EmptyString) Hdefault). right. reflexivity.
Defined.

Lemma LightDom_reachable_display_ok_witness :
  LightDom.display_ok
    (LightDom.run start [AssignOptions [Some (title 1); Some (item 2)]]).
Proof.
  apply LightDom_reachable_display_ok.
  exists EmptyString, true, [AssignOptions [Some (title 1); Some (item 2)]].
  reflexivity.
Defined.

Lemma LightDom_highlight_survives_closing_witness :
  let s := LightDom.run start [AssignOptions [Some (title 1); Some (item 2)];
                               Keydown ArrowDown] in
  _open s = true /\ _activeOptionIndex s = 1 /\
  _activeOptionIndex (LightDom.handle (DocumentClick false) s) = 1 /\
  LightDom.handle (DocumentClick true) (LightDom.handle (DocumentClick false) s) = s.
Proof.
  set (s := LightDom.run start _).
  assert (_open s = true) as Hopen by (vm_compute; reflexivity).
  assert (_activeOptionIndex s = 1) as Hact by (vm_compute; reflexivity).
  assert (LightDom.reachable s) as Hreach.
  { exists EmptyString, true,
      [AssignOptions [Some (title 1); Some (item 2)]; Keydown ArrowDown].
    reflexivity. }
  destruct (LightDom_highlight_survives_closing s Hreach Hopen)
    as (_ & (_ & _ & Hkept & _) & Hback).
  split; [exact Hopen |]. split; [exact Hact |].
  split; [rewrite <- Hact; exact Hkept | exact Hback].
Defined.

Lemma clamp_zero_is_min_witness :
  -5 <= 5 /\ FirstVersion.clamp 0 (-5) 5 = -5 /\ FirstVersion.clamp 3 (-5) 5 = 3.
Proof.
  assert (-5 <= 5) as Hle by lia.
  split; [exact Hle |]. split.
  - apply (clamp_zero_is_min 0 (-5) 5 Hle).
  - apply (clamp_zero_is_min 3 (-5) 5 Hle); lia.
Defined.

Lemma navigateToNextOption_cycles_witness :
  FirstVersion._navigateToNextOption 1 (Some 2) 3 = None /\
  FirstVersion._navigateToNextOption (-1) (Some 2) 3 = Some 1.
Proof.
  apply (navigateToNextOption_cycles 3 (Some 2)); [lia |].
  intros a [= <-]. lia.
Defined.

(** "o" is typed on the demo page, the delay being 2, and the fetch resolves
    with the data: the click on the title Option1 changes nothing, the click
    on the item of Option5 is cancelled, the click on the item of Option2
    commits it. *)
Lemma DemoPage_select_witness :
  let s := run (theHost := DemoPage.host 2) (connected (theHost := DemoPage.host 2)
                                               EmptyString true)
             [Input "o"; Tick; Tick; Resolve 0 DemoPage.AUTOCOMPLETE_DATA] in
  _open s = true /\
  click_item (theHost := DemoPage.host 2) 0 s = s /\
  (_value (click_item (theHost := DemoPage.host 2) 4 s) = None /\
   _inputEl (click_item (theHost := DemoPage.host 2) 4 s) = EmptyString) /\
  (_value (click_item (theHost := DemoPage.host 2) 1 s) =
     Some (DemoPage.mkOptionItem 2 "Option2") /\
   _inputEl (click_item (theHost := DemoPage.host 2) 1 s) = "Option2").
Proof.
  set (s := run _ _).
  assert (reachable (theHost := DemoPage.host 2) s) as Hreach
    by (by exists EmptyString, true,
          [Input "o"; Tick; Tick; Resolve 0 DemoPage.AUTOCOMPLETE_DATA]).
  assert (_open s = true) as Hopen by (vm_compute; reflexivity).
  split; [exact Hopen |]. split; [| split].
  - pose proof (DemoPage_select 2 s 0 (DemoPage.mkOptionItem 1 "Option1") Hreach) as H.
    assert (DemoPage.isTitle (DemoPage.mkOptionItem 1 "Option1") = true) as Htitle
      by (vm_compute; reflexivity).
    rewrite Htitle in H.
    destruct H as [_ H]; [vm_compute; reflexivity |]. exact (H Hopen).
  - pose proof (DemoPage_select 2 s 4
                  (DemoPage.mkOptionItem 5 "Option5 (preventDefault)") Hreach) as H.
    assert (DemoPage.isTitle (DemoPage.mkOptionItem 5 "Option5 (preventDefault)")
            = false) as Htitle by (vm_compute; reflexivity).
    rewrite Htitle in H.
    destruct H as (_ & _ & _ & _ & H); [vm_compute; reflexivity |]. exact H.
  - pose proof (DemoPage_select 2 s 1 (DemoPage.mkOptionItem 2 "Option2") Hreach) as H.
    assert (DemoPage.isTitle (DemoPage.mkOptionItem 2 "Option2") = false) as Htitle
      by (vm_compute; reflexivity).
    rewrite Htitle in H.
    destruct H as (_ & _ & _ & _ & H); [vm_compute; reflexivity |]. exact H.
Defined.

Lemma DemoPage_fetch_settles_witness :
  let s := run (theHost := DemoPage.host 2) (connected (theHost := DemoPage.host 2)
                                               EmptyString true)
             [Input "o"; Tick; Tick; Input "op"] in
  let f := mkFetch "o" (Some 0%nat) false in
  DemoPage.signal_aborted f s = true /\
  _options (step (theHost := DemoPage.host 2) s (Resolve 0 (DemoPage.fetchData f s)))
    = [].
Proof.
  set (s := run _ _). set (f := mkFetch _ _ _).
  assert (reachable (theHost := DemoPage.host 2) s) as Hreach
    by (by exists EmptyString, true, [Input "o"; Tick; Tick; Input "op"]).
  assert (pending s 0 f) as Hpending by (split; vm_compute; reflexivity).
  assert (DemoPage.signal_aborted f s = true) as Hab by (vm_compute; reflexivity).
  split; [exact Hab |].
  pose proof (DemoPage_fetch_settles 2 s 0 f Hreach Hpending) as H.
  rewrite Hab in H. destruct H as [H _]. exact H.
Defined.
